(** * The erasure-coded piece transfer engine of the satellite repairer

    A shallow embedding of [satellite/repair/repairer/ec.go]: the piece
    verifier ([verifyPieceHash], [verifyOrderLimitSignature]), the per-piece
    download ([downloadAndVerifyPiece]), the download coordinator ([Get]),
    the per-piece upload ([putPiece]), the upload coordinator ([Repair]) and
    the helpers [nonNilCount] and [unique].

    Conventions.
    - A Go [int] is a [Z]; the counters of [Get] are bounded by the length
      of the limits slice, so no wrap-around is written for them.  An [int32]
      is a [Z] and every conversion or increment is wrapped by [int32].
    - A [storj.NodeID] is a 32-byte array ordered by [bytes.Compare]; it is
      modelled by the number its bytes spell in big-endian order, on which
      the lexicographic order is the numeric one.  The zero value
      [storj.NodeID{}] is [0].
    - A pointer that may be nil is an [option].  The inner pointers of a
      non-nil [pb.AddressedOrderLimit] ([Limit], [StorageNodeAddress]) are
      populated by the order service and are modelled as plain fields.
    - An [error] that may be nil is an [option error].
    - The collaborators outside the repository (signature checks, the hash
      function, the erasure codec, the piece-store client, the error
      libraries) are interfaces, environments or small models of their
      documented behaviour; each is marked where it is introduced. *)

From Stdlib Require Import ZArith Lia.
From stdpp Require Import base tactics option list sorting gmap strings fin_maps.

Local Open Scope Z_scope.

(** ** Machine integers *)

(** [int32(x)]: two's-complement truncation to 32 bits. *)
Definition int32 (x : Z) : Z := (x + 2 ^ 31) mod 2 ^ 32 - 2 ^ 31.

(** ** Data model (storj.io/common/pb and storj.io/common/storj) *)

Definition NodeID := N.
Definition PieceID := N.
Definition bytes := list Z.

(** [storj.NodeID{}] *)
Definition zeroNodeID : NodeID := 0%N.

Record OrderLimit := {
  SerialNumber : N;
  SatelliteId : NodeID;
  UplinkPublicKey : bytes;
  StorageNodeId : NodeID;
  PieceId : PieceID;
  Limit_bytes : Z;
  SatelliteSignature : bytes;
}.

Record PieceHash := {
  Hash_PieceId : PieceID;
  Hash : bytes;
  Hash_Signature : bytes;
}.

Record NodeAddress := { Address : string }.

Record AddressedOrderLimit := {
  Limit : OrderLimit;
  StorageNodeAddress : NodeAddress;
}.

Record RemotePiece := {
  PieceNum : Z;
  NodeId : NodeID;
}.

Record Node := {
  Id : NodeID;
  Node_Address : NodeAddress;
}.

(** [eestream.ErasureScheme] / [eestream.RedundancyStrategy]: the counts the
    coordinators read. *)
Record ErasureScheme := {
  RequiredCount : Z;
  TotalCount : Z;
  ErasureShareSize : Z;
  OptimalThreshold : Z;
}.

(** ** Errors (github.com/zeebo/errs, context, fmt)

    An error value is a chain.  [Class.New] and [Class.Wrap] put a class
    around a cause, [fmt.Errorf] with [%w] puts a message around a cause,
    [errs.Combine] of two non-nil errors builds a group whose [Unwrap] and
    [Cause] are its first member.  [irreparableError] is the repairer's own
    error struct. *)

Inductive Class :=
| RepairerError              (* the package's [Error] class *)
| ErrPieceHashVerifyFailed   (* errs.Class("piece hashes don't match") *)
| PiecestoreError            (* piecestore.Error *)
| OtherClass (name : string).

#[warnings="-register-all"]
Inductive error :=
| Canceled                                   (* context.Canceled *)
| DeadlineExceeded                           (* context.DeadlineExceeded *)
| ErrorsNew (msg : string) (args : list Z)   (* a leaf error with its format arguments *)
| ClassErr (c : Class) (cause : error)       (* *errs.errorT *)
| NodeErrorf (id : NodeID) (cause : error)   (* fmt.Errorf("node id: %s, error: %w", id, err) *)
| Combined (first second : error)            (* errs.combinedError{first, second} *)
| irreparableError (piecesAvailable piecesRequired : Z) (errlist : list error).

#[global] Instance Class_eq_dec : EqDecision Class.
Proof. solve_decision. Defined.

(** [class.New(format, args...)] *)
Definition Class_New (c : Class) (msg : string) (args : list Z) : error :=
  ClassErr c (ErrorsNew msg args).

(** [class.Wrap(err)]: nil stays nil, an error that already carries the
    class at its head is returned as it is. *)
Definition Class_Wrap (c : Class) (err : option error) : option error :=
  match err with
  | None => None
  | Some (ClassErr c' cause) =>
      if decide (c' = c) then Some (ClassErr c' cause)
      else Some (ClassErr c (ClassErr c' cause))
  | Some e => Some (ClassErr c e)
  end.

(** One step of [Unwrap] / [Cause]. *)
Definition unwrap1 (e : error) : option error :=
  match e with
  | ClassErr _ cause => Some cause
  | NodeErrorf _ cause => Some cause
  | Combined first _ => Some first
  | _ => None
  end.

(** [errs.IsFunc(err, p)]: does some error on the unwrap chain satisfy [p]? *)
Fixpoint IsFunc (p : error → bool) (e : error) : bool :=
  p e ||
  match e with
  | ClassErr _ cause => IsFunc p cause
  | NodeErrorf _ cause => IsFunc p cause
  | Combined first _ => IsFunc p first
  | _ => false
  end.

(** [errs.Unwrap(err)]: the innermost error of the chain. *)
Fixpoint errs_Unwrap (e : error) : error :=
  match e with
  | ClassErr _ cause => errs_Unwrap cause
  | NodeErrorf _ cause => errs_Unwrap cause
  | Combined first _ => errs_Unwrap first
  | _ => e
  end.

(** [class.Has(err)] *)
Definition Class_Has (c : Class) (err : option error) : bool :=
  match err with
  | None => false
  | Some e =>
      IsFunc (λ e', match e' with ClassErr c' _ => bool_decide (c' = c) | _ => false end) e
  end.

(** [errors.Is(err, context.Canceled)] *)
Definition errors_Is_Canceled (err : option error) : bool :=
  match err with
  | None => false
  | Some e => IsFunc (λ e', match e' with Canceled => true | _ => false end) e
  end.

(** [errs2.IsCanceled(err)]: the chain reaches [context.Canceled].  (The
    library also accepts the server-shutdown sentinels of grpc and net/http,
    which no error of this model is.) *)
Definition errs2_IsCanceled (e : error) : bool :=
  IsFunc (λ e', match e' with Canceled => true | _ => false end) e.

(** [errs.Combine(a, b)] *)
Definition errs_Combine (a b : option error) : option error :=
  match a, b with
  | None, None => None
  | Some e, None => Some e
  | None, Some e => Some e
  | Some e1, Some e2 => Some (Combined e1 e2)
  end.

(** ** Collaborators of the verifier

    [signing.VerifyUplinkPieceHashSignature], [signing.VerifyOrderLimitSignature]
    and [pkcrypto.NewHash] are deterministic functions of their arguments. *)

Class Signing := {
  Signee : Type;
  VerifyUplinkPieceHashSignature : bytes → PieceHash → option error;
  VerifyOrderLimitSignature : Signee → OrderLimit → option error;
  pkcrypto_Sum : bytes → bytes;
}.

(** ** Piece verifier *)

Section Verifier.
Context `{Sg : Signing}.

(** [bytes.Equal] *)
Definition bytes_Equal (a b : bytes) : bool := bool_decide (a = b).

Definition verifyPieceHash (limit : option OrderLimit) (hash : option PieceHash)
    (expectedHash : bytes) : option error :=
  match limit, hash with
  | Some limit, Some hash =>
      if bool_decide (length expectedHash = 0%nat) then
        Some (Class_New RepairerError "invalid arguments" [])
      else if negb (bool_decide (PieceId limit = Hash_PieceId hash)) then
        Some (Class_New RepairerError "piece id changed" [])
      else if negb (bytes_Equal (Hash hash) expectedHash) then
        Some (Class_New RepairerError
                "hash from storage node, %x, does not match calculated hash, %x"
                (Hash hash ++ expectedHash))
      else
        match VerifyUplinkPieceHashSignature (UplinkPublicKey limit) hash with
        | Some _ => Some (Class_New RepairerError "invalid piece hash signature" [])
        | None => None
        end
  | _, _ => Some (Class_New RepairerError "invalid arguments" [])
  end.

Definition verifyOrderLimitSignature (satellite : Signee) (limit : OrderLimit)
    : option error :=
  match VerifyOrderLimitSignature satellite limit with
  | Some _ => Some (Class_New RepairerError "invalid order limit signature: %v" [])
  | None => None
  end.

End Verifier.

(** ** Helpers *)

Definition nonNilCount (limits : list (option AddressedOrderLimit)) : Z :=
  fold_left (λ total limit, match limit with Some _ => total + 1 | None => total end)
            limits 0.

(** [ids := make(storj.NodeIDList, len(limits))] filled from the non-nil
    slots; a nil slot keeps the zero ID. *)
Definition limit_ids (limits : list (option AddressedOrderLimit)) : list NodeID :=
  (λ addressedLimit,
     match addressedLimit with
     | Some al => StorageNodeId (Limit al)
     | None => zeroNodeID
     end) <$> limits.

(** [sort.Sort(ids)] with [Less] the byte-wise order of node IDs.  Two IDs
    that the order does not separate are equal, so the sorted slice does not
    depend on the algorithm ([sort_Sort_any] below); merge sort stands for it. *)
Definition sort_Sort (ids : list NodeID) : list NodeID := merge_sort N.le ids.

(** The loop [for i := 1; i < len(ids); i++] over the sorted IDs: [false] at
    the first non-zero ID that equals its left neighbour. *)
Fixpoint identical_neighbours_free (ids : list NodeID) : bool :=
  match ids with
  | prev :: (cur :: _) as rest =>
      if bool_decide (cur ≠ zeroNodeID) && bool_decide (cur = prev) then false
      else identical_neighbours_free rest
  | _ => true
  end.

Definition unique (limits : list (option AddressedOrderLimit)) : bool :=
  if bool_decide (length limits < 2)%nat then true
  else identical_neighbours_free (sort_Sort (limit_ids limits)).

(** ** Network events

    What a mock transport would observe: a dial of a node at an address, and
    the start of the erasure encoder. *)
Inductive event :=
| EvDial (id : NodeID) (address : string)
| EvEncode.

Arguments EvDial id%_N address%_string.

(** ** Per-piece download *)

(** The piece reader handed to the decoder: the downloaded bytes, held in
    memory or in a rewound temporary file. *)
Inductive ReadCloser :=
| InMemory (content : bytes)
| TempFile (content : bytes).

Record ECRepairer `{Sg : Signing} := {
  satelliteSignee : Signee;
  downloadTimeout : Z;
  inmemory : bool;
}.

(** What the transport and the node answer during one call of
    [downloadAndVerifyPiece]. *)
Record DownloadEnv := {
  dial_err : option error;           (* ec.dialPiecestore *)
  ps_Close : option error;           (* ps.Close() *)
  Download_err : option error;       (* ps.Download *)
  downloader_Close : option error;   (* downloader.Close() *)
  tmpfile_New_err : option error;    (* tmpfile.New *)
  read_err : option error;           (* ioutil.ReadAll / io.Copy *)
  Seek_err : option error;           (* tempfile.Seek *)
  pieceBytes : bytes;                (* the bytes read from the downloader *)
  sent_hash : option PieceHash;      (* downloader.GetHashAndLimit() *)
  sent_limit : option OrderLimit;
}.

Section Download.
Context `{Sg : Signing}.
Variable ec : ECRepairer.

(** The network: what dialing the node of [limit] at [address] and
    downloading the piece of [limit] there answers. *)
Variable transport : AddressedOrderLimit → string → DownloadEnv.

(** The part of [downloadAndVerifyPiece] after [ps.Download] succeeded, before
    the deferred closes.  The temporary file's deferred close assigns the
    [err] of its own block and does not reach the result. *)
Definition downloadAndVerifyPiece_body (pieceSize : Z) (env : DownloadEnv)
    : option ReadCloser * option error :=
  let read : error + ReadCloser * Z :=
    if inmemory ec then
      match read_err env with
      | Some e => inl e
      | None => inr (InMemory (pieceBytes env), Z.of_nat (length (pieceBytes env)))
      end
    else
      match tmpfile_New_err env with
      | Some e => inl e
      | None =>
          match read_err env with
          | Some e => inl e
          | None =>
              match Seek_err env with
              | Some e => inl e
              | None => inr (TempFile (pieceBytes env), Z.of_nat (length (pieceBytes env)))
              end
          end
      end in
  match read with
  | inl e => (None, Some e)
  | inr (pieceReadCloser, downloadedPieceSize) =>
      if bool_decide (downloadedPieceSize ≠ pieceSize) then
        (None, Some (Class_New RepairerError
                       "didn't download the correct amount of data, want %d, got %d"
                       [pieceSize; downloadedPieceSize]))
      else
        match sent_hash env with
        | None => (None, Some (Class_New RepairerError "hash was not sent from storagenode" []))
        | Some hash =>
            match sent_limit env with
            | None =>
                (None, Some (Class_New RepairerError
                               "original order limit was not sent from storagenode" []))
            | Some originalLimit =>
                match verifyOrderLimitSignature (satelliteSignee ec) originalLimit with
                | Some e => (None, Some e)
                | None =>
                    let calculatedHash := pkcrypto_Sum (pieceBytes env) in
                    match verifyPieceHash (Some originalLimit) (Some hash) calculatedHash with
                    | Some e => (None, Class_Wrap ErrPieceHashVerifyFailed (Some e))
                    | None => (Some pieceReadCloser, None)
                    end
                end
            end
        end
  end.

Definition downloadAndVerifyPiece (limit : AddressedOrderLimit) (address : string)
    (pieceSize : Z) : option ReadCloser * option error :=
  let env := transport limit address in
  match dial_err env with
  | Some e => (None, Some e)
  | None =>
      let '(r, err) :=
        match Download_err env with
        | Some e => (None, Some e)
        | None =>
            let '(r, err) := downloadAndVerifyPiece_body pieceSize env in
            (r, errs_Combine err (downloader_Close env))
        end in
      (r, errs_Combine err (ps_Close env))
  end.

End Download.

(** ** Download coordinator

    [Get] starts one worker per non-nil limit through a limiter of capacity
    [k = es.RequiredCount()].  Everything a worker does between [cond.L.Lock]
    and the next [Unlock], [Wait] or return is one atomic action; the
    download itself runs outside the lock.  An execution of [Get] is a
    schedule: the list of actions in the order in which they happen. *)

(** Where a worker is. *)
Inductive pc :=
| Idle        (* not dispatched: nil slot, or the range loop has not reached it *)
| Refused     (* limiter.Go returned false: the context was done *)
| AtLoop      (* holds a limiter slot, about to evaluate the loop under the lock *)
| Waiting     (* in cond.Wait() *)
| Fetching    (* claimed a download, lock released *)
| Abstained   (* returned without downloading *)
| Finished.   (* returned after its download *)

#[global] Instance pc_eq_dec : EqDecision pc.
Proof. solve_decision. Defined.

Record GetState := {
  next : nat;                                   (* position of the range loop *)
  ctxDone : bool;                               (* ctx.Err() != nil *)
  workers : list pc;
  successfulPieces : Z;
  inProgress : Z;
  unusedLimits : Z;
  pieceReaders : gmap nat (option ReadCloser);  (* map[int]io.ReadCloser *)
  failedPieces : list RemotePiece;
  errlist : list error;
  dials : list event;
}.

(** The stream [eestream.DecodeReaders2] builds lazily from its arguments. *)
Record DecodedStream := {
  ds_readers : gmap nat (option ReadCloser);
  ds_required : Z;
  ds_total : Z;
  ds_shareSize : Z;
  ds_expectedSize : Z;
}.

Record GetResult := {
  get_stream : option DecodedStream;
  get_failedPieces : list RemotePiece;
  get_err : option error;
  get_dials : list event;
}.

Inductive action :=
| Range            (* one iteration of [for currentLimitIndex, limit := range limits] *)
| CtxCancel        (* the caller's context becomes done *)
| Loop (i : nat)   (* worker [i] evaluates the loop once under the lock *)
| Wake (i : nat)   (* worker [i] returns from cond.Wait() *)
| Fetched (i : nat). (* worker [i]'s download returned; it re-locks and records *)

(** [int64(x)] *)
Definition int64 (x : Z) : Z := (x + 2 ^ 63) mod 2 ^ 64 - 2 ^ 63.

(** The codec: [infectious.NewFEC] and [eestream.CalcPieceSize]. *)
Class Codec := {
  infectious_NewFEC : Z → Z → option error;
  eestream_CalcPieceSize : Z → ErasureScheme → Z;
}.

Section Get.
Context `{Sg : Signing} `{Cd : Codec}.
Variable ec : ECRepairer.
Variable transport : AddressedOrderLimit → string → DownloadEnv.
Variable limits : list (option AddressedOrderLimit).
Variable cachedIPsAndPorts : gmap NodeID string.
Variable es : ErasureScheme.
Variable dataSize : Z.

Definition Get_pieceSize : Z := eestream_CalcPieceSize dataSize es.

(** Lines 123-136: choose the address, download, retry once at the node's own
    address when the cached one failed with a piece-store error. *)
Definition fetch (limit : AddressedOrderLimit)
    : (option ReadCloser * option error) * list event :=
  let id := StorageNodeId (Limit limit) in
  let lastIPPort := default "" (cachedIPsAndPorts !! id) in
  let nodeAddress := Address (StorageNodeAddress limit) in
  let triedLastIPPort :=
    negb (bool_decide (lastIPPort = "")) && negb (bool_decide (lastIPPort = nodeAddress)) in
  let address := if triedLastIPPort then lastIPPort else nodeAddress in
  let r := downloadAndVerifyPiece ec transport limit address Get_pieceSize in
  if triedLastIPPort && Class_Has PiecestoreError r.2 then
    (downloadAndVerifyPiece ec transport limit nodeAddress Get_pieceSize,
     [EvDial id address; EvDial id nodeAddress])
  else (r, [EvDial id address]).

Definition Get_init : GetState := {|
  next := 0;
  ctxDone := false;
  workers := replicate (length limits) Idle;
  successfulPieces := 0;
  inProgress := 0;
  unusedLimits := nonNilCount limits;
  pieceReaders := ∅;
  failedPieces := [];
  errlist := [];
  dials := [];
|}.

Definition set_pc (i : nat) (p : pc) (s : GetState) : GetState :=
  {| next := next s; ctxDone := ctxDone s; workers := <[i := p]> (workers s);
     successfulPieces := successfulPieces s; inProgress := inProgress s;
     unusedLimits := unusedLimits s; pieceReaders := pieceReaders s;
     failedPieces := failedPieces s; errlist := errlist s; dials := dials s |}.

(** Workers that hold a slot of the limiter. *)
Definition holds_slot (p : pc) : bool :=
  match p with AtLoop | Waiting | Fetching => true | _ => false end.

Definition running (s : GetState) : Z :=
  Z.of_nat (length (filter (λ p, holds_slot p = true) (workers s))).

(** One iteration of the range loop.  A nil slot is skipped; [limiter.Go]
    refuses when the context is done and otherwise needs a free slot. *)
Definition range_step (s : GetState) : option GetState :=
  match limits !! next s with
  | None => None
  | Some None =>
      Some {| next := S (next s); ctxDone := ctxDone s; workers := workers s;
              successfulPieces := successfulPieces s; inProgress := inProgress s;
              unusedLimits := unusedLimits s; pieceReaders := pieceReaders s;
              failedPieces := failedPieces s; errlist := errlist s; dials := dials s |}
  | Some (Some _) =>
      if ctxDone s then
        Some {| next := S (next s); ctxDone := ctxDone s;
                workers := <[next s := Refused]> (workers s);
                successfulPieces := successfulPieces s; inProgress := inProgress s;
                unusedLimits := unusedLimits s; pieceReaders := pieceReaders s;
                failedPieces := failedPieces s; errlist := errlist s; dials := dials s |}
      else if bool_decide (running s < RequiredCount es) then
        Some {| next := S (next s); ctxDone := ctxDone s;
                workers := <[next s := AtLoop]> (workers s);
                successfulPieces := successfulPieces s; inProgress := inProgress s;
                unusedLimits := unusedLimits s; pieceReaders := pieceReaders s;
                failedPieces := failedPieces s; errlist := errlist s; dials := dials s |}
      else None
  end.

(** Lines 102-121: one evaluation of the loop body under the lock. *)
Definition loop_step (i : nat) (s : GetState) : GetState :=
  if bool_decide (successfulPieces s >= RequiredCount es) then
    set_pc i Abstained s
  else if bool_decide (successfulPieces s + inProgress s + unusedLimits s < RequiredCount es) then
    set_pc i Abstained s
  else if bool_decide (successfulPieces s + inProgress s >= RequiredCount es) then
    set_pc i Waiting s
  else
    {| next := next s; ctxDone := ctxDone s; workers := <[i := Fetching]> (workers s);
       successfulPieces := successfulPieces s;
       inProgress := inProgress s + 1;
       unusedLimits := unusedLimits s - 1;
       pieceReaders := pieceReaders s;
       failedPieces := failedPieces s; errlist := errlist s; dials := dials s |}.

(** Lines 123-161: the download and the bookkeeping after it. *)
Definition fetched_step (i : nat) (limit : AddressedOrderLimit) (s : GetState) : GetState :=
  let '((pieceReadCloser, err), evs) := fetch limit in
  match err with
  | Some e =>
      {| next := next s; ctxDone := ctxDone s; workers := <[i := Finished]> (workers s);
         successfulPieces := successfulPieces s;
         inProgress := inProgress s - 1;
         unusedLimits := unusedLimits s;
         pieceReaders := pieceReaders s;
         failedPieces :=
           if Class_Has ErrPieceHashVerifyFailed err then
             failedPieces s ++ [{| PieceNum := int32 (Z.of_nat i);
                                   NodeId := StorageNodeId (Limit limit) |}]
           else failedPieces s;
         errlist := errlist s ++ [NodeErrorf (StorageNodeId (Limit limit)) e];
         dials := dials s ++ evs |}
  | None =>
      {| next := next s; ctxDone := ctxDone s; workers := <[i := Finished]> (workers s);
         successfulPieces := successfulPieces s + 1;
         inProgress := inProgress s - 1;
         unusedLimits := unusedLimits s;
         pieceReaders := <[i := pieceReadCloser]> (pieceReaders s);
         failedPieces := failedPieces s; errlist := errlist s;
         dials := dials s ++ evs |}
  end.

(** One action of the schedule; [None] when the action is not enabled. *)
Definition step (a : action) (s : GetState) : option GetState :=
  match a with
  | Range => range_step s
  | CtxCancel =>
      Some {| next := next s; ctxDone := true; workers := workers s;
              successfulPieces := successfulPieces s; inProgress := inProgress s;
              unusedLimits := unusedLimits s; pieceReaders := pieceReaders s;
              failedPieces := failedPieces s; errlist := errlist s; dials := dials s |}
  | Loop i =>
      match workers s !! i with
      | Some AtLoop => Some (loop_step i s)
      | _ => None
      end
  | Wake i =>
      match workers s !! i with
      | Some Waiting => Some (set_pc i AtLoop s)
      | _ => None
      end
  | Fetched i =>
      match workers s !! i, limits !! i with
      | Some Fetching, Some (Some limit) => Some (fetched_step i limit s)
      | _, _ => None
      end
  end.

Fixpoint exec (schedule : list action) (s : GetState) : option GetState :=
  match schedule with
  | [] => Some s
  | a :: schedule =>
      match step a s with
      | Some s' => exec schedule s'
      | None => None
      end
  end.

(** [limiter.Wait()] returns: the range loop is over and no worker holds a slot. *)
Definition drained (s : GetState) : bool :=
  bool_decide (next s = length limits) && bool_decide (running s = 0).

(** Lines 168-188. *)
Definition Get_finish (s : GetState) : GetResult :=
  if bool_decide (successfulPieces s < RequiredCount es) then
    {| get_stream := None;
       get_failedPieces := failedPieces s;
       get_err := Some (irreparableError (int32 (successfulPieces s))
                                         (int32 (RequiredCount es))
                                         (errlist s));
       get_dials := dials s |}
  else
    match infectious_NewFEC (RequiredCount es) (TotalCount es) with
    | Some e =>
        {| get_stream := None;
           get_failedPieces := failedPieces s;
           get_err := Class_Wrap RepairerError (Some e);
           get_dials := dials s |}
    | None =>
        {| get_stream :=
             Some {| ds_readers := pieceReaders s;
                     ds_required := RequiredCount es;
                     ds_total := TotalCount es;
                     ds_shareSize := ErasureShareSize es;
                     ds_expectedSize := int64 (Get_pieceSize * int64 (RequiredCount es)) |};
           get_failedPieces := failedPieces s;
           get_err := None;
           get_dials := dials s |}
    end.

(** [Get] under a schedule: the two configuration checks, then the workers,
    then the decision.  [None] when the schedule is not an execution that
    lets [limiter.Wait()] return. *)
Definition Get (schedule : list action) : option GetResult :=
  if bool_decide (Z.of_nat (length limits) ≠ TotalCount es) then
    Some {| get_stream := None; get_failedPieces := [];
            get_err := Some (Class_New RepairerError
              "number of limits slice (%d) does not match total count (%d) of erasure scheme"
              [Z.of_nat (length limits); TotalCount es]);
            get_dials := [] |}
  else if bool_decide (nonNilCount limits < RequiredCount es) then
    Some {| get_stream := None; get_failedPieces := [];
            get_err := Some (Class_New RepairerError
              "number of non-nil limits (%d) is less than required count (%d) of erasure scheme"
              [nonNilCount limits; RequiredCount es]);
            get_dials := [] |}
  else
    match exec schedule Get_init with
    | Some s => if drained s then Some (Get_finish s) else None
    | None => None
    end.

End Get.

(** ** Per-piece upload *)

(** What the transport and the node answer during one call of [putPiece],
    and what the two contexts report once the upload has failed. *)
Record UploadEnv := {
  up_dial_err : option error;                          (* ec.dialPiecestore *)
  up_ps_Close : option error;                          (* ps.Close() *)
  up_data_Close : option error;                        (* data.Close() *)
  UploadReader : option PieceHash * option error;      (* ps.UploadReader *)
  ctx_Err : option error;                              (* ctx.Err() *)
  parent_Err : option error;                           (* parent.Err() *)
}.

Definition putPiece (limit : option AddressedOrderLimit) (env : UploadEnv)
    : (option PieceHash * option error) * list event :=
  match limit with
  | None =>
      (* the reader is drained; only data.Close() is deferred *)
      ((None, errs_Combine None (up_data_Close env)), [])
  | Some limit =>
      let storageNodeID := StorageNodeId (Limit limit) in
      let ev := EvDial storageNodeID (Address (StorageNodeAddress limit)) in
      match up_dial_err env with
      | Some e => ((None, errs_Combine (Some e) (up_data_Close env)), [ev])
      | None =>
          let '(hash, err) := UploadReader env in
          let err :=
            match err with
            | Some e =>
                if errors_Is_Canceled (ctx_Err env) then
                  errs_Combine (Some Canceled) (Some e)
                else Some e
            | None => None
            end in
          ((hash, errs_Combine (errs_Combine err (up_ps_Close env)) (up_data_Close env)),
           [ev])
      end
  end.

(** ** Upload coordinator *)

(** What happens around one call of [Repair]: the encoder's answer, the
    transport's answer for the task of each slot, the order in which the
    task results arrive on the [infos] channel, and whether the caller's
    context is done when [Repair] returns.  The deadline timer and the
    calls of [cancel()] reach the uploads through their context only: what
    they cause is part of each upload's answer ([ctx_Err] and the error of
    [UploadReader]). *)
Record RepairEnv := {
  EncodeReader2_err : option error;
  uploads : nat → UploadEnv;
  arrival : list nat;
  ctx_Done : bool;
}.

(** The aggregate state of the receiving loop (lines 353-403). *)
Record RepairState := {
  successfulNodes : list (option Node);
  successfulHashes : list (option PieceHash);
  successfulCount : Z;
  failureCount : Z;
  cancellationCount : Z;
  cancelCalled : bool;
}.

Record RepairResult := {
  rep_successfulNodes : option (list (option Node));
  rep_successfulHashes : option (list (option PieceHash));
  rep_err : option error;
  rep_events : list event;
  rep_state : option RepairState;   (* the counters when the loop was run *)
}.

Section Repair.
Variable limits : list (option AddressedOrderLimit).
Variable rs : ErasureScheme.
Variable successfulNeeded : Z.
Variable env : RepairEnv.

Definition Repair_init : RepairState := {|
  successfulNodes := replicate (length limits) None;
  successfulHashes := replicate (length limits) None;
  successfulCount := 0;
  failureCount := 0;
  cancellationCount := 0;
  cancelCalled := false;
|}.

(** The result [info{i, err, hash}] the task of slot [i] sends. *)
Definition task_result (i : nat) : option PieceHash * option error :=
  (putPiece (default None (limits !! i)) (uploads env i)).1.

(** One iteration of [for range limits { info := <-infos ... }] for the
    result of slot [i]. *)
Definition receive (st : RepairState) (i : nat) : RepairState :=
  match limits !! i with
  | Some (Some limit) =>
      let '(hash, err) := task_result i in
      match err with
      | Some e =>
          if negb (errs2_IsCanceled e) then
            {| successfulNodes := successfulNodes st;
               successfulHashes := successfulHashes st;
               successfulCount := successfulCount st;
               failureCount := int32 (failureCount st + 1);
               cancellationCount := cancellationCount st;
               cancelCalled := cancelCalled st |}
          else
            {| successfulNodes := successfulNodes st;
               successfulHashes := successfulHashes st;
               successfulCount := successfulCount st;
               failureCount := failureCount st;
               cancellationCount := int32 (cancellationCount st + 1);
               cancelCalled := cancelCalled st |}
      | None =>
          let successfulCount' := int32 (successfulCount st + 1) in
          {| successfulNodes :=
               <[i := Some {| Id := StorageNodeId (Limit limit);
                              Node_Address := StorageNodeAddress limit |}]>
                 (successfulNodes st);
             successfulHashes := <[i := hash]> (successfulHashes st);
             successfulCount := successfulCount';
             failureCount := failureCount st;
             cancellationCount := cancellationCount st;
             cancelCalled :=
               if bool_decide (successfulCount' >= int32 successfulNeeded) then true
               else cancelCalled st |}
      end
  | _ => st   (* a nil slot: continue *)
  end.

Definition Repair_loop : RepairState := fold_left receive (arrival env) Repair_init.

(** The deferred [select] on [ctx.Done()] (lines 409-415). *)
Definition Repair_deferred (err : option error) : option error :=
  if ctx_Done env then Some (Class_New RepairerError "repair cancelled" []) else err.

Definition Repair : RepairResult :=
  let pieceCount := length limits in
  if bool_decide (Z.of_nat pieceCount ≠ TotalCount rs) then
    {| rep_successfulNodes := None; rep_successfulHashes := None;
       rep_err := Some (Class_New RepairerError
         "size of limits slice (%d) does not match total count (%d) of erasure scheme"
         [Z.of_nat pieceCount; TotalCount rs]);
       rep_events := []; rep_state := None |}
  else if negb (unique limits) then
    {| rep_successfulNodes := None; rep_successfulHashes := None;
       rep_err := Some (Class_New RepairerError "duplicated nodes are not allowed" []);
       rep_events := []; rep_state := None |}
  else
    match EncodeReader2_err env with
    | Some e =>
        {| rep_successfulNodes := None; rep_successfulHashes := None;
           rep_err := Some e;
           rep_events := [EvEncode]; rep_state := None |}
    | None =>
        let evs :=
          EvEncode ::
          concat (imap (λ i addressedLimit, (putPiece addressedLimit (uploads env i)).2)
                       limits) in
        let st := Repair_loop in
        if bool_decide (successfulCount st = 0) then
          {| rep_successfulNodes := None; rep_successfulHashes := None;
             rep_err := Repair_deferred
                          (Some (Class_New RepairerError "repair to all nodes failed" []));
             rep_events := evs; rep_state := Some st |}
        else
          {| rep_successfulNodes := Some (successfulNodes st);
             rep_successfulHashes := Some (successfulHashes st);
             rep_err := Repair_deferred None;
             rep_events := evs; rep_state := Some st |}
    end.

End Repair.

(** ** Concrete collaborators and inputs used by the examples *)

(** A signing scheme for the examples: a signature is valid when it spells
    the key it is checked against; the hash of a piece is its length
    followed by the sum of its bytes. *)
Definition example_Signing : Signing := {|
  Signee := bytes;
  VerifyUplinkPieceHashSignature key hash :=
    if bool_decide (Hash_Signature hash = key) then None
    else Some (ErrorsNew "signature is not valid" []);
  VerifyOrderLimitSignature satellite limit :=
    if bool_decide (SatelliteSignature limit = satellite) then None
    else Some (ErrorsNew "signature is not valid" []);
  pkcrypto_Sum b := [Z.of_nat (length b); fold_right Z.add 0 b mod 256];
|}.

(** The erasure library accepts [1 <= k <= n <= 256]; a piece is the data
    size divided by [k], rounded up. *)
Definition example_Codec : Codec := {|
  infectious_NewFEC k n :=
    if bool_decide (1 ≤ k ∧ k ≤ n ∧ n ≤ 256) then None
    else Some (ErrorsNew "requires 1 <= k <= n <= 256" []);
  eestream_CalcPieceSize dataSize es := (dataSize + RequiredCount es - 1) `div` RequiredCount es;
|}.

Definition ex_satellite : bytes := [7; 7].
Definition ex_uplink_key : bytes := [9].

Definition ex_limit (node : NodeID) (piece : PieceID) : OrderLimit := {|
  SerialNumber := 1%N; SatelliteId := 100%N; UplinkPublicKey := ex_uplink_key;
  StorageNodeId := node; PieceId := piece; Limit_bytes := 4;
  SatelliteSignature := ex_satellite;
|}.

(** The same limit under a signature that is not the satellite's. *)
Definition ex_forged_limit (node : NodeID) (piece : PieceID) : OrderLimit := {|
  SerialNumber := 1%N; SatelliteId := 100%N; UplinkPublicKey := ex_uplink_key;
  StorageNodeId := node; PieceId := piece; Limit_bytes := 4;
  SatelliteSignature := [6; 6];
|}.

Arguments ex_limit (node piece)%_N.
Arguments ex_forged_limit (node piece)%_N.

Definition ex_piece : bytes := [1; 2; 3; 4].

Definition ex_hash (piece : PieceID) : PieceHash := {|
  Hash_PieceId := piece;
  Hash := @pkcrypto_Sum example_Signing ex_piece;
  Hash_Signature := ex_uplink_key;
|}.

(** A hash the node signed over other content. *)
Definition ex_tampered_hash (piece : PieceID) : PieceHash := {|
  Hash_PieceId := piece; Hash := [4; 0]; Hash_Signature := ex_uplink_key;
|}.

Definition ex_addressed (node : NodeID) (piece : PieceID) : AddressedOrderLimit := {|
  Limit := ex_limit node piece;
  StorageNodeAddress := {| Address := "10.0.0.1:7777" |};
|}.

Arguments ex_hash piece%_N.
Arguments ex_tampered_hash piece%_N.
Arguments ex_addressed (node piece)%_N.

(** The repairer, the network and the scheme of the examples.  Node 66
    signs a hash over other content, node 77 echoes a limit under a forged
    signature, node 88 cannot be dialled; every other node serves its piece. *)
Definition ex_ec : @ECRepairer example_Signing :=
  {| satelliteSignee := ex_satellite : @Signee example_Signing;
     downloadTimeout := 1000; inmemory := true |}.

Definition ex_served (limit : AddressedOrderLimit) (hash : PieceHash)
    (echoed : OrderLimit) : DownloadEnv := {|
  dial_err := None; ps_Close := None; Download_err := None;
  downloader_Close := None; tmpfile_New_err := None; read_err := None;
  Seek_err := None; pieceBytes := ex_piece;
  sent_hash := Some hash; sent_limit := Some echoed;
|}.

Definition ex_unreachable : DownloadEnv := {|
  dial_err := Some (ClassErr PiecestoreError (ErrorsNew "connection refused" []));
  ps_Close := None; Download_err := None;
  downloader_Close := None; tmpfile_New_err := None; read_err := None;
  Seek_err := None; pieceBytes := [];
  sent_hash := None; sent_limit := None;
|}.

Definition ex_transport (limit : AddressedOrderLimit) (address : string) : DownloadEnv :=
  let node := StorageNodeId (Limit limit) in
  let piece := PieceId (Limit limit) in
  if bool_decide (node = 66%N) then
    ex_served limit (ex_tampered_hash piece) (Limit limit)
  else if bool_decide (node = 77%N) then
    ex_served limit (ex_hash piece) (ex_forged_limit node piece)
  else if bool_decide (node = 88%N) then ex_unreachable
  else ex_served limit (ex_hash piece) (Limit limit).

Definition ex_es : ErasureScheme :=
  {| RequiredCount := 2; TotalCount := 4; ErasureShareSize := 256; OptimalThreshold := 3 |}.

Definition ex_dataSize : Z := 8.

(** Four slots for a 2-of-4 scheme, and an interleaved execution of [Get]
    over them: workers 0 and 1 download at the same time, worker 2 waits
    until worker 0 has failed, worker 3 brings the second piece. *)
Definition ex_get_limits : list (option AddressedOrderLimit) :=
  [Some (ex_addressed 77 10); Some (ex_addressed 5 11);
   Some (ex_addressed 66 12); Some (ex_addressed 6 13)].

Definition ex_schedule : list action :=
  [Range; Range; Loop 0; Loop 1; Fetched 1; Range; Loop 2; Fetched 0; Wake 2;
   Loop 2; Fetched 2; Range; Loop 3; Fetched 3]%nat.

(** Three limits of which one node serves a verifiable piece, downloaded
    one after the other. *)
Definition ex_short_limits : list (option AddressedOrderLimit) :=
  [Some (ex_addressed 77 10); Some (ex_addressed 5 11);
   Some (ex_addressed 66 12); None].

Definition ex_short_schedule : list action :=
  [Range; Loop 0; Fetched 0; Range; Loop 1; Fetched 1; Range; Loop 2; Fetched 2;
   Range]%nat.

(** The answers of the examples' uploads: every node accepts its piece. *)
Definition ex_upload_ok (i : nat) : UploadEnv := {|
  up_dial_err := None; up_ps_Close := None; up_data_Close := None;
  UploadReader := (Some (ex_hash (N.of_nat i)), None);
  ctx_Err := None; parent_Err := None;
|}.

(** An upload cut off by the long-tail cancellation: the transfer fails with
    a transport error while the upload context reports [context.Canceled]. *)
Definition ex_upload_cancelled : UploadEnv := {|
  up_dial_err := None; up_ps_Close := None; up_data_Close := None;
  UploadReader := (None, Some (ClassErr PiecestoreError (ErrorsNew "stream closed" [])));
  ctx_Err := Some Canceled; parent_Err := None;
|}.

(** An upload the node refuses. *)
Definition ex_upload_refused : UploadEnv := {|
  up_dial_err := None; up_ps_Close := None; up_data_Close := None;
  UploadReader := (None, Some (ClassErr PiecestoreError (ErrorsNew "disk full" [])));
  ctx_Err := None; parent_Err := None;
|}.

(** Slot 0 succeeds, slot 1 is refused, slot 2 is nil, slot 3 is cancelled;
    the results arrive in the order 3, 0, 2, 1. *)
Definition ex_mixed_env : RepairEnv := {|
  EncodeReader2_err := None;
  uploads := λ i, match i with
                  | 1%nat => ex_upload_refused
                  | 3%nat => ex_upload_cancelled
                  | _ => ex_upload_ok i
                  end;
  arrival := [3; 0; 2; 1]%nat;
  ctx_Done := false;
|}.

Definition ex_mixed_limits : list (option AddressedOrderLimit) :=
  [Some (ex_addressed 5 10); Some (ex_addressed 6 11); None; Some (ex_addressed 8 13)].

(** Every upload is cancelled or refused. *)
Definition ex_failing_env : RepairEnv := {|
  EncodeReader2_err := None;
  uploads := λ i, match i with
                  | 1%nat => ex_upload_refused
                  | _ => ex_upload_cancelled
                  end;
  arrival := [3; 0; 2; 1]%nat;
  ctx_Done := false;
|}.

Definition ex_repair_env (n : nat) : RepairEnv := {|
  EncodeReader2_err := None;
  uploads := ex_upload_ok;
  arrival := seq 0 n;
  ctx_Done := false;
|}.

(** ** Vocabulary of the statements *)

(** How often an ID occurs in a list of IDs. *)
Definition occurrences (x : NodeID) (l : list NodeID) : nat :=
  length (filter (λ y, y = x) l).

(** Two non-nil slots carry the same node ID, and it is not the zero ID. *)
Definition repeated_nonzero_id (limits : list (option AddressedOrderLimit)) : Prop :=
  ∃ i j a b, (i < j)%nat ∧
    limits !! i = Some (Some a) ∧ limits !! j = Some (Some b) ∧
    StorageNodeId (Limit a) = StorageNodeId (Limit b) ∧
    StorageNodeId (Limit a) ≠ zeroNodeID.

(** Two non-nil slots carry the same node ID. *)
Definition repeated_id (limits : list (option AddressedOrderLimit)) : Prop :=
  ∃ i j a b, (i < j)%nat ∧
    limits !! i = Some (Some a) ∧ limits !! j = Some (Some b) ∧
    StorageNodeId (Limit a) = StorageNodeId (Limit b).

(** The category the receiving loop of [Repair] puts a slot in, read off
    the result of the slot's task. *)
Inductive slot_outcome := SlotNil | SlotSucceeded | SlotFailed | SlotCancelled.

#[global] Instance slot_outcome_eq_dec : EqDecision slot_outcome.
Proof. solve_decision. Defined.

Definition outcome_of (limits : list (option AddressedOrderLimit)) (env : RepairEnv)
    (i : nat) : slot_outcome :=
  match limits !! i with
  | Some (Some _) =>
      match (task_result limits env i).2 with
      | None => SlotSucceeded
      | Some e => if errs2_IsCanceled e then SlotCancelled else SlotFailed
      end
  | _ => SlotNil
  end.

(** The number of slots among [slots] in category [o]. *)
Definition tally (limits : list (option AddressedOrderLimit)) (env : RepairEnv)
    (o : slot_outcome) (slots : list nat) : Z :=
  Z.of_nat (length (filter (λ i, outcome_of limits env i = o) slots)).

(** The node descriptor [Repair] records for slot [i]. *)
Definition slot_node (limits : list (option AddressedOrderLimit)) (i : nat) : option Node :=
  match limits !! i with
  | Some (Some limit) =>
      Some {| Id := StorageNodeId (Limit limit); Node_Address := StorageNodeAddress limit |}
  | _ => None
  end.

(** The number of workers at [p]. *)
Definition count_pc (p : pc) (ws : list pc) : Z :=
  Z.of_nat (length (filter (λ q, q = p) ws)).

(** The number of workers that hold a slot of the limiter. *)
Definition slots_held (ws : list pc) : Z :=
  Z.of_nat (length (filter (λ p, holds_slot p = true) ws)).

(** The record [Get] appends to [failedPieces] for slot [i]. *)
Definition failed_record (i : nat) (limit : AddressedOrderLimit) : RemotePiece :=
  {| PieceNum := int32 (Z.of_nat i); NodeId := StorageNodeId (Limit limit) |}.

Section GetVocabulary.
Context `{Sg : Signing} `{Cd : Codec}.
Variable ec : ECRepairer.
Variable transport : AddressedOrderLimit → string → DownloadEnv.
Variable limits : list (option AddressedOrderLimit).
Variable cachedIPsAndPorts : gmap NodeID string.
Variable es : ErasureScheme.
Variable dataSize : Z.

(** The error the download of a worker ends with, nil on success. *)
Definition fetch_err (limit : AddressedOrderLimit) : option error :=
  (fetch ec transport cachedIPsAndPorts es dataSize limit).1.2.

(** Slot [i] is non-nil and the download of its worker returns no error. *)
Definition supplies_piece (i : nat) : bool :=
  match limits !! i with
  | Some (Some limit) =>
      match fetch_err limit with
      | None => true
      | Some _ => false
      end
  | _ => false
  end.

(** The number of slots that can supply a verifiable piece. *)
Definition suppliers : nat :=
  length (filter (λ i, supplies_piece i = true) (seq 0 (length limits))).

(** The address a worker dials first: the cached one when there is one that
    differs from the node's own, the node's own otherwise. *)
Definition first_address (limit : AddressedOrderLimit) : string :=
  let lastIPPort := default "" (cachedIPsAndPorts !! StorageNodeId (Limit limit)) in
  let nodeAddress := Address (StorageNodeAddress limit) in
  if negb (bool_decide (lastIPPort = "")) && negb (bool_decide (lastIPPort = nodeAddress))
  then lastIPPort else nodeAddress.

(** The address whose download the worker keeps: the node's own address
    after a retry, the first address otherwise. *)
Definition served_address (limit : AddressedOrderLimit) : string :=
  let lastIPPort := default "" (cachedIPsAndPorts !! StorageNodeId (Limit limit)) in
  let nodeAddress := Address (StorageNodeAddress limit) in
  let triedLastIPPort :=
    negb (bool_decide (lastIPPort = "")) && negb (bool_decide (lastIPPort = nodeAddress)) in
  let address := if triedLastIPPort then lastIPPort else nodeAddress in
  if triedLastIPPort &&
     Class_Has PiecestoreError
       (downloadAndVerifyPiece ec transport limit address (Get_pieceSize es dataSize)).2
  then nodeAddress else address.

(** The download of [limit] at [address] delivers a piece of the right size
    with a signed hash and an echoed limit. *)
Definition delivered (limit : AddressedOrderLimit) (address : string)
    (hash : PieceHash) (originalLimit : OrderLimit) : Prop :=
  let env := transport limit address in
  dial_err env = None ∧ Download_err env = None ∧ read_err env = None ∧
  (inmemory ec = false → tmpfile_New_err env = None ∧ Seek_err env = None) ∧
  Z.of_nat (length (pieceBytes env)) = Get_pieceSize es dataSize ∧
  sent_hash env = Some hash ∧ sent_limit env = Some originalLimit.

(** The delivered piece fails [verifyPieceHash] under a limit the satellite signed. *)
Definition piece_hash_rejected (limit : AddressedOrderLimit) (address : string) : Prop :=
  ∃ hash originalLimit,
    delivered limit address hash originalLimit ∧
    verifyOrderLimitSignature (satelliteSignee ec) originalLimit = None ∧
    verifyPieceHash (Some originalLimit) (Some hash)
                    (pkcrypto_Sum (pieceBytes (transport limit address))) ≠ None.

(** The echoed limit of the delivered piece fails the satellite-signature check. *)
Definition order_limit_rejected (limit : AddressedOrderLimit) (address : string) : Prop :=
  ∃ hash originalLimit,
    delivered limit address hash originalLimit ∧
    VerifyOrderLimitSignature (satelliteSignee ec) originalLimit ≠ None.

(** What holds in every state an execution of [Get] reaches. *)
Record Get_inv (s : GetState) : Prop := {
  inv_next : (next s ≤ length limits)%nat;
  inv_length : length (workers s) = length limits;
  inv_idle : ∀ i, (next s ≤ i)%nat → (i < length limits)%nat → workers s !! i = Some Idle;
  inv_inProgress : inProgress s = count_pc Fetching (workers s);
  inv_successful : successfulPieces s = Z.of_nat (size (pieceReaders s));
  inv_bound : 0 ≤ inProgress s ∧ successfulPieces s + inProgress s ≤ RequiredCount es;
  inv_running : running s ≤ RequiredCount es;
  inv_readers : ∀ i, is_Some (pieceReaders s !! i) ↔
      ∃ limit, limits !! i = Some (Some limit) ∧ workers s !! i = Some Finished ∧
               fetch_err limit = None;
  inv_errlist : ∀ i limit e,
      workers s !! i = Some Finished → limits !! i = Some (Some limit) →
      fetch_err limit = Some e →
      NodeErrorf (StorageNodeId (Limit limit)) e ∈ errlist s ∧
      (Class_Has ErrPieceHashVerifyFailed (Some e) = true →
       failed_record i limit ∈ failedPieces s);
  inv_failed : ∀ rp, rp ∈ failedPieces s →
      ∃ i limit, limits !! i = Some (Some limit) ∧ workers s !! i = Some Finished ∧
                 Class_Has ErrPieceHashVerifyFailed (fetch_err limit) = true ∧
                 rp = failed_record i limit;
}.

End GetVocabulary.

(** The bytes a piece reader yields. *)
Definition ReadCloser_content (r : ReadCloser) : bytes :=
  match r with InMemory b | TempFile b => b end.

(** Workers that have claimed a download. *)
Definition claimed (p : pc) : bool :=
  match p with Fetching | Finished => true | _ => false end.

Definition count_claimed (ws : list pc) : Z :=
  Z.of_nat (length (filter (λ p, claimed p = true) ws)).

(** The number of pieces [Get] can still hope for: those it has, those in
    flight and the limits it has not tried (the left side of the test of
    line 108). *)
Definition reachable_pieces (s : GetState) : Z :=
  successfulPieces s + inProgress s + unusedLimits s.

(** The bookkeeping of limits along an execution of [Get]: [unusedLimits]
    counts the non-nil limits no worker has claimed; workers exist for
    non-nil slots only; the range loop leaves no worker of a non-nil slot
    behind; a worker abstained only with [k] pieces collected or [k] out
    of reach; a worker was refused only with the context done. *)
Record Get_acct (limits : list (option AddressedOrderLimit)) (es : ErasureScheme)
    (s : GetState) : Prop := {
  acct_unused : unusedLimits s + count_claimed (workers s) = nonNilCount limits;
  acct_slots : ∀ i p, workers s !! i = Some p → p ≠ Idle →
                      ∃ limit, limits !! i = Some (Some limit);
  acct_dispatched : ∀ i limit, (i < next s)%nat → limits !! i = Some (Some limit) →
                               workers s !! i ≠ Some Idle;
  acct_abstained : ∀ i, workers s !! i = Some Abstained →
                        RequiredCount es ≤ successfulPieces s ∨
                        reachable_pieces s < RequiredCount es;
  acct_refused : ∀ i, workers s !! i = Some Refused → ctxDone s = true;
}.


(** The mixed uploads, under a caller's context that is done at the end. *)
Definition ex_done_env : RepairEnv := {|
  EncodeReader2_err := None;
  uploads := uploads ex_mixed_env;
  arrival := arrival ex_mixed_env;
  ctx_Done := true;
|}.

(** The dial [putPiece] makes for a slot. *)
Definition slot_dial (limit : option AddressedOrderLimit) : option event :=
  match limit with
  | Some al => Some (EvDial (StorageNodeId (Limit al)) (Address (StorageNodeAddress al)))
  | None => None
  end.

(** Uploads that the node accepts while the client then fails to close. *)
Definition ex_close_fails_env : RepairEnv := {|
  EncodeReader2_err := None;
  uploads := λ i, {| up_dial_err := None;
                     up_ps_Close := Some (ErrorsNew "connection reset" []);
                     up_data_Close := None;
                     UploadReader := (Some (ex_hash (N.of_nat i)), None);
                     ctx_Err := None; parent_Err := None |};
  arrival := [3; 0; 2; 1]%nat;
  ctx_Done := false;
|}.

(** The errors of the transport and of the local files come from other
    packages: none of them carries the class [ErrPieceHashVerifyFailed],
    which the repairer declares for its own use. *)
Definition transport_errors_foreign (env : DownloadEnv) : Prop :=
  Class_Has ErrPieceHashVerifyFailed (dial_err env) = false ∧
  Class_Has ErrPieceHashVerifyFailed (Download_err env) = false ∧
  Class_Has ErrPieceHashVerifyFailed (tmpfile_New_err env) = false ∧
  Class_Has ErrPieceHashVerifyFailed (read_err env) = false ∧
  Class_Has ErrPieceHashVerifyFailed (Seek_err env) = false ∧
  Class_Has ErrPieceHashVerifyFailed (downloader_Close env) = false ∧
  Class_Has ErrPieceHashVerifyFailed (ps_Close env) = false.

(* ===================================================================== *)
(** * Properties *)
(* ===================================================================== *)

(** ** Machine integers *)

Lemma int32_small (x : Z) : - 2 ^ 31 ≤ x < 2 ^ 31 → int32 x = x.
Proof.
  intros Hx. unfold int32.
  rewrite Z.mod_small; lia.
Qed.

Lemma int32_range (x : Z) : - 2 ^ 31 ≤ int32 x < 2 ^ 31.
Proof.
  unfold int32.
  pose proof (Z.mod_pos_bound (x + 2 ^ 31) (2 ^ 32) ltac:(lia)). lia.
Qed.

(** ** Piece verifier *)

Section VerifierProperties.
Context `{Sg : Signing}.

Lemma verifyPieceHash_nil_limit hash expected :
  verifyPieceHash None hash expected
  = Some (Class_New RepairerError "invalid arguments" []).
Proof. reflexivity. Qed.

Lemma verifyPieceHash_nil_hash limit expected :
  verifyPieceHash limit None expected
  = Some (Class_New RepairerError "invalid arguments" []).
Proof. by destruct limit. Qed.

Lemma verifyPieceHash_accepts limit hash expected :
  verifyPieceHash limit hash expected = None ↔
  ∃ l h, limit = Some l ∧ hash = Some h ∧ expected ≠ [] ∧
         PieceId l = Hash_PieceId h ∧ Hash h = expected ∧
         VerifyUplinkPieceHashSignature (UplinkPublicKey l) h = None.
Proof.
  split.
  - destruct limit as [l|], hash as [h|]; simpl; try discriminate.
    unfold bytes_Equal. repeat case_bool_decide; simpl; try discriminate.
    destruct (VerifyUplinkPieceHashSignature _ _) eqn:Hsig; [discriminate|].
    intros _. exists l, h. repeat split; auto.
    intros ->. simpl in *. lia.
  - intros (l & h & -> & -> & Hne & Hid & Hh & Hsig). simpl.
    unfold bytes_Equal. rewrite Hsig.
    repeat case_bool_decide; simpl; try done.
    destruct expected; [done | simpl in *; lia].
Qed.

End VerifierProperties.

(** C5 (amended).  [verifyPieceHash] is a function of the order limit, the
    signed hash and the computed hash bytes alone.  It accepts exactly when
    both pointers are non-nil, the computed hash is non-empty, the piece IDs
    agree, the signed hash bytes equal the computed ones and the hash
    signature validates against the uplink public key of the limit; it
    reports the first of these conditions that is violated.  The signature
    of the order limit is not among them: [verifyOrderLimitSignature] checks
    it, separately. *)
Theorem verifyPieceHash_decides `{Sg : Signing}
    (limit : option OrderLimit) (hash : option PieceHash) (expected : bytes) :
  (verifyPieceHash limit hash expected = None ↔
     ∃ l h, limit = Some l ∧ hash = Some h ∧ expected ≠ [] ∧
            PieceId l = Hash_PieceId h ∧ Hash h = expected ∧
            VerifyUplinkPieceHashSignature (UplinkPublicKey l) h = None) ∧
  (limit = None ∨ hash = None ∨ expected = [] →
     verifyPieceHash limit hash expected
     = Some (Class_New RepairerError "invalid arguments" [])) ∧
  (∀ l h, limit = Some l → hash = Some h → expected ≠ [] →
     PieceId l ≠ Hash_PieceId h →
     verifyPieceHash limit hash expected
     = Some (Class_New RepairerError "piece id changed" [])) ∧
  (∀ l h, limit = Some l → hash = Some h → expected ≠ [] →
     PieceId l = Hash_PieceId h → Hash h ≠ expected →
     verifyPieceHash limit hash expected
     = Some (Class_New RepairerError
               "hash from storage node, %x, does not match calculated hash, %x"
               (Hash h ++ expected))) ∧
  (∀ l h, limit = Some l → hash = Some h → expected ≠ [] →
     PieceId l = Hash_PieceId h → Hash h = expected →
     VerifyUplinkPieceHashSignature (UplinkPublicKey l) h ≠ None →
     verifyPieceHash limit hash expected
     = Some (Class_New RepairerError "invalid piece hash signature" [])).
Proof.
  split; [apply verifyPieceHash_accepts|].
  assert (Hlen : expected ≠ [] → bool_decide (length expected = 0%nat) = false).
  { intros Hne. apply bool_decide_eq_false. by destruct expected. }
  repeat split.
  - intros [-> | [-> | ->]].
    + apply verifyPieceHash_nil_limit.
    + apply verifyPieceHash_nil_hash.
    + by destruct limit, hash.
  - intros l h -> -> Hne Hid. simpl. rewrite Hlen by done.
    by rewrite bool_decide_eq_false_2.
  - intros l h -> -> Hne Hid Hh. simpl. rewrite Hlen by done.
    rewrite bool_decide_eq_true_2 by done. simpl.
    unfold bytes_Equal. by rewrite bool_decide_eq_false_2.
  - intros l h -> -> Hne Hid Hh Hsig. simpl. rewrite Hlen by done.
    rewrite bool_decide_eq_true_2 by done. simpl.
    unfold bytes_Equal. rewrite bool_decide_eq_true_2 by done. simpl.
    by destruct (VerifyUplinkPieceHashSignature _ _).
Qed.

(** The piece of node 5 is rejected for its piece ID when the node signs a
    hash for piece 12 under a limit for piece 11. *)
Lemma verifyPieceHash_decides_witness :
  @verifyPieceHash example_Signing (Some (ex_limit 5 11)) (Some (ex_hash 12))
                   (@pkcrypto_Sum example_Signing ex_piece)
  = Some (Class_New RepairerError "piece id changed" []).
Proof.
  apply (proj1 (proj2 (proj2
    (@verifyPieceHash_decides example_Signing (Some (ex_limit 5 11)) (Some (ex_hash 12))
       (@pkcrypto_Sum example_Signing ex_piece)))) (ex_limit 5 11) (ex_hash 12));
    [reflexivity | reflexivity | discriminate | vm_compute; discriminate].
Defined.

(** C5 as stated fails: a limit whose satellite signature is invalid passes
    [verifyPieceHash] when the four conditions on the hash hold. *)
Lemma verifyPieceHash_order_limit_signature_not_checked :
  @VerifyOrderLimitSignature example_Signing ex_satellite (ex_forged_limit 5 11) ≠ None ∧
  @verifyPieceHash example_Signing (Some (ex_forged_limit 5 11)) (Some (ex_hash 11))
                   (@pkcrypto_Sum example_Signing ex_piece) = None.
Proof. split; [vm_compute; discriminate | reflexivity]. Qed.

(** ** The duplicate check *)

Lemma occurrences_nil (x : NodeID) : occurrences x [] = 0%nat.
Proof. reflexivity. Qed.

Lemma occurrences_cons (x y : NodeID) (l : list NodeID) :
  occurrences x (y :: l) = ((if decide (y = x) then 1 else 0) + occurrences x l)%nat.
Proof.
  unfold occurrences. rewrite filter_cons. by destruct (decide (y = x)).
Qed.

Lemma occurrences_Permutation (x : NodeID) (l l' : list NodeID) :
  l ≡ₚ l' → occurrences x l = occurrences x l'.
Proof. intros Hp. unfold occurrences. by rewrite Hp. Qed.

Lemma occurrences_pos (x : NodeID) (l : list NodeID) :
  (1 ≤ occurrences x l)%nat ↔ x ∈ l.
Proof.
  induction l as [|y l IH].
  - rewrite occurrences_nil, elem_of_nil. lia.
  - rewrite occurrences_cons, elem_of_cons.
    destruct (decide (y = x)) as [->|Hne].
    + split; [by left | lia].
    + simpl. rewrite IH. split; [by right | by intros [?|?]].
Qed.

Lemma occurrences_lookup (x : NodeID) (l : list NodeID) :
  (2 ≤ occurrences x l)%nat ↔
  ∃ i j, (i < j)%nat ∧ l !! i = Some x ∧ l !! j = Some x.
Proof.
  induction l as [|y l IH].
  - rewrite occurrences_nil. split; [lia|]. by intros (i & j & _ & ? & _).
  - rewrite occurrences_cons. split.
    + intros Hocc. destruct (decide (y = x)) as [->|Hne].
      * assert (Hin : x ∈ l) by (apply occurrences_pos; lia).
        apply list_elem_of_lookup in Hin as [j Hj].
        exists 0%nat, (S j). split; [lia|]. by split.
      * destruct (proj1 IH ltac:(lia)) as (i & j & Hlt & Hi & Hj).
        exists (S i), (S j). split; [lia|]. by split.
    + intros (i & j & Hlt & Hi & Hj).
      destruct i as [|i]; simpl in *.
      * destruct j as [|j]; [lia|]. simplify_eq/=.
        rewrite decide_True by done.
        assert (1 ≤ occurrences x l)%nat; [|lia].
        apply occurrences_pos, list_elem_of_lookup. eauto.
      * destruct j as [|j]; [lia|]. simpl in *.
        assert (2 ≤ occurrences x l)%nat; [|lia].
        apply IH. exists i, j. split; [lia|]. by split.
Qed.

Lemma identical_neighbours_free_cons (a b : NodeID) (rest : list NodeID) :
  identical_neighbours_free (a :: b :: rest)
  = if bool_decide (b ≠ zeroNodeID) && bool_decide (b = a) then false
    else identical_neighbours_free (b :: rest).
Proof. reflexivity. Qed.

Lemma identical_neighbours_sorted (l : list NodeID) :
  StronglySorted N.le l →
  identical_neighbours_free l = false ↔
  ∃ x, x ≠ zeroNodeID ∧ (2 ≤ occurrences x l)%nat.
Proof.
  induction 1 as [|a l Hs IH Hall].
  - simpl. split; [done|]. intros (x & _ & Hx). rewrite occurrences_nil in Hx. lia.
  - destruct l as [|b rest].
    + simpl. split; [done|]. intros (x & _ & Hx).
      rewrite occurrences_cons, occurrences_nil in Hx.
      case_decide; lia.
    + rewrite identical_neighbours_free_cons.
      destruct (_ && _) eqn:Hchk.
      * apply andb_true_iff in Hchk as [Hnz Heq].
        apply bool_decide_eq_true in Hnz, Heq. subst b.
        split; [|done]. intros _. exists a. split; [done|].
        rewrite !occurrences_cons, !decide_True by done. lia.
      * rewrite IH. split.
        -- intros (x & Hx & Hocc). exists x. split; [done|].
           rewrite occurrences_cons. lia.
        -- intros (x & Hx & Hocc). exists x. split; [done|].
           rewrite occurrences_cons in Hocc.
           case_decide as Hax; [subst a | lia].
           exfalso.
           assert (Hin : x ∈ b :: rest) by (apply occurrences_pos; lia).
           assert (Hbx : b = x).
           { rewrite Forall_forall in Hall.
             pose proof (Hall b ltac:(left)) as Hab.
             apply elem_of_cons in Hin as [->|Hin]; [done|].
             apply StronglySorted_inv in Hs as [_ Hb].
             rewrite Forall_forall in Hb. pose proof (Hb x Hin). lia. }
           subst b. apply andb_false_iff in Hchk as [Hc|Hc];
             apply bool_decide_eq_false in Hc; by apply Hc.
Qed.

(** Any sorting algorithm yields the slice [sort_Sort] yields. *)
Lemma sort_Sort_any (ids sorted : list NodeID) :
  Sorted N.le sorted → sorted ≡ₚ ids → sorted = sort_Sort ids.
Proof.
  intros Hs Hp. apply (Sorted_unique N.le); [done | apply Sorted_merge_sort; apply _ |].
  unfold sort_Sort. by rewrite merge_sort_Permutation.
Qed.

Lemma limit_ids_lookup (limits : list (option AddressedOrderLimit)) (i : nat) (x : NodeID) :
  x ≠ zeroNodeID →
  limit_ids limits !! i = Some x ↔
  ∃ a, limits !! i = Some (Some a) ∧ StorageNodeId (Limit a) = x.
Proof.
  intros Hx. unfold limit_ids. rewrite list_lookup_fmap.
  destruct (limits !! i) as [[a|]|]; simpl.
  - split; [intros [= <-]; eauto | by intros (? & [= <-] & <-)].
  - split; [intros [= <-]; done | by intros (? & ? & _)].
  - split; [done | by intros (? & ? & _)].
Qed.

Lemma unique_false_iff (limits : list (option AddressedOrderLimit)) :
  unique limits = false ↔ repeated_nonzero_id limits.
Proof.
  unfold unique. case_bool_decide as Hlen.
  - split; [done|]. intros (i & j & a & b & Hlt & Hi & Hj & _).
    apply lookup_lt_Some in Hj. lia.
  - rewrite identical_neighbours_sorted by (apply StronglySorted_merge_sort; apply _).
    split.
    + intros (x & Hx & Hocc).
      rewrite (occurrences_Permutation x _ (limit_ids limits)) in Hocc
        by apply merge_sort_Permutation.
      apply occurrences_lookup in Hocc as (i & j & Hlt & Hi & Hj).
      apply limit_ids_lookup in Hi as (a & Ha & Hida); [|done].
      apply limit_ids_lookup in Hj as (b & Hb & Hidb); [|done].
      exists i, j, a, b. repeat split; try done; congruence.
    + intros (i & j & a & b & Hlt & Hi & Hj & Heq & Hnz).
      exists (StorageNodeId (Limit a)). split; [done|].
      rewrite (occurrences_Permutation _ _ (limit_ids limits))
        by apply merge_sort_Permutation.
      apply occurrences_lookup. exists i, j. split; [done|].
      split; apply limit_ids_lookup; eauto.
Qed.

Lemma unique_true_iff (limits : list (option AddressedOrderLimit)) :
  unique limits = true ↔ ¬ repeated_nonzero_id limits.
Proof.
  rewrite <- unique_false_iff. destruct (unique limits); split; try done;
    intros H; by destruct H.
Qed.

(** With the right number of slots, [Repair] returns before the encoder
    starts exactly when [unique] fails. *)
Lemma Repair_events_nil (limits : list (option AddressedOrderLimit))
    (rs : ErasureScheme) (successfulNeeded : Z) (env : RepairEnv) :
  Z.of_nat (length limits) = TotalCount rs →
  rep_events (Repair limits rs successfulNeeded env) = [] ↔ unique limits = false.
Proof.
  intros Hlen. unfold Repair.
  rewrite bool_decide_eq_false_2 by (intros ?; done).
  destruct (unique limits); simpl.
  - destruct (EncodeReader2_err env); [done|].
    by case_bool_decide.
  - done.
Qed.

(** C10.  The duplicate check ignores the zero ID: [unique] answers true
    exactly when no non-zero ID is carried by two non-nil slots, so any
    number of nil slots (which hold the zero ID in the sorted list) and any
    repetition of the zero ID pass; and [Repair], given the right number
    of slots, returns before encoding exactly when a non-zero ID is
    repeated. *)
Theorem unique_ignores_zero_id (limits : list (option AddressedOrderLimit))
    (rs : ErasureScheme) (successfulNeeded : Z) (env : RepairEnv) :
  (unique limits = true ↔ ¬ repeated_nonzero_id limits) ∧
  (Z.of_nat (length limits) = TotalCount rs →
     Repair limits rs successfulNeeded env
     = {| rep_successfulNodes := None; rep_successfulHashes := None;
          rep_err := Some (Class_New RepairerError "duplicated nodes are not allowed" []);
          rep_events := []; rep_state := None |}
     ↔ repeated_nonzero_id limits).
Proof.
  split; [apply unique_true_iff|].
  intros Hlen. rewrite <- unique_false_iff. split.
  - intros HR. apply (Repair_events_nil limits rs successfulNeeded env Hlen).
    by rewrite HR.
  - intros Hu. unfold Repair.
    rewrite bool_decide_eq_false_2 by (intros ?; done).
    by rewrite Hu.
Qed.

(** Three nil slots and two non-nil slots that both carry the zero ID pass
    the check; [Repair] goes on to encode and to dial. *)
Lemma unique_ignores_zero_id_witness :
  let limits := [None; None; Some (ex_addressed 0 11); None; Some (ex_addressed 0 12)] in
  let rs := {| RequiredCount := 2; TotalCount := 5; ErasureShareSize := 256;
               OptimalThreshold := 3 |} in
  unique limits = true ∧
  Repair limits rs 2 (ex_repair_env 5)
  ≠ {| rep_successfulNodes := None; rep_successfulHashes := None;
       rep_err := Some (Class_New RepairerError "duplicated nodes are not allowed" []);
       rep_events := []; rep_state := None |}.
Proof.
  intros limits rs.
  assert (Hu : unique limits = true) by reflexivity.
  split; [exact Hu|].
  intros HR.
  apply (proj2 (unique_ignores_zero_id limits rs 2 (ex_repair_env 5))) in HR;
    [|reflexivity].
  apply (proj1 (unique_ignores_zero_id limits rs 2 (ex_repair_env 5))) in Hu.
  exact (Hu HR).
Defined.

(** ** Configuration errors *)

(** C7 (amended).  [Get] returns an error at once, having dialled no node,
    whatever the schedule, when the number of limits differs from the total
    count or fewer than [k] limits are non-nil; [Repair] returns an error at
    once, having neither started the encoder nor dialled a node, when the
    number of limits differs from the total count or two non-nil slots carry
    the same non-zero node ID. *)
Theorem configuration_errors_before_network `{Sg : Signing} `{Cd : Codec}
    (ec : ECRepairer) (transport : AddressedOrderLimit → string → DownloadEnv)
    (limits : list (option AddressedOrderLimit)) (cached : gmap NodeID string)
    (es : ErasureScheme) (dataSize successfulNeeded : Z) (env : RepairEnv) :
  (Z.of_nat (length limits) ≠ TotalCount es ∨ nonNilCount limits < RequiredCount es →
   ∀ schedule, ∃ e,
     Get ec transport limits cached es dataSize schedule
     = Some {| get_stream := None; get_failedPieces := [];
               get_err := Some e; get_dials := [] |}) ∧
  (Z.of_nat (length limits) ≠ TotalCount es ∨ repeated_nonzero_id limits →
   ∃ e,
     Repair limits es successfulNeeded env
     = {| rep_successfulNodes := None; rep_successfulHashes := None;
          rep_err := Some e; rep_events := []; rep_state := None |}).
Proof.
  split.
  - intros Hcfg schedule. unfold Get.
    case_bool_decide as Hlen; [eauto|].
    case_bool_decide as Hnn; [eauto|].
    destruct Hcfg as [?|?]; [done | lia].
  - intros Hcfg. unfold Repair.
    case_bool_decide as Hlen; [eauto|].
    destruct Hcfg as [?|Hrep]; [done|].
    apply unique_false_iff in Hrep. rewrite Hrep. simpl. eauto.
Qed.

(** One limit for a scheme of four pieces; two slots for node 5. *)
Lemma configuration_errors_before_network_witness :
  (∃ e, @Get example_Signing example_Codec ex_ec ex_transport
          [Some (ex_addressed 5 11)] ∅ ex_es ex_dataSize [Range; Loop 0; Fetched 0]
        = Some {| get_stream := None; get_failedPieces := [];
                  get_err := Some e; get_dials := [] |}) ∧
  (∃ e, Repair [Some (ex_addressed 5 11); None; None; Some (ex_addressed 5 12)]
               ex_es 3 (ex_repair_env 4)
        = {| rep_successfulNodes := None; rep_successfulHashes := None;
             rep_err := Some e; rep_events := []; rep_state := None |}).
Proof.
  split.
  - apply (proj1 (@configuration_errors_before_network example_Signing example_Codec
             ex_ec ex_transport [Some (ex_addressed 5 11)] ∅ ex_es ex_dataSize 3
             (ex_repair_env 4))).
    left. vm_compute. discriminate.
  - apply (proj2 (@configuration_errors_before_network example_Signing example_Codec
             ex_ec ex_transport
             [Some (ex_addressed 5 11); None; None; Some (ex_addressed 5 12)]
             ∅ ex_es ex_dataSize 3 (ex_repair_env 4))).
    right. exists 0%nat, 3%nat, (ex_addressed 5 11), (ex_addressed 5 12).
    repeat split; [lia | vm_compute; discriminate].
Defined.

(** C7 as stated fails for [Repair]: two non-nil slots that carry the same
    node ID, the zero ID, are not rejected; the encoder starts and both
    nodes are dialled. *)
Lemma Repair_repeated_zero_id_not_rejected :
  let limits := [Some (ex_addressed 0 11); Some (ex_addressed 0 12)] in
  let rs := {| RequiredCount := 1; TotalCount := 2; ErasureShareSize := 256;
               OptimalThreshold := 2 |} in
  repeated_id limits ∧
  Z.of_nat (length limits) = TotalCount rs ∧
  rep_err (Repair limits rs 2 (ex_repair_env 2)) = None ∧
  rep_events (Repair limits rs 2 (ex_repair_env 2))
  = [EvEncode; EvDial 0 "10.0.0.1:7777"; EvDial 0 "10.0.0.1:7777"].
Proof.
  intros limits rs. split; [|by vm_compute].
  exists 0%nat, 1%nat, (ex_addressed 0 11), (ex_addressed 0 12).
  repeat split. lia.
Qed.

(** ** The receiving loop of [Repair] *)

Lemma int32_succ (x : Z) : int32 (int32 x + 1) = int32 (x + 1).
Proof.
  unfold int32.
  replace ((x + 2 ^ 31) mod 2 ^ 32 - 2 ^ 31 + 1 + 2 ^ 31)
    with ((x + 2 ^ 31) mod 2 ^ 32 + 1) by lia.
  rewrite Zplus_mod_idemp_l. f_equal. f_equal. lia.
Qed.

Lemma int32_zero_iff (x : Z) : 0 ≤ x < 2 ^ 31 → int32 x = 0 ↔ x = 0.
Proof. intros Hx. rewrite int32_small by lia. done. Qed.

Section RepairLoop.
Variable limits : list (option AddressedOrderLimit).
Variable successfulNeeded : Z.
Variable env : RepairEnv.

Local Abbreviation recv := (receive limits successfulNeeded env).
Local Abbreviation outc := (outcome_of limits env).
Local Abbreviation tal := (tally limits env).

Lemma tally_nil o : tal o [] = 0.
Proof. reflexivity. Qed.

Lemma tally_snoc o arr i :
  tal o (arr ++ [i]) = tal o arr + (if decide (outc i = o) then 1 else 0).
Proof.
  unfold tally. rewrite filter_app, length_app, filter_cons, filter_nil.
  destruct (decide (outc i = o)); simpl; lia.
Qed.

Lemma tally_Permutation o arr arr' : arr ≡ₚ arr' → tal o arr = tal o arr'.
Proof. intros Hp. unfold tally. by rewrite Hp. Qed.

Lemma tally_nonneg o arr : 0 ≤ tal o arr.
Proof. unfold tally. lia. Qed.

Lemma tally_le_length o arr : tal o arr ≤ Z.of_nat (length arr).
Proof. unfold tally. pose proof (length_filter (λ i, outc i = o) arr). lia. Qed.

(** What one received result changes. *)
Lemma receive_spec st i :
  successfulCount (recv st i)
  = (if decide (outc i = SlotSucceeded) then int32 (successfulCount st + 1)
     else successfulCount st) ∧
  failureCount (recv st i)
  = (if decide (outc i = SlotFailed) then int32 (failureCount st + 1)
     else failureCount st) ∧
  cancellationCount (recv st i)
  = (if decide (outc i = SlotCancelled) then int32 (cancellationCount st + 1)
     else cancellationCount st) ∧
  successfulNodes (recv st i)
  = (if decide (outc i = SlotSucceeded) then <[i := slot_node limits i]> (successfulNodes st)
     else successfulNodes st) ∧
  successfulHashes (recv st i)
  = (if decide (outc i = SlotSucceeded)
     then <[i := (task_result limits env i).1]> (successfulHashes st)
     else successfulHashes st).
Proof.
  unfold receive, outcome_of, slot_node.
  destruct (limits !! i) as [[limit|]|]; [|done..].
  destruct (task_result limits env i) as [hash [e|]]; simpl; [|done].
  by destruct (errs2_IsCanceled e).
Qed.

(** The counters after the results of [arr] were received. *)
Lemma Repair_fold_counts arr :
  let st := fold_left recv arr (Repair_init limits) in
  successfulCount st = int32 (tal SlotSucceeded arr) ∧
  failureCount st = int32 (tal SlotFailed arr) ∧
  cancellationCount st = int32 (tal SlotCancelled arr).
Proof.
  induction arr as [|i arr IH] using rev_ind; [done|].
  rewrite fold_left_app. cbn [fold_left].
  destruct IH as (IHs & IHf & IHc).
  set (st := fold_left recv arr (Repair_init limits)) in *.
  destruct (receive_spec st i) as (Hs & Hf & Hc & _).
  cbv zeta. rewrite Hs, Hf, Hc, !tally_snoc, IHs, IHf, IHc.
  repeat case_decide; rewrite ?int32_succ, ?Z.add_0_r; done.
Qed.

Lemma Repair_fold_length arr :
  let st := fold_left recv arr (Repair_init limits) in
  length (successfulNodes st) = length limits ∧
  length (successfulHashes st) = length limits.
Proof.
  induction arr as [|i arr IH] using rev_ind.
  - simpl. by rewrite !length_replicate.
  - rewrite fold_left_app. cbn [fold_left]. destruct IH as [IHn IHh].
    set (st := fold_left recv arr (Repair_init limits)) in *.
    destruct (receive_spec st i) as (_ & _ & _ & Hn & Hh).
    cbv zeta. rewrite Hn, Hh.
    case_decide; by rewrite ?length_insert.
Qed.

(** The two result slices after the results of [arr] were received. *)
Lemma Repair_fold_slots arr i :
  (i < length limits)%nat →
  let st := fold_left recv arr (Repair_init limits) in
  successfulNodes st !! i
  = Some (if decide (i ∈ arr ∧ outc i = SlotSucceeded) then slot_node limits i else None) ∧
  successfulHashes st !! i
  = Some (if decide (i ∈ arr ∧ outc i = SlotSucceeded)
          then (task_result limits env i).1 else None).
Proof.
  intros Hi. induction arr as [|j arr IH] using rev_ind.
  - simpl. by rewrite !lookup_replicate_2 by done.
  - rewrite fold_left_app. cbn [fold_left].
    pose proof (Repair_fold_length arr) as [Hln Hlh]. destruct IH as [IHn IHh].
    set (st := fold_left recv arr (Repair_init limits)) in *.
    destruct (receive_spec st j) as (_ & _ & _ & Hn & Hh).
    cbv zeta in *. rewrite Hn, Hh.
    destruct (decide (j = i)) as [->|Hne].
    + destruct (decide (outc i = SlotSucceeded)) as [Ho|Ho].
      * rewrite !list_lookup_insert_eq by lia.
        rewrite !decide_True; [done | |]; (split; [set_solver | done]).
      * rewrite IHn, IHh.
        rewrite !decide_False; [done | | | |]; by intros [_ ?].
    + assert (Hiff : i ∈ arr ++ [j] ↔ i ∈ arr).
      { rewrite elem_of_app, list_elem_of_singleton.
        split; [intros [?|?]; [done | by destruct Hne] | by left]. }
      assert (successfulNodes st !! i
              = Some (if decide (i ∈ arr ++ [j] ∧ outc i = SlotSucceeded)
                      then slot_node limits i else None) ∧
              successfulHashes st !! i
              = Some (if decide (i ∈ arr ++ [j] ∧ outc i = SlotSucceeded)
                      then (task_result limits env i).1 else None)) as [Hn' Hh'].
      { rewrite IHn, IHh.
        destruct (decide (i ∈ arr ∧ outc i = SlotSucceeded)) as [[Hin Ho]|Hno].
        - by rewrite !decide_True by (split; [by apply Hiff | done]).
        - by rewrite !decide_False
            by (intros [Hin Ho]; apply Hno; split; [by apply Hiff | done]). }
      destruct (decide (outc j = SlotSucceeded)); by rewrite ?list_lookup_insert_ne.
Qed.

End RepairLoop.

(** ** Counting the non-nil slots *)

Lemma nonNilCount_filter (limits : list (option AddressedOrderLimit)) :
  nonNilCount limits = Z.of_nat (length (filter is_Some limits)).
Proof.
  unfold nonNilCount.
  assert (∀ acc, fold_left
            (λ total limit, match limit : option AddressedOrderLimit with
                            | Some _ => total + 1 | None => total end) limits acc
          = acc + Z.of_nat (length (filter is_Some limits))) as ->; [|lia].
  induction limits as [|x limits IH]; intros acc; simpl; [lia|].
  rewrite IH, filter_cons. destruct x; simpl; lia.
Qed.

Lemma non_nil_indices (pre limits : list (option AddressedOrderLimit)) :
  length (filter (λ i, is_Some (default None ((pre ++ limits) !! i)))
                 (seq (length pre) (length limits)))
  = length (filter is_Some limits).
Proof.
  revert pre. induction limits as [|x limits IH]; intros pre; [done|].
  simpl. rewrite !filter_cons, list_lookup_middle by done. simpl.
  specialize (IH (pre ++ [x])). rewrite <- app_assoc, length_app in IH. simpl in IH.
  replace (length pre + 1)%nat with (S (length pre)) in IH by lia.
  destruct (decide (is_Some x)); simpl; by rewrite IH.
Qed.

Lemma tally_sum (limits : list (option AddressedOrderLimit)) (env : RepairEnv)
    (slots : list nat) :
  tally limits env SlotSucceeded slots + tally limits env SlotFailed slots
  + tally limits env SlotCancelled slots
  = Z.of_nat (length (filter (λ i, is_Some (default None (limits !! i))) slots)).
Proof.
  induction slots as [|i slots IH]; [done|].
  unfold tally in *. rewrite !filter_cons.
  assert (Hcase :
    (is_Some (default None (limits !! i)) ∧ outcome_of limits env i ≠ SlotNil) ∨
    (¬ is_Some (default None (limits !! i)) ∧ outcome_of limits env i = SlotNil)).
  { unfold outcome_of. destruct (limits !! i) as [[a|]|]; simpl.
    - left. split; [eauto|].
      destruct ((task_result limits env i).2) as [e|]; [|done].
      by destruct (errs2_IsCanceled e).
    - right. split; [by intros [? ?] | done].
    - right. split; [by intros [? ?] | done]. }
  destruct Hcase as [[Hs Ho]|[Hs Ho]].
  - rewrite (decide_True _ _ Hs).
    destruct (outcome_of limits env i); try done;
      repeat case_decide; try done; simpl; lia.
  - rewrite (decide_False _ _ Hs), Ho.
    repeat case_decide; try done; simpl; lia.
Qed.

Lemma tally_total (limits : list (option AddressedOrderLimit)) (env : RepairEnv) :
  tally limits env SlotSucceeded (seq 0 (length limits))
  + tally limits env SlotFailed (seq 0 (length limits))
  + tally limits env SlotCancelled (seq 0 (length limits))
  = nonNilCount limits.
Proof.
  rewrite tally_sum, nonNilCount_filter. f_equal.
  apply (non_nil_indices [] limits).
Qed.

(** ** The upload coordinator *)

(** C8.  After the results of all [n] tasks were received, in whatever
    order: the three counters are the numbers of non-nil slots whose task
    returned without error, with an error that is not a cancellation, and
    with a cancellation (as [int32]; exactly, when [n] fits an [int32]);
    these three numbers add up to the number of non-nil slots, a nil slot
    being in none of them; the task of a nil slot dials no node and the
    entries of the slot in [successfulNodes] and [successfulHashes] are nil;
    and for a non-nil slot [i] the entry
    [successfulNodes[i]] is set, and [successfulHashes[i]] is the returned
    hash, exactly when the upload returned no error. *)
Theorem Repair_slot_accounting (limits : list (option AddressedOrderLimit))
    (successfulNeeded : Z) (env : RepairEnv) :
  arrival env ≡ₚ seq 0 (length limits) →
  let st := Repair_loop limits successfulNeeded env in
  let slots := seq 0 (length limits) in
  successfulCount st = int32 (tally limits env SlotSucceeded slots) ∧
  failureCount st = int32 (tally limits env SlotFailed slots) ∧
  cancellationCount st = int32 (tally limits env SlotCancelled slots) ∧
  tally limits env SlotSucceeded slots + tally limits env SlotFailed slots
    + tally limits env SlotCancelled slots = nonNilCount limits ∧
  (Z.of_nat (length limits) < 2 ^ 31 →
     successfulCount st + failureCount st + cancellationCount st = nonNilCount limits) ∧
  (∀ i, limits !! i = Some None →
     outcome_of limits env i = SlotNil ∧
     (putPiece None (uploads env i)).2 = [] ∧
     successfulNodes st !! i = Some None ∧ successfulHashes st !! i = Some None) ∧
  (∀ i limit, limits !! i = Some (Some limit) →
     outcome_of limits env i ≠ SlotNil ∧
     successfulNodes st !! i
     = Some (match (task_result limits env i).2 with
             | None => Some {| Id := StorageNodeId (Limit limit);
                               Node_Address := StorageNodeAddress limit |}
             | Some _ => None
             end) ∧
     successfulHashes st !! i
     = Some (match (task_result limits env i).2 with
             | None => (task_result limits env i).1
             | Some _ => None
             end)).
Proof.
  intros Hperm st slots.
  destruct (Repair_fold_counts limits successfulNeeded env (arrival env))
    as (Hs & Hf & Hc).
  rewrite (tally_Permutation limits env SlotSucceeded _ _ Hperm) in Hs.
  rewrite (tally_Permutation limits env SlotFailed _ _ Hperm) in Hf.
  rewrite (tally_Permutation limits env SlotCancelled _ _ Hperm) in Hc.
  pose proof (tally_total limits env) as Htot.
  assert (Hin : ∀ i, (i < length limits)%nat → i ∈ arrival env).
  { intros i Hi. rewrite Hperm. apply elem_of_seq. lia. }
  repeat split; try done.
  - intros Hn. unfold st, Repair_loop. rewrite Hs, Hf, Hc.
    pose proof (tally_nonneg limits env SlotSucceeded slots).
    pose proof (tally_nonneg limits env SlotFailed slots).
    pose proof (tally_nonneg limits env SlotCancelled slots).
    pose proof (tally_le_length limits env SlotSucceeded slots) as Hle.
    unfold slots in Hle. rewrite length_seq in Hle.
    pose proof (tally_le_length limits env SlotFailed slots) as Hle'.
    unfold slots in Hle'. rewrite length_seq in Hle'.
    pose proof (tally_le_length limits env SlotCancelled slots) as Hle''.
    unfold slots in Hle''. rewrite length_seq in Hle''.
    unfold slots in *.
    rewrite !int32_small by lia. done.
  - unfold outcome_of. by rewrite H.
  - apply lookup_lt_Some in H as Hi.
    destruct (Repair_fold_slots limits successfulNeeded env (arrival env) i Hi) as [Hn _].
    unfold st, Repair_loop. rewrite Hn.
    rewrite decide_False; [done|]. intros [_ Ho]. unfold outcome_of in Ho.
    by rewrite H in Ho.
  - apply lookup_lt_Some in H as Hi.
    destruct (Repair_fold_slots limits successfulNeeded env (arrival env) i Hi) as [_ Hh].
    unfold st, Repair_loop. rewrite Hh.
    rewrite decide_False; [done|]. intros [_ Ho]. unfold outcome_of in Ho.
    by rewrite H in Ho.
  - unfold outcome_of. rewrite H.
    destruct ((task_result limits env i).2) as [e|]; [|done].
    by destruct (errs2_IsCanceled e).
  - apply lookup_lt_Some in H as Hi.
    destruct (Repair_fold_slots limits successfulNeeded env (arrival env) i Hi) as [Hn _].
    unfold st, Repair_loop. rewrite Hn. f_equal.
    unfold outcome_of, slot_node. rewrite H.
    destruct ((task_result limits env i).2) as [e|].
    + rewrite decide_False; [done|]. intros [_ Ho]. by destruct (errs2_IsCanceled e).
    + rewrite decide_True; [done|]. split; [by apply Hin | done].
  - apply lookup_lt_Some in H as Hi.
    destruct (Repair_fold_slots limits successfulNeeded env (arrival env) i Hi) as [_ Hh].
    unfold st, Repair_loop. rewrite Hh. f_equal.
    unfold outcome_of. rewrite H.
    destruct ((task_result limits env i).2) as [e|].
    + rewrite decide_False; [done|]. intros [_ Ho]. by destruct (errs2_IsCanceled e).
    + rewrite decide_True; [done|]. split; [by apply Hin | done].
Qed.

(** Slot 0 succeeds, slot 1 fails, slot 2 is nil, slot 3 is cancelled. *)
Lemma Repair_slot_accounting_witness :
  let st := Repair_loop ex_mixed_limits 3 ex_mixed_env in
  successfulCount st = 1 ∧ failureCount st = 1 ∧ cancellationCount st = 1 ∧
  successfulNodes st !! 2%nat = Some None ∧
  successfulNodes st !! 1%nat = Some None ∧
  successfulHashes st !! 0%nat = Some (Some (ex_hash 0)).
Proof.
  assert (Hperm : arrival ex_mixed_env ≡ₚ seq 0 (length ex_mixed_limits)).
  { compute_done. }
  pose proof (Repair_slot_accounting ex_mixed_limits 3 ex_mixed_env Hperm)
    as (Hs & Hf & Hc & _ & _ & Hnil & Hnon).
  exact (conj Hs (conj Hf (conj Hc
    (conj (proj1 (proj2 (proj2 (Hnil 2%nat eq_refl))))
    (conj (proj1 (proj2 (Hnon 1%nat _ eq_refl)))
          (proj2 (proj2 (Hnon 0%nat _ eq_refl)))))))).
Defined.

(** C6.  For a call of [Repair] that passes the two configuration checks,
    whose piece count fits an [int32] and whose caller's context is not done
    when it returns: if the encoder fails, no upload runs and its error is
    returned with nil slices; otherwise the returned error is non-nil
    exactly when no upload succeeded, in which case both slices are nil,
    and with at least one success both slices are returned, one entry per
    slot, set exactly at the successful slots, and the error is nil. *)
Theorem Repair_fails_iff_no_success (limits : list (option AddressedOrderLimit))
    (rs : ErasureScheme) (successfulNeeded : Z) (env : RepairEnv) :
  Z.of_nat (length limits) = TotalCount rs →
  unique limits = true →
  TotalCount rs < 2 ^ 31 →
  arrival env ≡ₚ seq 0 (length limits) →
  ctx_Done env = false →
  let r := Repair limits rs successfulNeeded env in
  let successes := tally limits env SlotSucceeded (seq 0 (length limits)) in
  match EncodeReader2_err env with
  | Some e =>
      r = {| rep_successfulNodes := None; rep_successfulHashes := None;
             rep_err := Some e; rep_events := [EvEncode]; rep_state := None |}
  | None =>
      (rep_err r ≠ None ↔ successes = 0) ∧
      (successes = 0 →
         rep_successfulNodes r = None ∧ rep_successfulHashes r = None) ∧
      (successes ≠ 0 →
         rep_err r = None ∧
         ∃ nodes hashes,
           rep_successfulNodes r = Some nodes ∧ rep_successfulHashes r = Some hashes ∧
           length nodes = length limits ∧ length hashes = length limits ∧
           ∀ i, (i < length limits)%nat →
             nodes !! i
             = Some (if decide (outcome_of limits env i = SlotSucceeded)
                     then slot_node limits i else None) ∧
             hashes !! i
             = Some (if decide (outcome_of limits env i = SlotSucceeded)
                     then (task_result limits env i).1 else None))
  end.
Proof.
  intros Hlen Huniq Hn Hperm Hctx r successes.
  unfold r, Repair, Repair_deferred.
  rewrite bool_decide_eq_false_2 by (intros ?; done).
  rewrite Huniq, Hctx. simpl.
  destruct (EncodeReader2_err env) as [e|]; [done|].
  destruct (Repair_fold_counts limits successfulNeeded env (arrival env)) as (Hs & _).
  rewrite (tally_Permutation limits env SlotSucceeded _ _ Hperm) in Hs.
  fold successes in Hs.
  assert (Hrange : 0 ≤ successes < 2 ^ 31).
  { split; [apply tally_nonneg|].
    pose proof (tally_le_length limits env SlotSucceeded (seq 0 (length limits))) as Hle.
    rewrite length_seq in Hle. unfold successes. lia. }
  assert (Hzero : successfulCount (Repair_loop limits successfulNeeded env) = 0
                  ↔ successes = 0).
  { unfold Repair_loop. rewrite Hs. by apply int32_zero_iff. }
  case_bool_decide as Hcount; simpl.
  - apply Hzero in Hcount. repeat split; try done.
  - assert (successes ≠ 0) as Hsucc by (intros ?; by apply Hcount, Hzero).
    split; [split; [by intros [] | done]|].
    split; [done|]. intros _. split; [done|].
    eexists _, _. split; [done|]. split; [done|].
    destruct (Repair_fold_length limits successfulNeeded env (arrival env)) as [Hln Hlh].
    split; [exact Hln|]. split; [exact Hlh|].
    intros i Hi.
    destruct (Repair_fold_slots limits successfulNeeded env (arrival env) i Hi)
      as [Hnodes Hhashes].
    assert (Hin : i ∈ arrival env) by (rewrite Hperm; apply elem_of_seq; lia).
    unfold Repair_loop. rewrite Hnodes, Hhashes.
    destruct (decide (outcome_of limits env i = SlotSucceeded)) as [Ho|Ho].
    + by rewrite !decide_True by done.
    + by rewrite !decide_False by (by intros [_ ?]).
Qed.

(** With one success among three non-nil slots, [Repair] returns the slices
    and no error; when every upload fails or is cancelled, it returns an
    error and nil slices. *)
Lemma Repair_fails_iff_no_success_witness :
  rep_err (Repair ex_mixed_limits ex_es 3 ex_mixed_env) = None ∧
  rep_err (Repair ex_mixed_limits ex_es 3 ex_failing_env) ≠ None ∧
  rep_successfulNodes (Repair ex_mixed_limits ex_es 3 ex_failing_env) = None.
Proof.
  assert (Hperm : [3; 0; 2; 1]%nat ≡ₚ seq 0 (length ex_mixed_limits)) by compute_done.
  pose proof (Repair_fails_iff_no_success ex_mixed_limits ex_es 3 ex_mixed_env
                eq_refl eq_refl eq_refl Hperm eq_refl) as (_ & _ & Hsome).
  pose proof (Repair_fails_iff_no_success ex_mixed_limits ex_es 3 ex_failing_env
                eq_refl eq_refl eq_refl Hperm eq_refl) as (Hiff & Hnone & _).
  split; [|split].
  - apply Hsome. vm_compute. discriminate.
  - apply Hiff. reflexivity.
  - apply Hnone. reflexivity.
Defined.

(** C9.  When the transfer of a dialled upload fails and the upload context
    reports [context.Canceled], the error [putPiece] returns has
    [context.Canceled] as the innermost error of its chain, whatever the
    transfer's own error and whatever the deferred closes add, so
    [errors.Is(err, context.Canceled)] and [errs2.IsCanceled(err)] hold; the
    receiving loop of [Repair] then counts the slot as a cancellation and
    leaves the failure and the success counters and both slices alone. *)
Theorem cancelled_upload_is_cancellation (limits : list (option AddressedOrderLimit))
    (successfulNeeded : Z) (env : RepairEnv) (i : nat) (limit : AddressedOrderLimit)
    (hash : option PieceHash) (e : error) (st : RepairState) :
  limits !! i = Some (Some limit) →
  up_dial_err (uploads env i) = None →
  UploadReader (uploads env i) = (hash, Some e) →
  errors_Is_Canceled (ctx_Err (uploads env i)) = true →
  ∃ err,
    (putPiece (Some limit) (uploads env i)).1 = (hash, Some err) ∧
    errs_Unwrap err = Canceled ∧
    errors_Is_Canceled (Some err) = true ∧
    errs2_IsCanceled err = true ∧
    outcome_of limits env i = SlotCancelled ∧
    receive limits successfulNeeded env st i
    = {| successfulNodes := successfulNodes st;
         successfulHashes := successfulHashes st;
         successfulCount := successfulCount st;
         failureCount := failureCount st;
         cancellationCount := int32 (cancellationCount st + 1);
         cancelCalled := cancelCalled st |}.
Proof.
  intros Hi Hdial Hup Hctx.
  assert (Hput : ∃ err,
    (putPiece (Some limit) (uploads env i)).1 = (hash, Some err) ∧
    errs_Unwrap err = Canceled ∧ errs2_IsCanceled err = true).
  { unfold putPiece. rewrite Hdial, Hup, Hctx. simpl.
    destruct (up_ps_Close (uploads env i)), (up_data_Close (uploads env i));
      simpl; eauto. }
  destruct Hput as (err & Hput & Hprim & Hcan).
  exists err. repeat split; try done.
  - unfold outcome_of, task_result. rewrite Hi.
    change (default None (Some (Some limit))) with (Some limit).
    rewrite Hput. simpl. by rewrite Hcan.
  - unfold receive, task_result. rewrite Hi.
    change (default None (Some (Some limit))) with (Some limit).
    rewrite Hput. by rewrite Hcan.
Qed.

(** Slot 3 of the mixed example is cut off by the cancellation. *)
Lemma cancelled_upload_is_cancellation_witness :
  ∃ err,
    (putPiece (Some (ex_addressed 8 13)) ex_upload_cancelled).1 = (None, Some err) ∧
    errs_Unwrap err = Canceled ∧
    cancellationCount (receive ex_mixed_limits 3 ex_mixed_env
                         (Repair_init ex_mixed_limits) 3) = 1.
Proof.
  destruct (cancelled_upload_is_cancellation ex_mixed_limits 3 ex_mixed_env 3
              (ex_addressed 8 13) None
              (ClassErr PiecestoreError (ErrorsNew "stream closed" []))
              (Repair_init ex_mixed_limits) eq_refl eq_refl eq_refl eq_refl)
    as (err & Hput & Hprim & _ & _ & _ & Hrecv).
  exists err. split; [exact Hput|]. split; [exact Hprim|].
  by rewrite Hrecv.
Defined.

(** ** The download coordinator: counting workers *)

Lemma length_filter_insert {A} (P : A → Prop) `{!∀ x, Decision (P x)}
    (l : list A) (i : nat) (x y : A) :
  l !! i = Some x →
  (length (filter P (<[i := y]> l)) + (if decide (P x) then 1 else 0)
   = length (filter P l) + (if decide (P y) then 1 else 0))%nat.
Proof.
  revert i. induction l as [|a l IH]; intros i Hi; [done|].
  destruct i as [|i]; simpl in *.
  - simplify_eq. rewrite !filter_cons.
    destruct (decide (P x)), (decide (P y)); simpl; lia.
  - rewrite !filter_cons. specialize (IH i Hi).
    destruct (decide (P a)); simpl; lia.
Qed.

Lemma count_pc_insert (p q q' : pc) (ws : list pc) (i : nat) :
  ws !! i = Some q →
  count_pc p (<[i := q']> ws)
  = count_pc p ws - (if decide (q = p) then 1 else 0) + (if decide (q' = p) then 1 else 0).
Proof.
  intros Hi. unfold count_pc.
  pose proof (length_filter_insert (λ r, r = p) ws i q q' Hi) as H.
  destruct (decide (q = p)), (decide (q' = p)); lia.
Qed.

Lemma slots_held_insert (q q' : pc) (ws : list pc) (i : nat) :
  ws !! i = Some q →
  slots_held (<[i := q']> ws)
  = slots_held ws - (if holds_slot q then 1 else 0) + (if holds_slot q' then 1 else 0).
Proof.
  intros Hi. unfold slots_held.
  pose proof (length_filter_insert (λ r, holds_slot r = true) ws i q q' Hi) as H.
  destruct (decide (holds_slot q = true)) as [Hq|Hq],
           (decide (holds_slot q' = true)) as [Hq'|Hq'];
    destruct (holds_slot q), (holds_slot q'); try done; lia.
Qed.

Lemma slots_held_nonneg (ws : list pc) : 0 ≤ slots_held ws.
Proof. unfold slots_held. lia. Qed.

Lemma count_pc_replicate_ne (p q : pc) (n : nat) :
  p ≠ q → count_pc p (replicate n q) = 0.
Proof.
  intros Hne. unfold count_pc. induction n as [|n IH]; [done|].
  simpl. rewrite filter_cons, decide_False by done. exact IH.
Qed.

Lemma slots_held_replicate_Idle (n : nat) : slots_held (replicate n Idle) = 0.
Proof.
  unfold slots_held. induction n as [|n IH]; [done|].
  simpl. rewrite filter_cons, decide_False by done. exact IH.
Qed.

(** Overwriting a worker that is not [Finished] by a state that is not
    [Finished] leaves the finished workers as they are. *)
Lemma lookup_insert_Finished (ws : list pc) (i j : nat) (q q' : pc) :
  ws !! j = Some q → q ≠ Finished → q' ≠ Finished →
  <[j := q']> ws !! i = Some Finished ↔ ws !! i = Some Finished.
Proof.
  intros Hj Hq Hq'. destruct (decide (j = i)) as [->|Hne].
  - rewrite list_lookup_insert_eq by (by apply lookup_lt_Some in Hj).
    rewrite Hj. split; intros [=]; congruence.
  - by rewrite list_lookup_insert_ne.
Qed.

(** ** The download coordinator: the invariant *)

Section GetInvariant.
Context `{Sg : Signing} `{Cd : Codec}.
Variable ec : ECRepairer.
Variable transport : AddressedOrderLimit → string → DownloadEnv.
Variable limits : list (option AddressedOrderLimit).
Variable cachedIPsAndPorts : gmap NodeID string.
Variable es : ErasureScheme.
Variable dataSize : Z.
Hypothesis k_nonneg : 0 ≤ RequiredCount es.

Local Abbreviation Inv := (Get_inv ec transport limits cachedIPsAndPorts es dataSize).
Local Abbreviation ferr := (fetch_err ec transport cachedIPsAndPorts es dataSize).

Lemma Get_inv_init : Inv (Get_init limits).
Proof.
  split; simpl.
  - lia.
  - apply length_replicate.
  - intros i _ Hi. by apply lookup_replicate_2.
  - by rewrite count_pc_replicate_ne.
  - by rewrite map_size_empty.
  - lia.
  - unfold running. simpl. fold (slots_held (replicate (length limits) Idle)).
    rewrite slots_held_replicate_Idle. lia.
  - intros i. rewrite lookup_empty. split; [by intros [? ?]|].
    intros (limit & _ & Hw & _).
    apply lookup_replicate_1 in Hw as [? _]. done.
  - intros i limit e Hw. apply lookup_replicate_1 in Hw as [? _]. done.
  - intros rp Hrp. by apply elem_of_nil in Hrp.
Qed.

(** A step that moves one unfinished worker to an unfinished state and
    touches neither the readers nor the two lists keeps the bookkeeping
    part of the invariant. *)
Lemma Get_inv_move (s s' : GetState) (j : nat) (q q' : pc) :
  Inv s →
  workers s !! j = Some q → q ≠ Finished → q' ≠ Finished →
  workers s' = <[j := q']> (workers s) →
  pieceReaders s' = pieceReaders s →
  failedPieces s' = failedPieces s →
  errlist s' = errlist s →
  successfulPieces s' = successfulPieces s →
  (next s' ≤ length limits)%nat →
  (∀ i, (next s' ≤ i)%nat → (i < length limits)%nat → workers s' !! i = Some Idle) →
  inProgress s' = count_pc Fetching (workers s') →
  0 ≤ inProgress s' ∧ successfulPieces s' + inProgress s' ≤ RequiredCount es →
  running s' ≤ RequiredCount es →
  Inv s'.
Proof.
  intros [] Hj Hq Hq' Hw Hr Hf He Hs Hnext Hidle Hin Hbound Hrun.
  assert (HF : ∀ i, workers s' !! i = Some Finished ↔ workers s !! i = Some Finished).
  { intros i. rewrite Hw. by eapply lookup_insert_Finished. }
  split; try done.
  - rewrite Hw. by rewrite length_insert.
  - by rewrite Hs, Hr.
  - intros i. rewrite Hr, inv_readers0. by setoid_rewrite HF.
  - intros i limit e Hwi. rewrite He, Hf. apply inv_errlist0. by apply HF.
  - intros rp. rewrite Hf. intros Hrp.
    destruct (inv_failed0 rp Hrp) as (i & limit & ? & ? & ? & ?).
    exists i, limit. by rewrite HF.
Qed.

Lemma Get_inv_range (s s' : GetState) :
  Inv s → range_step limits es s = Some s' → Inv s'.
Proof.
  intros HI Hstep. unfold range_step in Hstep.
  destruct (limits !! next s) as [[limit|]|] eqn:Hl; [| |done].
  - apply lookup_lt_Some in Hl as Hlt.
    pose proof (inv_idle _ _ _ _ _ _ _ HI (next s) ltac:(lia) Hlt) as Hidle.
    assert (Hidle' : ∀ q i, (S (next s) ≤ i)%nat → (i < length limits)%nat →
                       <[next s := q]> (workers s) !! i = Some Idle).
    { intros q i Hi Hil. rewrite list_lookup_insert_ne by lia.
      apply (inv_idle _ _ _ _ _ _ _ HI); lia. }
    destruct (ctxDone s).
    + simplify_eq. eapply (Get_inv_move s _ (next s) Idle Refused); try done; simpl.
      * apply Hidle'.
      * rewrite (count_pc_insert _ _ _ _ _ Hidle). simpl.
        rewrite (inv_inProgress _ _ _ _ _ _ _ HI). lia.
      * apply (inv_bound _ _ _ _ _ _ _ HI).
      * unfold running. simpl.
        fold (slots_held (<[next s := Refused]> (workers s))).
        rewrite (slots_held_insert _ _ _ _ Hidle). simpl.
        pose proof (inv_running _ _ _ _ _ _ _ HI) as Hr. unfold running in Hr.
        fold (slots_held (workers s)) in Hr. lia.
    + case_bool_decide as Hfree; [|done]. simplify_eq.
      eapply (Get_inv_move s _ (next s) Idle AtLoop); try done; simpl.
      * apply Hidle'.
      * rewrite (count_pc_insert _ _ _ _ _ Hidle). simpl.
        rewrite (inv_inProgress _ _ _ _ _ _ _ HI). lia.
      * apply (inv_bound _ _ _ _ _ _ _ HI).
      * unfold running in *. simpl.
        fold (slots_held (<[next s := AtLoop]> (workers s))).
        fold (slots_held (workers s)) in Hfree.
        rewrite (slots_held_insert _ _ _ _ Hidle). simpl. lia.
  - apply lookup_lt_Some in Hl as Hlt. simplify_eq.
    destruct HI. split; try done; simpl.
    intros i Hi Hil. apply inv_idle0; lia.
Qed.

Lemma Get_inv_idle_insert (s : GetState) (j : nat) (q q' : pc) :
  Inv s → workers s !! j = Some q → q ≠ Idle →
  ∀ i, (next s ≤ i)%nat → (i < length limits)%nat →
       <[j := q']> (workers s) !! i = Some Idle.
Proof.
  intros HI Hj Hq i Hi Hil.
  pose proof (inv_idle _ _ _ _ _ _ _ HI i Hi Hil) as Hidle.
  destruct (decide (j = i)) as [->|Hne]; [congruence|].
  by rewrite list_lookup_insert_ne.
Qed.

Lemma running_set (s : GetState) (j : nat) (q q' : pc) (ws : list pc) :
  workers s !! j = Some q → ws = <[j := q']> (workers s) →
  slots_held ws
  = running s - (if holds_slot q then 1 else 0) + (if holds_slot q' then 1 else 0).
Proof.
  intros Hj ->. rewrite (slots_held_insert _ _ _ _ Hj). done.
Qed.

Lemma Get_inv_set_pc (s : GetState) (j : nat) (q q' : pc) :
  Inv s → workers s !! j = Some q →
  q ≠ Idle → q ≠ Finished → q ≠ Fetching → q' ≠ Finished → q' ≠ Fetching →
  holds_slot q = true →
  Inv (set_pc j q' s).
Proof.
  intros HI Hj Hq1 Hq2 Hq3 Hq'1 Hq'2 Hh.
  eapply (Get_inv_move s _ j q q'); try done; simpl.
  - apply (inv_next _ _ _ _ _ _ _ HI).
  - by eapply Get_inv_idle_insert.
  - rewrite (count_pc_insert _ _ _ _ _ Hj).
    rewrite !decide_False by done. rewrite (inv_inProgress _ _ _ _ _ _ _ HI). lia.
  - apply (inv_bound _ _ _ _ _ _ _ HI).
  - unfold running at 1. simpl. fold (slots_held (<[j := q']> (workers s))).
    rewrite (running_set s j q q' _ Hj eq_refl). rewrite Hh.
    pose proof (inv_running _ _ _ _ _ _ _ HI). destruct (holds_slot q'); lia.
Qed.

Lemma Get_inv_loop (s : GetState) (i : nat) :
  Inv s → workers s !! i = Some AtLoop → Inv (loop_step es i s).
Proof.
  intros HI Hi. unfold loop_step.
  case_bool_decide as Henough; [by eapply Get_inv_set_pc|].
  case_bool_decide as Hunreach; [by eapply Get_inv_set_pc|].
  case_bool_decide as Hbusy; [by eapply Get_inv_set_pc|].
  eapply (Get_inv_move s _ i AtLoop Fetching); try done; simpl.
  - apply (inv_next _ _ _ _ _ _ _ HI).
  - by eapply Get_inv_idle_insert.
  - rewrite (count_pc_insert _ _ _ _ _ Hi). simpl.
    rewrite (inv_inProgress _ _ _ _ _ _ _ HI). lia.
  - pose proof (inv_bound _ _ _ _ _ _ _ HI). lia.
  - unfold running at 1. simpl. fold (slots_held (<[i := Fetching]> (workers s))).
    rewrite (running_set s i AtLoop Fetching _ Hi eq_refl). simpl.
    pose proof (inv_running _ _ _ _ _ _ _ HI). lia.
Qed.

Lemma Get_inv_wake (s : GetState) (i : nat) :
  Inv s → workers s !! i = Some Waiting → Inv (set_pc i AtLoop s).
Proof. intros HI Hi. by eapply Get_inv_set_pc. Qed.

Lemma Get_inv_fetched (s : GetState) (i : nat) (limit : AddressedOrderLimit) :
  Inv s → workers s !! i = Some Fetching → limits !! i = Some (Some limit) →
  Inv (fetched_step ec transport cachedIPsAndPorts es dataSize i limit s).
Proof.
  intros HI Hi Hl.
  assert (Hlen : (i < length (workers s))%nat) by (by apply lookup_lt_Some in Hi).
  assert (HF : ∀ j, j ≠ i →
            <[i := Finished]> (workers s) !! j = Some Finished
            ↔ workers s !! j = Some Finished).
  { intros j Hj. by rewrite list_lookup_insert_ne. }
  assert (HFi : <[i := Finished]> (workers s) !! i = Some Finished).
  { by rewrite list_lookup_insert_eq. }
  assert (Hcount : count_pc Fetching (<[i := Finished]> (workers s))
                   = inProgress s - 1).
  { rewrite (count_pc_insert _ _ _ _ _ Hi). simpl.
    rewrite (inv_inProgress _ _ _ _ _ _ _ HI). lia. }
  assert (Hpos : 0 ≤ inProgress s - 1).
  { rewrite <- Hcount. unfold count_pc. lia. }
  assert (Hrun : slots_held (<[i := Finished]> (workers s)) ≤ RequiredCount es).
  { rewrite (running_set s i Fetching Finished _ Hi eq_refl). simpl.
    pose proof (inv_running _ _ _ _ _ _ _ HI). lia. }
  assert (Hfresh : pieceReaders s !! i = None).
  { destruct (pieceReaders s !! i) eqn:Hr; [|done].
    destruct (proj1 (inv_readers _ _ _ _ _ _ _ HI i) ltac:(eauto))
      as (? & _ & Hw & _). congruence. }
  pose proof (inv_bound _ _ _ _ _ _ _ HI) as Hbound.
  unfold fetched_step.
  destruct (fetch ec transport cachedIPsAndPorts es dataSize limit)
    as [[r err] evs] eqn:Hfetch.
  assert (Hferr : ferr limit = err) by (unfold fetch_err; by rewrite Hfetch).
  destruct err as [e|]; split;
    cbn [next ctxDone workers successfulPieces inProgress unusedLimits
         pieceReaders failedPieces errlist dials]; try done.
  - apply (inv_next _ _ _ _ _ _ _ HI).
  - rewrite length_insert. apply (inv_length _ _ _ _ _ _ _ HI).
  - by eapply Get_inv_idle_insert.
  - apply (inv_successful _ _ _ _ _ _ _ HI).
  - lia.
  - intros j. rewrite (inv_readers _ _ _ _ _ _ _ HI j).
    destruct (decide (j = i)) as [->|Hne].
    + split; intros (limit' & Hl' & Hw & Hf); [congruence|].
      rewrite Hl in Hl'. by simplify_eq.
    + by setoid_rewrite (HF j Hne).
  - intros j limit' e' Hw Hl' Hf.
    destruct (decide (j = i)) as [->|Hne].
    + rewrite Hl in Hl'. injection Hl' as <-.
      rewrite Hferr in Hf. injection Hf as <-.
      split; [apply elem_of_app; right; by apply list_elem_of_singleton|].
      intros Hc. rewrite Hc. apply elem_of_app; right.
      by apply list_elem_of_singleton.
    + apply (HF j Hne) in Hw.
      destruct (inv_errlist _ _ _ _ _ _ _ HI j limit' e' Hw Hl' Hf) as [He Hc].
      split; [apply elem_of_app; by left|].
      intros Hcls. specialize (Hc Hcls).
      destruct (Class_Has ErrPieceHashVerifyFailed (Some e));
        [apply elem_of_app; by left | done].
  - intros rp Hrp.
    assert (Hold : rp ∈ failedPieces s →
      ∃ j limit', limits !! j = Some (Some limit') ∧
                  <[i := Finished]> (workers s) !! j = Some Finished ∧
                  Class_Has ErrPieceHashVerifyFailed (ferr limit') = true ∧
                  rp = failed_record j limit').
    { intros Hin. destruct (inv_failed _ _ _ _ _ _ _ HI rp Hin)
        as (j & limit' & ? & Hw & ? & ?).
      exists j, limit'. split; [done|]. split; [|done].
      apply HF; [congruence | done]. }
    destruct (Class_Has ErrPieceHashVerifyFailed (Some e)) eqn:Hcls; [|by apply Hold].
    apply elem_of_app in Hrp as [Hrp|Hrp]; [by apply Hold|].
    apply list_elem_of_singleton in Hrp as ->.
    exists i, limit. by rewrite Hferr.
  - apply (inv_next _ _ _ _ _ _ _ HI).
  - rewrite length_insert. apply (inv_length _ _ _ _ _ _ _ HI).
  - by eapply Get_inv_idle_insert.
  - rewrite map_size_insert_None by done.
    rewrite (inv_successful _ _ _ _ _ _ _ HI). lia.
  - lia.
  - intros j. destruct (decide (j = i)) as [->|Hne].
    + rewrite lookup_insert_eq. split; [|eauto].
      intros _. exists limit. by rewrite Hferr.
    + rewrite lookup_insert_ne by done.
      rewrite (inv_readers _ _ _ _ _ _ _ HI j). by setoid_rewrite (HF j Hne).
  - intros j limit' e' Hw Hl' Hf.
    destruct (decide (j = i)) as [->|Hne].
    + rewrite Hl in Hl'. injection Hl' as <-. congruence.
    + apply (HF j Hne) in Hw.
      apply (inv_errlist _ _ _ _ _ _ _ HI j limit' e' Hw Hl' Hf).
  - intros rp Hrp.
    destruct (inv_failed _ _ _ _ _ _ _ HI rp Hrp) as (j & limit' & ? & Hw & ? & ?).
    exists j, limit'. split; [done|]. split; [|done].
    apply HF; [congruence | done].
Qed.

Lemma Get_inv_step (a : action) (s s' : GetState) :
  Inv s → step ec transport limits cachedIPsAndPorts es dataSize a s = Some s' → Inv s'.
Proof.
  intros HI Hstep. destruct a as [| |i|i|i]; simpl in Hstep.
  - by eapply Get_inv_range.
  - simplify_eq. destruct HI. by split.
  - destruct (workers s !! i) as [[]|] eqn:Hi; simplify_eq. by apply Get_inv_loop.
  - destruct (workers s !! i) as [[]|] eqn:Hi; simplify_eq. by apply Get_inv_wake.
  - destruct (workers s !! i) as [[]|] eqn:Hi; try done.
    destruct (limits !! i) as [[limit|]|] eqn:Hl; simplify_eq.
    by apply Get_inv_fetched.
Qed.

Lemma Get_inv_exec (schedule : list action) (s s' : GetState) :
  Inv s → exec ec transport limits cachedIPsAndPorts es dataSize schedule s = Some s' →
  Inv s'.
Proof.
  revert s. induction schedule as [|a schedule IH]; intros s HI Hexec; simpl in Hexec.
  - by simplify_eq.
  - destruct (step _ _ _ _ _ _ a s) as [s1|] eqn:Hstep; [|done].
    eapply IH; [|done]. by eapply Get_inv_step.
Qed.

(** Every state an execution of [Get] reaches satisfies the invariant. *)
Lemma Get_inv_reachable (schedule : list action) (s : GetState) :
  exec ec transport limits cachedIPsAndPorts es dataSize schedule (Get_init limits)
  = Some s →
  Inv s.
Proof. apply Get_inv_exec, Get_inv_init. Qed.

End GetInvariant.

(** ** The per-piece download *)

Lemma Class_Has_Combine (c : Class) (e : error) (b : option error) :
  Class_Has c (errs_Combine (Some e) b) = Class_Has c (Some e).
Proof. by destruct b. Qed.

Lemma Class_Has_Combine_first (c : Class) (a b : option error) :
  Class_Has c (errs_Combine a b)
  = match a with Some _ => Class_Has c a | None => Class_Has c b end.
Proof. by destruct a, b. Qed.

Section DownloadProperties.
Context `{Sg : Signing} `{Cd : Codec}.
Variable ec : ECRepairer.
Variable transport : AddressedOrderLimit → string → DownloadEnv.
Variable cachedIPsAndPorts : gmap NodeID string.
Variable es : ErasureScheme.
Variable dataSize : Z.

Local Abbreviation pieceSize := (Get_pieceSize es dataSize).
Local Abbreviation download := (downloadAndVerifyPiece ec transport).

Lemma verifyPieceHash_error limit hash expected e :
  verifyPieceHash limit hash expected = Some e →
  ∃ msg args, e = Class_New RepairerError msg args.
Proof.
  unfold verifyPieceHash. intros H.
  destruct limit, hash; repeat case_match; simplify_eq; eauto.
Qed.

Lemma verifyOrderLimitSignature_error satellite limit :
  VerifyOrderLimitSignature satellite limit ≠ None →
  verifyOrderLimitSignature satellite limit
  = Some (Class_New RepairerError "invalid order limit signature: %v" []).
Proof.
  unfold verifyOrderLimitSignature. by destruct (VerifyOrderLimitSignature _ _).
Qed.

(** The result of a download that delivered a piece, before the deferred closes. *)
Lemma downloadAndVerifyPiece_body_delivered limit address hash originalLimit :
  delivered ec transport es dataSize limit address hash originalLimit →
  downloadAndVerifyPiece_body ec pieceSize (transport limit address)
  = match verifyOrderLimitSignature (satelliteSignee ec) originalLimit with
    | Some e => (None, Some e)
    | None =>
        match verifyPieceHash (Some originalLimit) (Some hash)
                (pkcrypto_Sum (pieceBytes (transport limit address))) with
        | Some e => (None, Class_Wrap ErrPieceHashVerifyFailed (Some e))
        | None =>
            (Some (if inmemory ec then InMemory (pieceBytes (transport limit address))
                   else TempFile (pieceBytes (transport limit address))), None)
        end
    end.
Proof.
  intros (Hdial & Hdown & Hread & Htmp & Hsize & Hhash & Hlimit).
  unfold downloadAndVerifyPiece_body. rewrite Hread, Hhash, Hlimit.
  destruct (inmemory ec).
  - rewrite bool_decide_eq_false_2 by (intros ?; done).
    by repeat case_match.
  - destruct (Htmp eq_refl) as [-> ->].
    rewrite bool_decide_eq_false_2 by (intros ?; done).
    by repeat case_match.
Qed.

(** A piece that fails [verifyPieceHash] is answered by an error of the class
    [ErrPieceHashVerifyFailed], which is not a piece-store error. *)
Lemma download_hash_rejected limit address :
  piece_hash_rejected ec transport es dataSize limit address →
  ∃ e, download limit address pieceSize = (None, Some e) ∧
       Class_Has ErrPieceHashVerifyFailed (Some e) = true ∧
       Class_Has PiecestoreError (Some e) = false.
Proof.
  intros (hash & originalLimit & Hdel & Hsig & Hver).
  pose proof Hdel as (Hdial & Hdown & _).
  unfold downloadAndVerifyPiece. rewrite Hdial, Hdown.
  rewrite (downloadAndVerifyPiece_body_delivered _ _ _ _ Hdel), Hsig.
  destruct (verifyPieceHash _ _ _) as [e|] eqn:Hv; [|done].
  destruct (verifyPieceHash_error _ _ _ _ Hv) as (msg & args & ->).
  simpl.
  destruct (downloader_Close (transport limit address)),
           (ps_Close (transport limit address)); simpl; eauto.
Qed.

(** An echoed limit that fails the satellite-signature check is answered by
    an error of the repairer's general class: neither of the class
    [ErrPieceHashVerifyFailed] nor a piece-store error. *)
Lemma download_order_limit_rejected limit address :
  order_limit_rejected ec transport es dataSize limit address →
  ∃ e, download limit address pieceSize = (None, Some e) ∧
       Class_Has ErrPieceHashVerifyFailed (Some e) = false ∧
       Class_Has PiecestoreError (Some e) = false.
Proof.
  intros (hash & originalLimit & Hdel & Hsig).
  pose proof Hdel as (Hdial & Hdown & _).
  unfold downloadAndVerifyPiece. rewrite Hdial, Hdown.
  rewrite (downloadAndVerifyPiece_body_delivered _ _ _ _ Hdel).
  rewrite (verifyOrderLimitSignature_error _ _ Hsig).
  destruct (downloader_Close (transport limit address)),
           (ps_Close (transport limit address)); simpl; eauto.
Qed.

(** The error of such a download carries the repairer's general class. *)
Lemma download_order_limit_rejected_class limit address :
  order_limit_rejected ec transport es dataSize limit address →
  Class_Has RepairerError (download limit address pieceSize).2 = true.
Proof.
  intros (hash & originalLimit & Hdel & Hsig).
  pose proof Hdel as (Hdial & Hdown & _).
  unfold downloadAndVerifyPiece. rewrite Hdial, Hdown.
  rewrite (downloadAndVerifyPiece_body_delivered _ _ _ _ Hdel).
  rewrite (verifyOrderLimitSignature_error _ _ Hsig).
  by destruct (downloader_Close (transport limit address)),
              (ps_Close (transport limit address)).
Qed.

(** With errors of the transport that are foreign to the class, a download
    ends with an error of the class [ErrPieceHashVerifyFailed] only when the
    piece was delivered and failed [verifyPieceHash]. *)
Lemma download_class_hash_failed limit address :
  transport_errors_foreign (transport limit address) →
  Class_Has ErrPieceHashVerifyFailed (download limit address pieceSize).2 = true →
  piece_hash_rejected ec transport es dataSize limit address.
Proof.
  intros (Hdial & Hdown & Htmp & Hread & Hseek & Hdc & Hpc).
  unfold piece_hash_rejected, delivered, downloadAndVerifyPiece.
  destruct (dial_err (transport limit address)) as [e|] eqn:Edial;
    [cbn [snd]; by rewrite Hdial|].
  destruct (Download_err (transport limit address)) as [e|] eqn:Edown.
  { cbn [snd]. rewrite (Class_Has_Combine_first _ (Some e)). by rewrite Hdown. }
  destruct (downloadAndVerifyPiece_body ec pieceSize (transport limit address))
    as [r err] eqn:Hbody.
  cbn [snd]. rewrite !Class_Has_Combine_first.
  destruct err as [e|]; [|destruct (downloader_Close _); by rewrite ?Hdc, ?Hpc].
  intros Hclass0.
  assert (Hclass : Class_Has ErrPieceHashVerifyFailed (Some e) = true)
    by (by destruct (downloader_Close _)).
  clear Hclass0.
  unfold downloadAndVerifyPiece_body in Hbody.
  assert (Hnew : ∀ msg args,
            Class_Has ErrPieceHashVerifyFailed (Some (Class_New RepairerError msg args))
            = false) by done.
  destruct (inmemory ec) eqn:Hmem.
  - destruct (read_err (transport limit address)) as [e'|] eqn:Eread;
      [simplify_eq; by rewrite Hread in Hclass|].
    case_bool_decide as Hsize; [simplify_eq; by rewrite Hnew in Hclass|].
    destruct (sent_hash (transport limit address)) as [hash|] eqn:Ehash;
      [|simplify_eq; by rewrite Hnew in Hclass].
    destruct (sent_limit (transport limit address)) as [ol|] eqn:Eol;
      [|simplify_eq; by rewrite Hnew in Hclass].
    destruct (verifyOrderLimitSignature (satelliteSignee ec) ol) as [e'|] eqn:Esig.
    { unfold verifyOrderLimitSignature in Esig.
      destruct (VerifyOrderLimitSignature _ _); simplify_eq. }
    destruct (verifyPieceHash (Some ol) (Some hash) _) as [e'|] eqn:Ever; [|done].
    exists hash, ol. repeat split; try done. by rewrite Ever.
  - destruct (tmpfile_New_err (transport limit address)) as [e'|] eqn:Etmp;
      [simplify_eq; by rewrite Htmp in Hclass|].
    destruct (read_err (transport limit address)) as [e'|] eqn:Eread;
      [simplify_eq; by rewrite Hread in Hclass|].
    destruct (Seek_err (transport limit address)) as [e'|] eqn:Eseek;
      [simplify_eq; by rewrite Hseek in Hclass|].
    case_bool_decide as Hsize; [simplify_eq; by rewrite Hnew in Hclass|].
    destruct (sent_hash (transport limit address)) as [hash|] eqn:Ehash;
      [|simplify_eq; by rewrite Hnew in Hclass].
    destruct (sent_limit (transport limit address)) as [ol|] eqn:Eol;
      [|simplify_eq; by rewrite Hnew in Hclass].
    destruct (verifyOrderLimitSignature (satelliteSignee ec) ol) as [e'|] eqn:Esig.
    { unfold verifyOrderLimitSignature in Esig.
      destruct (VerifyOrderLimitSignature _ _); simplify_eq. }
    destruct (verifyPieceHash (Some ol) (Some hash) _) as [e'|] eqn:Ever; [|done].
    exists hash, ol. repeat split; try done. by rewrite Ever.
Qed.

(** The worker keeps the download made at [served_address]. *)
Lemma fetch_served limit :
  (fetch ec transport cachedIPsAndPorts es dataSize limit).1
  = download limit (served_address ec transport cachedIPsAndPorts es dataSize limit)
             pieceSize.
Proof.
  unfold fetch, served_address. cbv zeta.
  by destruct (_ && Class_Has _ _).
Qed.

End DownloadProperties.

(** ** The download coordinator: executions *)

Section GetExecutions.
Context `{Sg : Signing} `{Cd : Codec}.
Variable ec : ECRepairer.
Variable transport : AddressedOrderLimit → string → DownloadEnv.
Variable limits : list (option AddressedOrderLimit).
Variable cachedIPsAndPorts : gmap NodeID string.
Variable es : ErasureScheme.
Variable dataSize : Z.
Hypothesis k_nonneg : 0 ≤ RequiredCount es.

Local Abbreviation Inv := (Get_inv ec transport limits cachedIPsAndPorts es dataSize).
Local Abbreviation ferr := (fetch_err ec transport cachedIPsAndPorts es dataSize).
Local Abbreviation run := (exec ec transport limits cachedIPsAndPorts es dataSize).
Local Abbreviation step1 := (step ec transport limits cachedIPsAndPorts es dataSize).

Lemma loop_step_workers (s : GetState) (i : nat) :
  ∃ q, workers (loop_step es i s) = <[i := q]> (workers s) ∧
       (q = Fetching →
        successfulPieces s < RequiredCount es ∧
        RequiredCount es ≤ successfulPieces s + inProgress s + unusedLimits s ∧
        successfulPieces s + inProgress s < RequiredCount es).
Proof.
  unfold loop_step. repeat case_bool_decide; simpl; eexists; (split; [done|]);
    try done. intros _. lia.
Qed.

Lemma step_Finished_stable (a : action) (s s' : GetState) (i : nat) :
  Inv s → step1 a s = Some s' →
  workers s !! i = Some Finished → workers s' !! i = Some Finished.
Proof.
  intros HI Hstep Hi. destruct a as [| |j|j|j]; simpl in Hstep.
  - unfold range_step in Hstep.
    destruct (limits !! next s) as [[limit|]|] eqn:Hl; [| |done].
    + apply lookup_lt_Some in Hl.
      pose proof (inv_idle _ _ _ _ _ _ _ HI (next s) ltac:(lia) Hl) as Hidle.
      assert (next s ≠ i) by congruence.
      destruct (ctxDone s); [|case_bool_decide; [|done]]; simplify_eq; simpl;
        by rewrite list_lookup_insert_ne.
    + by simplify_eq.
  - by simplify_eq.
  - destruct (workers s !! j) as [[]|] eqn:Hj; simplify_eq.
    destruct (loop_step_workers s j) as (q & -> & _).
    rewrite list_lookup_insert_ne; [done | congruence].
  - destruct (workers s !! j) as [[]|] eqn:Hj; simplify_eq. simpl.
    rewrite list_lookup_insert_ne; [done | congruence].
  - destruct (workers s !! j) as [[]|] eqn:Hj; try done.
    destruct (limits !! j) as [[limit|]|] eqn:Hl; simplify_eq.
    unfold fetched_step. destruct (fetch _ _ _ _ _ _) as [[r [e|]] evs]; simpl;
      (rewrite list_lookup_insert_ne; [done | congruence]).
Qed.

Lemma step_Fetched_Finished (s s' : GetState) (i : nat) :
  step1 (Fetched i) s = Some s' → workers s' !! i = Some Finished.
Proof.
  simpl. intros Hstep.
  destruct (workers s !! i) as [[]|] eqn:Hi; try done.
  destruct (limits !! i) as [[limit|]|] eqn:Hl; simplify_eq.
  apply lookup_lt_Some in Hi.
  unfold fetched_step. destruct (fetch _ _ _ _ _ _) as [[r [e|]] evs]; simpl;
    by rewrite list_lookup_insert_eq.
Qed.

(** A worker whose download returned during the execution is finished at
    its end. *)
Lemma exec_Finished (schedule : list action) (s s' : GetState) (i : nat) :
  Inv s → run schedule s = Some s' →
  workers s !! i = Some Finished ∨ Fetched i ∈ schedule →
  workers s' !! i = Some Finished.
Proof.
  revert s. induction schedule as [|a schedule IH]; intros s HI Hexec Hi; simpl in Hexec.
  - simplify_eq. destruct Hi as [?|Hi]; [done|]. by apply elem_of_nil in Hi.
  - destruct (step1 a s) as [s1|] eqn:Hstep; [|done].
    apply (IH s1); [by eapply Get_inv_step | done |].
    destruct Hi as [Hi|Hi].
    + left. by eapply step_Finished_stable.
    + apply elem_of_cons in Hi as [<-|Hi]; [|by right].
      left. by eapply step_Fetched_Finished.
Qed.

(** What [Get] returns once both configuration checks have passed. *)
Lemma Get_returns (schedule : list action) (r : GetResult) :
  Z.of_nat (length limits) = TotalCount es →
  RequiredCount es ≤ nonNilCount limits →
  Get ec transport limits cachedIPsAndPorts es dataSize schedule = Some r ↔
  ∃ s, run schedule (Get_init limits) = Some s ∧ drained limits s = true ∧
       r = Get_finish es dataSize s.
Proof.
  intros Hlen Hnn. unfold Get.
  rewrite bool_decide_eq_false_2 by (intros ?; done).
  rewrite bool_decide_eq_false_2 by lia.
  destruct (run schedule (Get_init limits)) as [s|]; [|split; [done | by intros (? & ? & _)]].
  destruct (drained limits s) eqn:Hd.
  - split; [intros [= <-]; eauto | intros (? & [= <-] & _ & ->); done].
  - split; [done | intros (? & [= <-] & ? & _); congruence].
Qed.

Lemma Get_finish_failedPieces (s : GetState) :
  get_failedPieces (Get_finish es dataSize s) = failedPieces s.
Proof. unfold Get_finish. by repeat case_match. Qed.

End GetExecutions.

(** ** The download coordinator: the claims *)

(** C1.  In every state an execution of [Get] reaches, with [k] the required
    count: [inProgress] is the number of workers that are downloading, it is
    at most [k], [successfulPieces + inProgress] is at most [k], and at most
    [k] workers hold a slot of the limiter; a worker that claims a download
    at its evaluation of the loop found [successfulPieces + inProgress < k];
    and when [Get] returns without error, the stream it returns is built
    from a [pieceReaders] map of exactly [k] entries. *)
Theorem Get_admission_invariant `{Sg : Signing} `{Cd : Codec}
    (ec : ECRepairer) (transport : AddressedOrderLimit → string → DownloadEnv)
    (limits : list (option AddressedOrderLimit)) (cached : gmap NodeID string)
    (es : ErasureScheme) (dataSize : Z) (schedule : list action) (s : GetState) :
  0 ≤ RequiredCount es →
  exec ec transport limits cached es dataSize schedule (Get_init limits) = Some s →
  inProgress s = count_pc Fetching (workers s) ∧
  0 ≤ inProgress s ≤ RequiredCount es ∧
  successfulPieces s + inProgress s ≤ RequiredCount es ∧
  running s ≤ RequiredCount es ∧
  (∀ i, workers s !! i = Some AtLoop →
        workers (loop_step es i s) !! i = Some Fetching →
        successfulPieces s + inProgress s < RequiredCount es) ∧
  (∀ r, Get ec transport limits cached es dataSize schedule = Some r →
        get_err r = None →
        ∃ stream, get_stream r = Some stream ∧
                  ds_readers stream = pieceReaders s ∧
                  Z.of_nat (size (ds_readers stream)) = RequiredCount es).
Proof.
  intros Hk Hexec.
  pose proof (Get_inv_reachable ec transport limits cached es dataSize Hk schedule s Hexec)
    as HI.
  pose proof (inv_bound _ _ _ _ _ _ _ HI) as [Hpos Hbound].
  pose proof (inv_successful _ _ _ _ _ _ _ HI) as Hsucc.
  split; [apply (inv_inProgress _ _ _ _ _ _ _ HI)|].
  split; [lia|]. split; [done|].
  split; [apply (inv_running _ _ _ _ _ _ _ HI)|].
  split.
  - intros i Hi Hclaim.
    destruct (loop_step_workers es s i) as (q & Hw & Hq).
    rewrite Hw, list_lookup_insert_eq in Hclaim by (by apply lookup_lt_Some in Hi).
    injection Hclaim as ->. by apply Hq.
  - intros r HGet Herr. unfold Get in HGet.
    case_bool_decide; [by simplify_eq|].
    case_bool_decide; [by simplify_eq|].
    rewrite Hexec in HGet.
    destruct (drained limits s); [|done]. injection HGet as <-.
    unfold Get_finish in *.
    case_bool_decide as Hshort; [done|].
    destruct (infectious_NewFEC _ _) as [e|].
    { simpl in Herr. destruct e; simpl in Herr; try done. by case_decide. }
    eexists. split; [done|]. simpl. split; [done|]. lia.
Qed.

(** The interleaved execution of the example ends with two readers for a
    scheme that requires two. *)
Lemma Get_admission_invariant_witness :
  ∃ s r,
    @exec example_Signing example_Codec ex_ec ex_transport ex_get_limits ∅ ex_es
          ex_dataSize ex_schedule (Get_init ex_get_limits) = Some s ∧
    @Get example_Signing example_Codec ex_ec ex_transport ex_get_limits ∅ ex_es
         ex_dataSize ex_schedule = Some r ∧
    successfulPieces s + inProgress s ≤ 2 ∧
    ∃ stream, get_stream r = Some stream ∧ Z.of_nat (size (ds_readers stream)) = 2.
Proof.
  destruct (@exec example_Signing example_Codec ex_ec ex_transport ex_get_limits ∅ ex_es
              ex_dataSize ex_schedule (Get_init ex_get_limits)) as [s|] eqn:Hexec;
    [|by vm_compute in Hexec].
  destruct (@Get example_Signing example_Codec ex_ec ex_transport ex_get_limits ∅ ex_es
              ex_dataSize ex_schedule) as [r|] eqn:HGet;
    [|by vm_compute in HGet].
  assert (Herr : get_err r = None).
  { assert (Hsome : get_err <$> @Get example_Signing example_Codec ex_ec ex_transport
                      ex_get_limits ∅ ex_es ex_dataSize ex_schedule = Some None)
      by (by vm_compute).
    rewrite HGet in Hsome. by injection Hsome. }
  destruct (@Get_admission_invariant example_Signing example_Codec ex_ec ex_transport
              ex_get_limits ∅ ex_es ex_dataSize ex_schedule s
              ltac:(by vm_compute) Hexec)
    as (_ & _ & Hbound & _ & _ & Hret).
  destruct (Hret r HGet Herr) as (stream & Hstream & _ & Hsize).
  exists s, r. split; [done|]. split; [done|]. split; [exact Hbound|].
  exists stream. split; [done | exact Hsize].
Defined.

(** C2.  For a call of [Get] that passes both configuration checks, with a
    required count [k] that fits an [int32]: when the execution lets
    [limiter.Wait()] return with fewer than [k] readers collected, [Get]
    returns a nil stream, the [failedPieces] collected so far and an
    [irreparableError] whose [piecesAvailable] is the number of collected
    readers, whose [piecesRequired] is [k] and whose [errlist] is the
    accumulated list; the collected readers are exactly the downloads that
    returned without error, and the list holds the error of every download
    that returned with one, under the node's ID. *)
Theorem Get_insufficient_pieces `{Sg : Signing} `{Cd : Codec}
    (ec : ECRepairer) (transport : AddressedOrderLimit → string → DownloadEnv)
    (limits : list (option AddressedOrderLimit)) (cached : gmap NodeID string)
    (es : ErasureScheme) (dataSize : Z) (schedule : list action) (s : GetState) :
  Z.of_nat (length limits) = TotalCount es →
  RequiredCount es ≤ nonNilCount limits →
  0 ≤ RequiredCount es < 2 ^ 31 →
  exec ec transport limits cached es dataSize schedule (Get_init limits) = Some s →
  drained limits s = true →
  Z.of_nat (size (pieceReaders s)) < RequiredCount es →
  Get ec transport limits cached es dataSize schedule
  = Some {| get_stream := None;
            get_failedPieces := failedPieces s;
            get_err := Some (irreparableError (Z.of_nat (size (pieceReaders s)))
                                              (RequiredCount es) (errlist s));
            get_dials := dials s |} ∧
  (∀ i, is_Some (pieceReaders s !! i) ↔
        ∃ limit, limits !! i = Some (Some limit) ∧ workers s !! i = Some Finished ∧
                 fetch_err ec transport cached es dataSize limit = None) ∧
  (∀ i limit e,
     workers s !! i = Some Finished → limits !! i = Some (Some limit) →
     fetch_err ec transport cached es dataSize limit = Some e →
     NodeErrorf (StorageNodeId (Limit limit)) e ∈ errlist s).
Proof.
  intros Hlen Hnn Hk Hexec Hdrained Hshort.
  pose proof (Get_inv_reachable ec transport limits cached es dataSize
                (proj1 Hk) schedule s Hexec) as HI.
  pose proof (inv_successful _ _ _ _ _ _ _ HI) as Hsucc.
  split; [|split].
  - apply (Get_returns ec transport limits cached es dataSize schedule _ Hlen Hnn).
    exists s. split; [done|]. split; [done|].
    unfold Get_finish. rewrite bool_decide_eq_true_2 by lia.
    rewrite Hsucc, !int32_small by lia. done.
  - apply (inv_readers _ _ _ _ _ _ _ HI).
  - intros i limit e Hw Hl He.
    apply (inv_errlist _ _ _ _ _ _ _ HI i limit e Hw Hl He).
Qed.

(** One verifiable piece out of three limits for a scheme that requires two. *)
Lemma Get_insufficient_pieces_witness :
  ∃ failed errors,
    @Get example_Signing example_Codec ex_ec ex_transport ex_short_limits ∅ ex_es
         ex_dataSize ex_short_schedule
    = Some {| get_stream := None; get_failedPieces := failed;
              get_err := Some (irreparableError 1 2 errors);
              get_dials := [EvDial 77 "10.0.0.1:7777"; EvDial 5 "10.0.0.1:7777";
                            EvDial 66 "10.0.0.1:7777"] |}.
Proof.
  destruct (@exec example_Signing example_Codec ex_ec ex_transport ex_short_limits ∅ ex_es
              ex_dataSize ex_short_schedule (Get_init ex_short_limits)) as [s|] eqn:Hexec;
    [|by vm_compute in Hexec].
  assert (Hfacts : drained ex_short_limits s = true ∧ size (pieceReaders s) = 1%nat ∧
                   dials s = [EvDial 77 "10.0.0.1:7777"; EvDial 5 "10.0.0.1:7777";
                              EvDial 66 "10.0.0.1:7777"]).
  { vm_compute in Hexec. injection Hexec as <-. by vm_compute. }
  destruct Hfacts as (Hdrained & Hsize & Hdials).
  destruct (@Get_insufficient_pieces example_Signing example_Codec ex_ec ex_transport
              ex_short_limits ∅ ex_es ex_dataSize ex_short_schedule s
              eq_refl ltac:(by vm_compute) ltac:(by vm_compute) Hexec Hdrained
              ltac:(rewrite Hsize; by vm_compute)) as (HGet & _).
  rewrite Hsize, Hdials in HGet. eauto.
Defined.

(** C3.  For a call of [Get] that passes both configuration checks: when the
    download of the worker of slot [i] returned during the execution and the
    piece it delivered fails [verifyPieceHash] (as it does when the signed
    hash differs from the hash of the content), the record of the slot's
    index and node ID is in the [failedPieces] that [Get] returns, whether
    [Get] returns an error or not. *)
Theorem Get_reports_hash_failures `{Sg : Signing} `{Cd : Codec}
    (ec : ECRepairer) (transport : AddressedOrderLimit → string → DownloadEnv)
    (limits : list (option AddressedOrderLimit)) (cached : gmap NodeID string)
    (es : ErasureScheme) (dataSize : Z) (schedule : list action) (r : GetResult)
    (i : nat) (limit : AddressedOrderLimit) :
  Z.of_nat (length limits) = TotalCount es →
  0 ≤ RequiredCount es ≤ nonNilCount limits →
  Get ec transport limits cached es dataSize schedule = Some r →
  limits !! i = Some (Some limit) →
  Fetched i ∈ schedule →
  piece_hash_rejected ec transport es dataSize limit
    (served_address ec transport cached es dataSize limit) →
  {| PieceNum := int32 (Z.of_nat i); NodeId := StorageNodeId (Limit limit) |}
  ∈ get_failedPieces r.
Proof.
  intros Hlen [Hk Hnn] HGet Hl Hfetched Hrej.
  apply (Get_returns ec transport limits cached es dataSize schedule _ Hlen Hnn) in HGet
    as (s & Hexec & _ & ->).
  rewrite Get_finish_failedPieces.
  pose proof (Get_inv_reachable ec transport limits cached es dataSize Hk schedule s Hexec)
    as HI.
  assert (Hfin : workers s !! i = Some Finished).
  { eapply (exec_Finished ec transport limits cached es dataSize schedule);
      [apply Get_inv_init; done | done | by right]. }
  destruct (download_hash_rejected ec transport es dataSize limit _ Hrej)
    as (e & Hdown & Hcls & _).
  assert (Hferr : fetch_err ec transport cached es dataSize limit = Some e).
  { unfold fetch_err. by rewrite fetch_served, Hdown. }
  by apply (inv_errlist _ _ _ _ _ _ _ HI i limit e Hfin Hl Hferr).
Qed.

(** Node 66 of the interleaved example signs a hash over other content: the
    call succeeds from the pieces of nodes 5 and 6, and node 66 is reported. *)
Lemma Get_reports_hash_failures_witness :
  ∃ r,
    @Get example_Signing example_Codec ex_ec ex_transport ex_get_limits ∅ ex_es
         ex_dataSize ex_schedule = Some r ∧
    get_err r = None ∧
    {| PieceNum := 2; NodeId := 66%N |} ∈ get_failedPieces r.
Proof.
  destruct (@Get example_Signing example_Codec ex_ec ex_transport ex_get_limits ∅ ex_es
              ex_dataSize ex_schedule) as [r|] eqn:HGet;
    [|by vm_compute in HGet].
  exists r. split; [done|]. split.
  - assert (Hsome : get_err <$> @Get example_Signing example_Codec ex_ec ex_transport
                      ex_get_limits ∅ ex_es ex_dataSize ex_schedule = Some None)
      by (by vm_compute).
    rewrite HGet in Hsome. by injection Hsome.
  - apply (@Get_reports_hash_failures example_Signing example_Codec ex_ec ex_transport
             ex_get_limits ∅ ex_es ex_dataSize ex_schedule r 2 (ex_addressed 66 12)).
    + reflexivity.
    + by vm_compute.
    + exact HGet.
    + reflexivity.
    + unfold ex_schedule. do 10 apply list_elem_of_further. apply list_elem_of_here.
    + exists (ex_tampered_hash 12), (ex_limit 66 12).
      split; [|split; [reflexivity | by vm_compute]].
      repeat split; try reflexivity; discriminate.
Defined.

(** C4 (amended).  When the limit echoed back with a delivered piece fails
    the satellite-signature check, the download returns an error of the
    repairer's general class [Error] that is not of the class
    [ErrPieceHashVerifyFailed]; the worker that made it leaves the success
    counter, the readers and [failedPieces] as they are and adds the error
    to the error list; in no state of an execution of [Get] is the piece
    among the readers; and every record of [failedPieces] stands for
    another slot, whose download ended in an error of the class
    [ErrPieceHashVerifyFailed]: when the errors of the transport do not
    carry that class, a slot whose delivered piece failed
    [verifyPieceHash]. *)
Theorem Get_order_limit_failure_not_reported `{Sg : Signing} `{Cd : Codec}
    (ec : ECRepairer) (transport : AddressedOrderLimit → string → DownloadEnv)
    (limits : list (option AddressedOrderLimit)) (cached : gmap NodeID string)
    (es : ErasureScheme) (dataSize : Z) (i : nat) (limit : AddressedOrderLimit) :
  0 ≤ RequiredCount es →
  limits !! i = Some (Some limit) →
  order_limit_rejected ec transport es dataSize limit
    (served_address ec transport cached es dataSize limit) →
  ∃ e,
    fetch_err ec transport cached es dataSize limit = Some e ∧
    Class_Has RepairerError (Some e) = true ∧
    Class_Has ErrPieceHashVerifyFailed (Some e) = false ∧
    (∀ s, let s' := fetched_step ec transport cached es dataSize i limit s in
          successfulPieces s' = successfulPieces s ∧
          pieceReaders s' = pieceReaders s ∧
          failedPieces s' = failedPieces s ∧
          errlist s' = errlist s ++ [NodeErrorf (StorageNodeId (Limit limit)) e]) ∧
    (∀ schedule s,
       exec ec transport limits cached es dataSize schedule (Get_init limits) = Some s →
       pieceReaders s !! i = None ∧
       ∀ rp, rp ∈ failedPieces s →
         ∃ j limit', j ≠ i ∧ limits !! j = Some (Some limit') ∧
                     Class_Has ErrPieceHashVerifyFailed
                       (fetch_err ec transport cached es dataSize limit') = true ∧
                     rp = failed_record j limit' ∧
                     ((∀ l address, transport_errors_foreign (transport l address)) →
                      piece_hash_rejected ec transport es dataSize limit'
                        (served_address ec transport cached es dataSize limit'))).
Proof.
  intros Hk Hl Hrej.
  pose proof (download_order_limit_rejected_class ec transport es dataSize limit _ Hrej)
    as Hgeneral.
  destruct (download_order_limit_rejected ec transport es dataSize limit _ Hrej)
    as (e & Hdown & Hcls & _).
  rewrite Hdown in Hgeneral. cbn [snd] in Hgeneral.
  assert (Hferr : fetch_err ec transport cached es dataSize limit = Some e).
  { unfold fetch_err. by rewrite fetch_served, Hdown. }
  exists e. split; [done|]. split; [done|]. split; [done|]. split.
  - intros s. unfold fetched_step. unfold fetch_err in Hferr.
    destruct (fetch ec transport cached es dataSize limit) as [[r err] evs].
    simpl in Hferr. subst err. cbv zeta.
    cbn [successfulPieces pieceReaders failedPieces errlist]. by rewrite Hcls.
  - intros schedule s Hexec.
    pose proof (Get_inv_reachable ec transport limits cached es dataSize Hk schedule s Hexec)
      as HI.
    split.
    + destruct (pieceReaders s !! i) eqn:Hr; [|done].
      destruct (proj1 (inv_readers _ _ _ _ _ _ _ HI i) ltac:(eauto))
        as (limit' & Hl' & _ & Hnone).
      rewrite Hl in Hl'. injection Hl' as <-. congruence.
    + intros rp Hrp.
      destruct (inv_failed _ _ _ _ _ _ _ HI rp Hrp) as (j & limit' & Hl' & _ & Hclass & ->).
      exists j, limit'. split.
      { intros ->. rewrite Hl in Hl'. injection Hl' as <-. congruence. }
      split; [done|]. split; [done|]. split; [done|].
      intros Hforeign. apply download_class_hash_failed; [done|].
      unfold fetch_err in Hclass. by rewrite fetch_served in Hclass.
Qed.

(** Node 77 of the interleaved example echoes a limit under a forged
    signature: its error is of the general class and not of the class
    [ErrPieceHashVerifyFailed], and its piece is not among the readers at
    the end. *)
Lemma Get_order_limit_failure_not_reported_witness :
  ∃ e s,
    @fetch_err example_Signing example_Codec ex_ec ex_transport ∅ ex_es ex_dataSize
               (ex_addressed 77 10) = Some e ∧
    Class_Has RepairerError (Some e) = true ∧
    Class_Has ErrPieceHashVerifyFailed (Some e) = false ∧
    @exec example_Signing example_Codec ex_ec ex_transport ex_get_limits ∅ ex_es
          ex_dataSize ex_schedule (Get_init ex_get_limits) = Some s ∧
    pieceReaders s !! 0%nat = None.
Proof.
  destruct (@Get_order_limit_failure_not_reported example_Signing example_Codec
              ex_ec ex_transport ex_get_limits ∅ ex_es ex_dataSize 0
              (ex_addressed 77 10))
    as (e & Hferr & Hgeneral & Hcls & _ & Hexec).
  - by vm_compute.
  - reflexivity.
  - exists (ex_hash 10), (ex_forged_limit 77 10).
    split; [|by vm_compute].
    repeat split; try reflexivity; discriminate.
  - destruct (@exec example_Signing example_Codec ex_ec ex_transport ex_get_limits ∅ ex_es
                ex_dataSize ex_schedule (Get_init ex_get_limits)) as [s|] eqn:Hs;
      [|by vm_compute in Hs].
    exists e, s. split; [done|]. split; [done|]. split; [done|]. split; [done|].
    apply (Hexec ex_schedule s Hs).
Defined.

(** C4 as stated fails: node 77 delivers the piece with a limit whose
    satellite signature is forged; its download is rejected, [Get] returns
    the stream built from the other pieces, and the [failedPieces] it
    returns name node 66 alone. *)
Lemma Get_forged_order_limit_not_in_failedPieces :
  @order_limit_rejected example_Signing example_Codec ex_ec ex_transport ex_es ex_dataSize
     (ex_addressed 77 10) "10.0.0.1:7777" ∧
  (get_failedPieces <$>
     @Get example_Signing example_Codec ex_ec ex_transport ex_get_limits ∅ ex_es
          ex_dataSize ex_schedule)
  = Some [{| PieceNum := 2; NodeId := 66%N |}] ∧
  (get_dials <$>
     @Get example_Signing example_Codec ex_ec ex_transport ex_get_limits ∅ ex_es
          ex_dataSize ex_schedule)
  = Some [EvDial 5 "10.0.0.1:7777"; EvDial 77 "10.0.0.1:7777";
          EvDial 66 "10.0.0.1:7777"; EvDial 6 "10.0.0.1:7777"].
Proof.
  split; [|split; by vm_compute].
  exists (ex_hash 10), (ex_forged_limit 77 10).
  split; [|by vm_compute].
  repeat split; try reflexivity; discriminate.
Qed.

(** ** The download coordinator: [Get] returns

    Under the schedule that lets every worker finish before the next one is
    dispatched, [limiter.Wait()] returns; so the statements above about what
    [Get] returns are about executions that exist. *)

Section GetTermination.
Context `{Sg : Signing} `{Cd : Codec}.
Variable ec : ECRepairer.
Variable transport : AddressedOrderLimit → string → DownloadEnv.
Variable limits : list (option AddressedOrderLimit).
Variable cachedIPsAndPorts : gmap NodeID string.
Variable es : ErasureScheme.
Variable dataSize : Z.
Hypothesis k_pos : 0 < RequiredCount es.

Local Abbreviation Inv := (Get_inv ec transport limits cachedIPsAndPorts es dataSize).
Local Abbreviation run := (exec ec transport limits cachedIPsAndPorts es dataSize).
Local Abbreviation step1 := (step ec transport limits cachedIPsAndPorts es dataSize).

Lemma running_eq (s : GetState) : running s = slots_held (workers s).
Proof. reflexivity. Qed.

Lemma fetched_step_fields (i : nat) (limit : AddressedOrderLimit) (s : GetState) :
  let s' := fetched_step ec transport cachedIPsAndPorts es dataSize i limit s in
  workers s' = <[i := Finished]> (workers s) ∧
  inProgress s' = inProgress s - 1 ∧ next s' = next s.
Proof.
  unfold fetched_step. by destruct (fetch _ _ _ _ _ _) as [[r [e|]] evs].
Qed.

Lemma exec_cons (a : action) (schedule : list action) (s s1 s' : GetState) :
  step1 a s = Some s1 → run schedule s1 = Some s' → run (a :: schedule) s = Some s'.
Proof. intros Hstep Hrun. simpl. by rewrite Hstep. Qed.

(** One non-nil slot, sequentially: dispatch, evaluate the loop, download. *)
Lemma sequential_worker (s : GetState) (limit : AddressedOrderLimit) :
  Inv s → running s = 0 → inProgress s = 0 →
  limits !! next s = Some (Some limit) →
  ∃ schedule s', run schedule s = Some s' ∧ Inv s' ∧
                 running s' = 0 ∧ inProgress s' = 0 ∧ next s' = S (next s).
Proof.
  intros HI Hrun Hin Hl.
  apply lookup_lt_Some in Hl as Hlt.
  pose proof (inv_idle _ _ _ _ _ _ _ HI (next s) ltac:(lia) Hlt) as Hidle.
  pose proof (inv_length _ _ _ _ _ _ _ HI) as Hlen.
  rewrite running_eq in Hrun.
  assert (Hfree : ∀ q, holds_slot q = false →
            slots_held (<[next s := q]> (workers s)) = 0).
  { intros q Hq. rewrite (slots_held_insert _ _ _ _ Hidle), Hq. simpl. lia. }
  destruct (ctxDone s) eqn:Hctx.
  - (* limiter.Go refuses *)
    assert (Hstep : step1 Range s
              = Some {| next := S (next s); ctxDone := ctxDone s;
                        workers := <[next s := Refused]> (workers s);
                        successfulPieces := successfulPieces s;
                        inProgress := inProgress s;
                        unusedLimits := unusedLimits s; pieceReaders := pieceReaders s;
                        failedPieces := failedPieces s; errlist := errlist s;
                        dials := dials s |}).
    { simpl. unfold range_step. by rewrite Hl, Hctx. }
    eexists [Range], _. split; [by eapply exec_cons|].
    split; [by eapply Get_inv_step|].
    rewrite running_eq. simpl. by rewrite Hfree.
  - (* the worker starts *)
    set (s1 := {| next := S (next s); ctxDone := ctxDone s;
                  workers := <[next s := AtLoop]> (workers s);
                  successfulPieces := successfulPieces s; inProgress := inProgress s;
                  unusedLimits := unusedLimits s; pieceReaders := pieceReaders s;
                  failedPieces := failedPieces s; errlist := errlist s;
                  dials := dials s |}).
    assert (Hstep1 : step1 Range s = Some s1).
    { simpl. unfold range_step. rewrite Hl, Hctx.
      rewrite bool_decide_eq_true_2; [|rewrite running_eq; lia].
      unfold s1. by rewrite Hctx. }
    assert (HI1 : Inv s1) by (by eapply Get_inv_step).
    assert (Hstep2 : step1 (Loop (next s)) s1 = Some (loop_step es (next s) s1)).
    { simpl. rewrite list_lookup_insert_eq; [done | lia]. }
    assert (HI2 : Inv (loop_step es (next s) s1)) by (by eapply Get_inv_step).
    assert (Habstain : loop_step es (next s) s1 = set_pc (next s) Abstained s1 →
              ∃ schedule s', run schedule s = Some s' ∧ Inv s' ∧
                running s' = 0 ∧ inProgress s' = 0 ∧ next s' = S (next s)).
    { intros Heq. rewrite Heq in Hstep2, HI2.
      eexists [Range; Loop (next s)], _.
      split; [eapply exec_cons; [done|]; by eapply exec_cons|].
      split; [done|].
      rewrite running_eq. simpl. rewrite list_insert_insert_eq. by rewrite Hfree. }
    unfold loop_step in Hstep2, HI2, Habstain.
    case_bool_decide as Henough; [by apply Habstain|].
    case_bool_decide as Hunreach; [by apply Habstain|].
    case_bool_decide as Hbusy; [simpl in *; lia|].
    clear Habstain.
    set (s2 := {| next := next s1; ctxDone := ctxDone s1;
                  workers := <[next s := Fetching]> (workers s1);
                  successfulPieces := successfulPieces s1;
                  inProgress := inProgress s1 + 1;
                  unusedLimits := unusedLimits s1 - 1;
                  pieceReaders := pieceReaders s1;
                  failedPieces := failedPieces s1; errlist := errlist s1;
                  dials := dials s1 |}) in *.
    assert (Hstep3 : step1 (Fetched (next s)) s2
              = Some (fetched_step ec transport cachedIPsAndPorts es dataSize
                        (next s) limit s2)).
    { simpl. rewrite list_lookup_insert_eq by (rewrite length_insert; lia).
      by rewrite Hl. }
    destruct (fetched_step_fields (next s) limit s2) as (Hw3 & Hin3 & Hnext3).
    eexists [Range; Loop (next s); Fetched (next s)], _.
    split; [eapply exec_cons; [done|]; eapply exec_cons; [done|]; by eapply exec_cons|].
    split; [by eapply Get_inv_step|].
    rewrite running_eq, Hw3, Hin3, Hnext3. simpl.
    rewrite !list_insert_insert_eq. rewrite Hfree by done. lia.
Qed.

(** The rest of the range loop, sequentially. *)
Lemma sequential_rest (m : nat) (s : GetState) :
  Inv s → running s = 0 → inProgress s = 0 →
  (next s + m = length limits)%nat →
  ∃ schedule s', run schedule s = Some s' ∧ drained limits s' = true.
Proof.
  revert s. induction m as [|m IH]; intros s HI Hrun Hin Hm.
  - exists [], s. split; [done|]. unfold drained.
    rewrite !bool_decide_eq_true_2; [done | done | lia].
  - destruct (limits !! next s) as [[limit|]|] eqn:Hl.
    + destruct (sequential_worker s limit HI Hrun Hin Hl)
        as (sch1 & s1 & Hrun1 & HI1 & Hr1 & Hin1 & Hn1).
      destruct (IH s1 HI1 Hr1 Hin1 ltac:(lia)) as (sch2 & s2 & Hrun2 & Hd).
      exists (sch1 ++ sch2), s2. split; [|done].
      clear -Hrun1 Hrun2. revert s Hrun1.
      induction sch1 as [|a sch1 IHs]; intros s Hrun1; simpl in *.
      * by simplify_eq.
      * destruct (step1 a s); [by apply IHs | done].
    + assert (Hstep : step1 Range s
                = Some {| next := S (next s); ctxDone := ctxDone s;
                          workers := workers s;
                          successfulPieces := successfulPieces s;
                          inProgress := inProgress s;
                          unusedLimits := unusedLimits s;
                          pieceReaders := pieceReaders s;
                          failedPieces := failedPieces s; errlist := errlist s;
                          dials := dials s |}).
      { simpl. unfold range_step. by rewrite Hl. }
      edestruct (IH _ (Get_inv_step _ _ _ _ _ _ _ _ _ HI Hstep))
        as (sch & s' & Hrun' & Hd); [done | done | simpl; lia |].
      exists (Range :: sch), s'. split; [by eapply exec_cons | done].
    + apply lookup_ge_None in Hl. lia.
Qed.

(** [Get] returns under the sequential schedule, whatever the inputs. *)
Lemma Get_terminates :
  ∃ schedule r, Get ec transport limits cachedIPsAndPorts es dataSize schedule = Some r.
Proof.
  unfold Get.
  case_bool_decide; [by eexists [], _|].
  case_bool_decide; [by eexists [], _|].
  destruct (sequential_rest (length limits) (Get_init limits))
    as (schedule & s & Hrun & Hd).
  - apply Get_inv_init. lia.
  - rewrite running_eq. simpl. apply slots_held_replicate_Idle.
  - done.
  - done.
  - exists schedule. rewrite Hrun, Hd. eauto.
Qed.

End GetTermination.

(** ** The download coordinator: too few suppliers *)

Section GetSuppliers.
Context `{Sg : Signing} `{Cd : Codec}.
Variable ec : ECRepairer.
Variable transport : AddressedOrderLimit → string → DownloadEnv.
Variable limits : list (option AddressedOrderLimit).
Variable cachedIPsAndPorts : gmap NodeID string.
Variable es : ErasureScheme.
Variable dataSize : Z.

Local Abbreviation Inv := (Get_inv ec transport limits cachedIPsAndPorts es dataSize).
Local Abbreviation supplies :=
  (supplies_piece ec transport limits cachedIPsAndPorts es dataSize).

(** The readers never outnumber the slots that can supply a piece. *)
Lemma Get_readers_bounded (s : GetState) :
  Inv s →
  (size (pieceReaders s)
   ≤ suppliers ec transport limits cachedIPsAndPorts es dataSize)%nat.
Proof.
  intros HI. unfold suppliers.
  set (good := filter (λ i, supplies i = true) (seq 0 (length limits))).
  rewrite <- (size_dom (D := gset nat)).
  rewrite <- (size_list_to_set (C := gset nat) good)
    by apply NoDup_filter, NoDup_seq.
  apply subseteq_size. intros i Hi.
  apply elem_of_dom in Hi.
  apply (inv_readers _ _ _ _ _ _ _ HI) in Hi as (limit & Hl & _ & Hf).
  apply elem_of_list_to_set, list_elem_of_filter. split.
  - unfold supplies_piece. by rewrite Hl, Hf.
  - apply elem_of_seq. apply lookup_lt_Some in Hl. lia.
Qed.

(** X12.  When fewer than [k] slots can supply a verifiable piece, every
    execution of [Get] that passes the configuration checks and returns,
    returns a nil stream and an [irreparableError]. *)
Lemma Get_too_few_suppliers (schedule : list action) (r : GetResult) :
  Z.of_nat (length limits) = TotalCount es →
  0 ≤ RequiredCount es ≤ nonNilCount limits →
  Z.of_nat (suppliers ec transport limits cachedIPsAndPorts es dataSize)
  < RequiredCount es →
  Get ec transport limits cachedIPsAndPorts es dataSize schedule = Some r →
  get_stream r = None ∧
  ∃ available errors,
    get_err r = Some (irreparableError available (int32 (RequiredCount es)) errors).
Proof.
  intros Hlen [Hk Hnn] Hfew HGet.
  apply (Get_returns ec transport limits cachedIPsAndPorts es dataSize schedule _ Hlen Hnn)
    in HGet as (s & Hexec & _ & ->).
  pose proof (Get_inv_reachable ec transport limits cachedIPsAndPorts es dataSize
                Hk schedule s Hexec) as HI.
  pose proof (Get_readers_bounded s HI) as Hle.
  pose proof (inv_successful _ _ _ _ _ _ _ HI) as Hsucc.
  unfold Get_finish. rewrite bool_decide_eq_true_2 by lia.
  simpl. eauto.
Qed.

End GetSuppliers.

(* ===================================================================== *)
(** * Further properties of the transfer engine *)
(* ===================================================================== *)

(** ** What a download accepts *)

Lemma errs_Combine_None (a b : option error) :
  errs_Combine a b = None ↔ a = None ∧ b = None.
Proof. destruct a, b; simpl; split; try done; by intros [? ?]. Qed.

Section DownloadAccepts.
Context `{Sg : Signing} `{Cd : Codec}.
Variable ec : ECRepairer.
Variable transport : AddressedOrderLimit → string → DownloadEnv.
Variable es : ErasureScheme.
Variable dataSize : Z.

Local Abbreviation pieceSize := (Get_pieceSize es dataSize).
Local Abbreviation download := (downloadAndVerifyPiece ec transport).

Lemma downloadAndVerifyPiece_body_accepts env r :
  downloadAndVerifyPiece_body ec pieceSize env = (r, None) →
  read_err env = None ∧
  (inmemory ec = false → tmpfile_New_err env = None ∧ Seek_err env = None) ∧
  Z.of_nat (length (pieceBytes env)) = pieceSize ∧
  ∃ hash originalLimit,
    sent_hash env = Some hash ∧ sent_limit env = Some originalLimit ∧
    verifyOrderLimitSignature (satelliteSignee ec) originalLimit = None ∧
    verifyPieceHash (Some originalLimit) (Some hash) (pkcrypto_Sum (pieceBytes env)) = None ∧
    r = Some (if inmemory ec then InMemory (pieceBytes env) else TempFile (pieceBytes env)).
Proof.
  unfold downloadAndVerifyPiece_body. intros H.
  destruct (inmemory ec).
  - destruct (read_err env); [done|].
    case_bool_decide as Hsize; [done|].
    destruct (sent_hash env) as [hash|]; [|done].
    destruct (sent_limit env) as [ol|]; [|done].
    destruct (verifyOrderLimitSignature _ ol) eqn:Hsig; [done|].
    destruct (verifyPieceHash _ _ _) as [e|] eqn:Hver.
    { by destruct (verifyPieceHash_error _ _ _ _ Hver) as (? & ? & ->). }
    injection H as <-. split; [done|]. split; [done|].
    split; [by destruct (decide (Z.of_nat (length (pieceBytes env)) = pieceSize))|].
    by exists hash, ol.
  - destruct (tmpfile_New_err env); [done|].
    destruct (read_err env); [done|].
    destruct (Seek_err env); [done|].
    case_bool_decide as Hsize; [done|].
    destruct (sent_hash env) as [hash|]; [|done].
    destruct (sent_limit env) as [ol|]; [|done].
    destruct (verifyOrderLimitSignature _ ol) eqn:Hsig; [done|].
    destruct (verifyPieceHash _ _ _) as [e|] eqn:Hver.
    { by destruct (verifyPieceHash_error _ _ _ _ Hver) as (? & ? & ->). }
    injection H as <-. split; [done|]. split; [done|].
    split; [by destruct (decide (Z.of_nat (length (pieceBytes env)) = pieceSize))|].
    by exists hash, ol.
Qed.

Lemma downloadAndVerifyPiece_accepted (limit : AddressedOrderLimit)
    (address : string) (r : option ReadCloser) :
  download limit address pieceSize = (r, None) →
  ∃ hash originalLimit,
    delivered ec transport es dataSize limit address hash originalLimit ∧
    VerifyOrderLimitSignature (satelliteSignee ec) originalLimit = None ∧
    verifyPieceHash (Some originalLimit) (Some hash)
      (pkcrypto_Sum (pieceBytes (transport limit address))) = None ∧
    downloader_Close (transport limit address) = None ∧
    ps_Close (transport limit address) = None ∧
    r = Some (if inmemory ec then InMemory (pieceBytes (transport limit address))
              else TempFile (pieceBytes (transport limit address))).
Proof.
  unfold downloadAndVerifyPiece. intros H.
  destruct (dial_err (transport limit address)) eqn:Hdial; [done|].
  destruct (Download_err (transport limit address)) eqn:Hdown.
  { injection H as _ H. by destruct (ps_Close (transport limit address)). }
  destruct (downloadAndVerifyPiece_body ec pieceSize (transport limit address))
    as [r' err] eqn:Hbody.
  injection H as <- Herr.
  apply errs_Combine_None in Herr as [Herr Hps].
  apply errs_Combine_None in Herr as [-> Hdc].
  apply downloadAndVerifyPiece_body_accepts in Hbody
    as (Hread & Htmp & Hsize & hash & ol & Hh & Hl & Hsig & Hver & ->).
  exists hash, ol. repeat split; try done.
  - by apply Htmp.
  - by apply Htmp.
  - unfold verifyOrderLimitSignature in Hsig.
    by destruct (VerifyOrderLimitSignature _ ol).
Qed.

(** X1.  [downloadAndVerifyPiece] returns without error exactly when the node
    is dialled, the download starts and is read to its end (into a temporary
    file that is created and rewound, unless the repairer works in memory),
    the number of bytes read is the piece size, the node sent a hash and
    echoed a limit, the echoed limit passes the satellite-signature check,
    the hash passes [verifyPieceHash] against the hash of the bytes read,
    and both deferred closes succeed; the reader it returns then holds the
    bytes read. *)
Theorem downloadAndVerifyPiece_accepts_iff (limit : AddressedOrderLimit)
    (address : string) (r : option ReadCloser) :
  download limit address pieceSize = (r, None) ↔
  ∃ hash originalLimit,
    delivered ec transport es dataSize limit address hash originalLimit ∧
    VerifyOrderLimitSignature (satelliteSignee ec) originalLimit = None ∧
    verifyPieceHash (Some originalLimit) (Some hash)
      (pkcrypto_Sum (pieceBytes (transport limit address))) = None ∧
    downloader_Close (transport limit address) = None ∧
    ps_Close (transport limit address) = None ∧
    r = Some (if inmemory ec then InMemory (pieceBytes (transport limit address))
              else TempFile (pieceBytes (transport limit address))).
Proof.
  split; [apply downloadAndVerifyPiece_accepted|].
  intros (hash & ol & Hdel & Hsig & Hver & Hdc & Hps & ->).
  pose proof Hdel as (Hdial & Hdown & _).
  unfold downloadAndVerifyPiece. rewrite Hdial, Hdown.
  rewrite (downloadAndVerifyPiece_body_delivered _ _ _ _ _ _ _ _ Hdel).
  unfold verifyOrderLimitSignature. rewrite Hsig, Hver, Hdc, Hps. done.
Qed.

End DownloadAccepts.

(** ** What the steps of [Get] touch *)

Section GetSteps.
Context `{Sg : Signing} `{Cd : Codec}.
Variable ec : ECRepairer.
Variable transport : AddressedOrderLimit → string → DownloadEnv.
Variable limits : list (option AddressedOrderLimit).
Variable cachedIPsAndPorts : gmap NodeID string.
Variable es : ErasureScheme.
Variable dataSize : Z.

Local Abbreviation run := (exec ec transport limits cachedIPsAndPorts es dataSize).
Local Abbreviation step1 := (step ec transport limits cachedIPsAndPorts es dataSize).
Local Abbreviation fetch1 := (fetch ec transport cachedIPsAndPorts es dataSize).
Local Abbreviation fetched1 :=
  (fetched_step ec transport cachedIPsAndPorts es dataSize).

(** Only the return of a download changes the readers, the lists and the
    success counter. *)
Lemma step_quiet (a : action) (s s' : GetState) :
  step1 a s = Some s' → (∀ i, a ≠ Fetched i) →
  pieceReaders s' = pieceReaders s ∧ dials s' = dials s ∧
  failedPieces s' = failedPieces s ∧ errlist s' = errlist s ∧
  successfulPieces s' = successfulPieces s.
Proof.
  intros Hstep Ha. destruct a as [| |i|i|i]; simpl in Hstep.
  - unfold range_step in Hstep. repeat case_match; by simplify_eq.
  - by simplify_eq.
  - repeat case_match; simplify_eq. unfold loop_step.
    by repeat case_bool_decide.
  - repeat case_match; by simplify_eq.
  - by destruct (Ha i).
Qed.

Lemma step_Fetched_inv (i : nat) (s s' : GetState) :
  step1 (Fetched i) s = Some s' →
  ∃ limit, workers s !! i = Some Fetching ∧ limits !! i = Some (Some limit) ∧
           s' = fetched1 i limit s.
Proof.
  simpl. intros Hstep.
  destruct (workers s !! i) as [[]|] eqn:Hi; try done.
  destruct (limits !! i) as [[limit|]|] eqn:Hl; simplify_eq. eauto.
Qed.

(** A property of states that the quiet steps keep and the return of a
    download keeps, holds along every execution. *)
Lemma exec_preserves (P : GetState → Prop) (schedule : list action) (s s' : GetState) :
  (∀ a s1 s2, P s1 → step1 a s1 = Some s2 → (∀ i, a ≠ Fetched i) → P s2) →
  (∀ i limit s1, P s1 → workers s1 !! i = Some Fetching →
                 limits !! i = Some (Some limit) → P (fetched1 i limit s1)) →
  P s → run schedule s = Some s' → P s'.
Proof.
  intros Hquiet Hfetched. revert s.
  induction schedule as [|a schedule IH]; intros s HP Hrun; simpl in Hrun.
  - by simplify_eq.
  - destruct (step1 a s) as [s1|] eqn:Hstep; [|done].
    apply (IH s1); [|done].
    destruct a as [| |i|i|i]; try (by eapply Hquiet).
    apply step_Fetched_inv in Hstep as (limit & Hw & Hl & ->).
    by apply Hfetched.
Qed.

End GetSteps.

(** ** What [Get] hands to the decoder and whom it dials *)

Section GetOutputs.
Context `{Sg : Signing} `{Cd : Codec}.
Variable ec : ECRepairer.
Variable transport : AddressedOrderLimit → string → DownloadEnv.
Variable limits : list (option AddressedOrderLimit).
Variable cachedIPsAndPorts : gmap NodeID string.
Variable es : ErasureScheme.
Variable dataSize : Z.

Local Abbreviation run := (exec ec transport limits cachedIPsAndPorts es dataSize).
Local Abbreviation step1 := (step ec transport limits cachedIPsAndPorts es dataSize).
Local Abbreviation fetch1 := (fetch ec transport cachedIPsAndPorts es dataSize).
Local Abbreviation fetched1 :=
  (fetched_step ec transport cachedIPsAndPorts es dataSize).
Local Abbreviation served :=
  (served_address ec transport cachedIPsAndPorts es dataSize).

(** Every reader was stored by the worker of its slot, from a download that
    returned no error. *)
Lemma Get_readers_fetched (schedule : list action) (s : GetState) (i : nat)
    (r : option ReadCloser) :
  run schedule (Get_init limits) = Some s →
  pieceReaders s !! i = Some r →
  ∃ limit, limits !! i = Some (Some limit) ∧ (fetch1 limit).1 = (r, None).
Proof.
  intros Hrun. revert i r.
  apply (exec_preserves ec transport limits cachedIPsAndPorts es dataSize
           (λ s, ∀ i r, pieceReaders s !! i = Some r →
                        ∃ limit, limits !! i = Some (Some limit) ∧
                                 (fetch1 limit).1 = (r, None))
           schedule (Get_init limits) s); [| | |done].
  - intros a s1 s2 HP Hstep Ha.
    destruct (step_quiet ec transport limits cachedIPsAndPorts es dataSize
                a s1 s2 Hstep Ha) as (-> & _). done.
  - intros j limit s1 HP Hw Hl i r. unfold fetched_step.
    destruct (fetch1 limit) as [[r' [e|]] evs] eqn:Hfetch; simpl; [by apply HP|].
    destruct (decide (j = i)) as [->|Hne].
    + rewrite lookup_insert_eq. intros [= <-]. exists limit. by rewrite Hfetch.
    + rewrite lookup_insert_ne by done. apply HP.
  - intros i r. simpl. by rewrite lookup_empty.
Qed.

(** X2.  Every reader of the stream [Get] returns sits at the index of a
    non-nil limit and holds the bytes a download for that limit delivered:
    as many bytes as the piece size, whose hash is the hash the node signed,
    for the piece ID of the echoed limit, under a hash signature that
    validates against the uplink key of that limit and a limit signature
    that validates against the satellite. *)
Theorem Get_readers_verified (schedule : list action) (res : GetResult)
    (stream : DecodedStream) (i : nat) (r : option ReadCloser) :
  Get ec transport limits cachedIPsAndPorts es dataSize schedule = Some res →
  get_stream res = Some stream →
  ds_readers stream !! i = Some r →
  ∃ limit reader hash originalLimit,
    limits !! i = Some (Some limit) ∧ r = Some reader ∧
    ReadCloser_content reader = pieceBytes (transport limit (served limit)) ∧
    Z.of_nat (length (ReadCloser_content reader)) = Get_pieceSize es dataSize ∧
    sent_hash (transport limit (served limit)) = Some hash ∧
    sent_limit (transport limit (served limit)) = Some originalLimit ∧
    Hash hash = pkcrypto_Sum (ReadCloser_content reader) ∧
    PieceId originalLimit = Hash_PieceId hash ∧
    VerifyUplinkPieceHashSignature (UplinkPublicKey originalLimit) hash = None ∧
    VerifyOrderLimitSignature (satelliteSignee ec) originalLimit = None.
Proof.
  intros HGet Hstream Hr. unfold Get in HGet.
  case_bool_decide; [by simplify_eq|].
  case_bool_decide; [by simplify_eq|].
  destruct (run schedule (Get_init limits)) as [s|] eqn:Hrun; [|done].
  destruct (drained limits s); [|done]. injection HGet as <-.
  unfold Get_finish in Hstream.
  case_bool_decide; [done|].
  destruct (infectious_NewFEC _ _); [done|].
  injection Hstream as <-. simpl in Hr.
  destruct (Get_readers_fetched schedule s i r Hrun Hr) as (limit & Hl & Hfetch).
  rewrite fetch_served in Hfetch.
  apply downloadAndVerifyPiece_accepted in Hfetch
    as (hash & ol & Hdel & Hsig & Hver & _ & _ & ->).
  destruct Hdel as (_ & _ & _ & _ & Hsize & Hh & Hol).
  apply verifyPieceHash_accepts in Hver
    as (ol' & hash' & [= <-] & [= <-] & _ & Hid & Hhash & Hup).
  eexists limit, _, hash, ol. split; [done|]. split; [done|].
  by destruct (inmemory ec).
Qed.

End GetOutputs.

(** The two readers of the interleaved example hold the piece the nodes
    5 and 6 served. *)
Lemma Get_readers_verified_witness :
  ∃ res stream reader,
    @Get example_Signing example_Codec ex_ec ex_transport ex_get_limits ∅ ex_es
         ex_dataSize ex_schedule = Some res ∧
    get_stream res = Some stream ∧
    ds_readers stream !! 1%nat = Some (Some reader) ∧
    ReadCloser_content reader = ex_piece.
Proof.
  destruct (@Get example_Signing example_Codec ex_ec ex_transport ex_get_limits ∅ ex_es
              ex_dataSize ex_schedule) as [res|] eqn:HGet;
    [|by vm_compute in HGet].
  assert (Hfacts : ∃ stream r, get_stream res = Some stream ∧
                               ds_readers stream !! 1%nat = Some r).
  { vm_compute in HGet. injection HGet as <-. by eexists _, _. }
  destruct Hfacts as (stream & r & Hstream & Hr).
  destruct (@Get_readers_verified example_Signing example_Codec ex_ec ex_transport
              ex_get_limits ∅ ex_es ex_dataSize ex_schedule res stream 1 r
              HGet Hstream Hr)
    as (limit & reader & hash & ol & Hl & -> & Hcontent & _).
  exists res, stream, reader. split; [done|]. split; [done|]. split; [done|].
  injection Hl as <-. exact Hcontent.
Defined.

(** ** The retry and the dials *)

Section GetDials.
Context `{Sg : Signing} `{Cd : Codec}.
Variable ec : ECRepairer.
Variable transport : AddressedOrderLimit → string → DownloadEnv.
Variable limits : list (option AddressedOrderLimit).
Variable cachedIPsAndPorts : gmap NodeID string.
Variable es : ErasureScheme.
Variable dataSize : Z.

Local Abbreviation run := (exec ec transport limits cachedIPsAndPorts es dataSize).
Local Abbreviation fetch1 := (fetch ec transport cachedIPsAndPorts es dataSize).
Local Abbreviation first := (first_address cachedIPsAndPorts).
Local Abbreviation download :=
  (λ limit address,
     downloadAndVerifyPiece ec transport limit address (Get_pieceSize es dataSize)).

(** The shape of what a worker's download leaves: one dial, or two when the
    first address was a cached one and failed with a piece-store error. *)
Lemma fetch_cases (limit : AddressedOrderLimit) :
  let id := StorageNodeId (Limit limit) in
  let nodeAddress := Address (StorageNodeAddress limit) in
  (fetch1 limit = (download limit (first limit), [EvDial id (first limit)]) ∧
   (first limit = nodeAddress ∨
    Class_Has PiecestoreError (download limit (first limit)).2 = false)) ∨
  (fetch1 limit = (download limit nodeAddress,
                   [EvDial id (first limit); EvDial id nodeAddress]) ∧
   first limit ≠ nodeAddress ∧
   cachedIPsAndPorts !! id = Some (first limit) ∧
   Class_Has PiecestoreError (download limit (first limit)).2 = true).
Proof.
  intros id nodeAddress. unfold fetch, first_address. fold id nodeAddress.
  destruct (cachedIPsAndPorts !! id) as [a|] eqn:Hc; simpl.
  - case_bool_decide as He; simpl; [left; split; [done | by left]|].
    case_bool_decide as Hn; simpl; [left; split; [done | by left]|].
    destruct (Class_Has PiecestoreError _) eqn:Hcls.
    + right. done.
    + left. split; [done | by right].
  - left. split; [done | by left].
Qed.


(** Who is dialled, and how often, along an execution. *)
Lemma Get_dials_inv (schedule : list action) (s : GetState) :
  run schedule (Get_init limits) = Some s →
  (∀ ev, ev ∈ dials s →
     ∃ i limit address,
       limits !! i = Some (Some limit) ∧
       ev = EvDial (StorageNodeId (Limit limit)) address ∧
       (address = Address (StorageNodeAddress limit) ∨
        cachedIPsAndPorts !! StorageNodeId (Limit limit) = Some address)) ∧
  successfulPieces s + Z.of_nat (length (errlist s)) ≤ Z.of_nat (length (dials s)) ∧
  Z.of_nat (length (dials s))
  ≤ 2 * (successfulPieces s + Z.of_nat (length (errlist s))) ∧
  (cachedIPsAndPorts = ∅ →
   Z.of_nat (length (dials s)) = successfulPieces s + Z.of_nat (length (errlist s))).
Proof.
  apply (exec_preserves ec transport limits cachedIPsAndPorts es dataSize
           (λ s, (∀ ev, ev ∈ dials s →
                    ∃ i limit address,
                      limits !! i = Some (Some limit) ∧
                      ev = EvDial (StorageNodeId (Limit limit)) address ∧
                      (address = Address (StorageNodeAddress limit) ∨
                       cachedIPsAndPorts !! StorageNodeId (Limit limit) = Some address)) ∧
                 successfulPieces s + Z.of_nat (length (errlist s))
                 ≤ Z.of_nat (length (dials s)) ∧
                 Z.of_nat (length (dials s))
                 ≤ 2 * (successfulPieces s + Z.of_nat (length (errlist s))) ∧
                 (cachedIPsAndPorts = ∅ →
                  Z.of_nat (length (dials s))
                  = successfulPieces s + Z.of_nat (length (errlist s))))
           schedule (Get_init limits) s).
  - intros a s1 s2 HP Hstep Ha.
    destruct (step_quiet ec transport limits cachedIPsAndPorts es dataSize
                a s1 s2 Hstep Ha) as (_ & -> & _ & -> & ->). done.
  - intros j limit s1 (Hwho & Hlo & Hhi & Hnocache) Hw Hl.
    assert (Hevs : (∀ ev, ev ∈ (fetch1 limit).2 →
                      ∃ address, ev = EvDial (StorageNodeId (Limit limit)) address ∧
                        (address = Address (StorageNodeAddress limit) ∨
                         cachedIPsAndPorts !! StorageNodeId (Limit limit) = Some address)) ∧
                   (1 ≤ length (fetch1 limit).2 ≤ 2)%nat ∧
                   (cachedIPsAndPorts = ∅ → length (fetch1 limit).2 = 1%nat)).
    { destruct (fetch_cases limit) as [[Hf Hwhy]|(Hf & Hne & Hc & Hcls)];
        rewrite Hf; simpl.
      - split; [|split; [lia | done]].
        intros ev Hev. apply list_elem_of_singleton in Hev as ->.
        eexists. split; [done|]. unfold first_address.
        destruct (cachedIPsAndPorts !! _) as [a|] eqn:Hc; simpl; [|by left].
        destruct (_ && _); [by right | by left].
      - split; [|split; [lia|]].
        + intros ev Hev. apply elem_of_cons in Hev as [->|Hev].
          * eexists. split; [done|]. by right.
          * apply list_elem_of_singleton in Hev as ->.
            eexists. split; [done|]. by left.
        + intros Hempty. rewrite Hempty, lookup_empty in Hc. done. }
    destruct Hevs as (Hevs & Hlen & Hone).
    unfold fetched_step.
    destruct (fetch1 limit) as [[r [e|]] evs] eqn:Hfetch; simpl in *.
    + split; [|rewrite !length_app; simpl; split; [lia|split; [lia|]]].
      * intros ev Hev. apply elem_of_app in Hev as [Hev|Hev]; [by apply Hwho|].
        destruct (Hevs ev Hev) as (address & -> & Haddr). by exists j, limit, address.
      * intros Hempty. specialize (Hnocache Hempty). specialize (Hone Hempty). lia.
    + split; [|rewrite !length_app; simpl; split; [lia|split; [lia|]]].
      * intros ev Hev. apply elem_of_app in Hev as [Hev|Hev]; [by apply Hwho|].
        destruct (Hevs ev Hev) as (address & -> & Haddr). by exists j, limit, address.
      * intros Hempty. specialize (Hnocache Hempty). specialize (Hone Hempty). lia.
  - simpl. split; [|lia]. intros ev Hev. by apply elem_of_nil in Hev.
Qed.

(** X4.  Along every execution of [Get], each node dialled is the node of a
    non-nil limit, dialled at the address of that limit or at the address
    cached for that node; every download that has returned, successfully or
    not, accounts for one or two dials, and for exactly one when no address
    is cached. *)
Theorem Get_dials_accounted (schedule : list action) (s : GetState) :
  run schedule (Get_init limits) = Some s →
  (∀ ev, ev ∈ dials s →
     ∃ i limit address,
       limits !! i = Some (Some limit) ∧
       ev = EvDial (StorageNodeId (Limit limit)) address ∧
       (address = Address (StorageNodeAddress limit) ∨
        cachedIPsAndPorts !! StorageNodeId (Limit limit) = Some address)) ∧
  successfulPieces s + Z.of_nat (length (errlist s)) ≤ Z.of_nat (length (dials s)) ∧
  Z.of_nat (length (dials s))
  ≤ 2 * (successfulPieces s + Z.of_nat (length (errlist s))) ∧
  (cachedIPsAndPorts = ∅ →
   Z.of_nat (length (dials s)) = successfulPieces s + Z.of_nat (length (errlist s))).
Proof. apply Get_dials_inv. Qed.

End GetDials.


(** The interleaved example has no cache: four downloads returned, four dials. *)
Lemma Get_dials_accounted_witness :
  ∃ s,
    @exec example_Signing example_Codec ex_ec ex_transport ex_get_limits ∅ ex_es
          ex_dataSize ex_schedule (Get_init ex_get_limits) = Some s ∧
    Z.of_nat (length (dials s)) = successfulPieces s + Z.of_nat (length (errlist s)).
Proof.
  destruct (@exec example_Signing example_Codec ex_ec ex_transport ex_get_limits ∅ ex_es
              ex_dataSize ex_schedule (Get_init ex_get_limits)) as [s|] eqn:Hexec;
    [|by vm_compute in Hexec].
  exists s. split; [done|].
  by apply (@Get_dials_accounted example_Signing example_Codec ex_ec ex_transport
              ex_get_limits ∅ ex_es ex_dataSize ex_schedule s Hexec).
Defined.

(** ** The bookkeeping of limits in [Get] *)

Lemma count_claimed_insert (q q' : pc) (ws : list pc) (i : nat) :
  ws !! i = Some q →
  count_claimed (<[i := q']> ws)
  = count_claimed ws - (if claimed q then 1 else 0) + (if claimed q' then 1 else 0).
Proof.
  intros Hi. unfold count_claimed.
  pose proof (length_filter_insert (λ r, claimed r = true) ws i q q' Hi) as H.
  destruct (decide (claimed q = true)) as [Hq|Hq],
           (decide (claimed q' = true)) as [Hq'|Hq'];
    destruct (claimed q), (claimed q'); try done; lia.
Qed.

(** Counting along two lists of one length. *)
Lemma length_filter_pointwise {A B} (P : A → Prop) (Q : B → Prop)
    `{!∀ x, Decision (P x)} `{!∀ y, Decision (Q y)} (l : list A) (k : list B) :
  length l = length k →
  (∀ i x, l !! i = Some x → P x → ∃ y, k !! i = Some y ∧ Q y) →
  (length (filter P l) ≤ length (filter Q k))%nat.
Proof.
  revert k. induction l as [|x l IH]; intros k Hlen Hpt; [simpl; lia|].
  destruct k as [|y k]; [done|]. rewrite !filter_cons.
  assert (Htl : (length (filter P l) ≤ length (filter Q k))%nat).
  { apply IH; [by injection Hlen|]. intros i x' Hi Hx. apply (Hpt (S i) x' Hi Hx). }
  destruct (decide (P x)) as [Hx|Hx].
  - destruct (Hpt 0%nat x eq_refl Hx) as (y' & [= <-] & Hy).
    rewrite decide_True by done. simpl. lia.
  - destruct (decide (Q y)); simpl; lia.
Qed.

Section GetBookkeeping.
Context `{Sg : Signing} `{Cd : Codec}.
Variable ec : ECRepairer.
Variable transport : AddressedOrderLimit → string → DownloadEnv.
Variable limits : list (option AddressedOrderLimit).
Variable cachedIPsAndPorts : gmap NodeID string.
Variable es : ErasureScheme.
Variable dataSize : Z.

Local Abbreviation Inv := (Get_inv ec transport limits cachedIPsAndPorts es dataSize).
Local Abbreviation Acct := (Get_acct limits es).
Local Abbreviation run := (exec ec transport limits cachedIPsAndPorts es dataSize).
Local Abbreviation step1 := (step ec transport limits cachedIPsAndPorts es dataSize).
Local Abbreviation fetch1 := (fetch ec transport cachedIPsAndPorts es dataSize).
Local Abbreviation fetched1 :=
  (fetched_step ec transport cachedIPsAndPorts es dataSize).

(** No step takes a piece away, brings [k] back into reach, revives the
    context or moves the range loop back. *)
Lemma step_monotone (a : action) (s s' : GetState) :
  step1 a s = Some s' →
  successfulPieces s ≤ successfulPieces s' ∧
  reachable_pieces s' ≤ reachable_pieces s ∧
  (ctxDone s = true → ctxDone s' = true) ∧
  (next s ≤ next s')%nat.
Proof.
  unfold reachable_pieces.
  intros Hstep. destruct a as [| |i|i|i]; simpl in Hstep.
  - unfold range_step in Hstep.
    repeat case_match; simplify_eq; simpl; repeat split; first [done | lia].
  - simplify_eq. simpl. repeat split; first [done | lia].
  - repeat case_match; simplify_eq. unfold loop_step.
    repeat case_bool_decide; simpl; repeat split; first [done | lia].
  - repeat case_match; simplify_eq; simpl; repeat split; first [done | lia].
  - repeat case_match; simplify_eq. unfold fetched_step.
    destruct (fetch1 _) as [[r [e|]] evs]; simpl; repeat split; first [done | lia].
Qed.

Lemma exec_monotone (schedule : list action) (s s' : GetState) :
  run schedule s = Some s' →
  successfulPieces s ≤ successfulPieces s' ∧
  reachable_pieces s' ≤ reachable_pieces s ∧
  (ctxDone s = true → ctxDone s' = true) ∧
  (next s ≤ next s')%nat.
Proof.
  revert s. induction schedule as [|a schedule IH]; intros s Hrun; simpl in Hrun.
  - simplify_eq. repeat split; try done; lia.
  - destruct (step1 a s) as [s1|] eqn:Hstep; [|done].
    destruct (step_monotone a s s1 Hstep) as (H1 & H2 & H3 & H4).
    destruct (IH s1 Hrun) as (H1' & H2' & H3' & H4').
    repeat split; try lia. tauto.
Qed.

Lemma Get_acct_init : Acct (Get_init limits).
Proof.
  split; simpl.
  - unfold count_claimed.
    assert (filter (λ p, claimed p = true) (replicate (length limits) Idle) = []) as ->;
      [|simpl; lia].
    induction (length limits) as [|n IH]; [done|].
    simpl. by rewrite filter_cons, decide_False.
  - intros i p Hp Hne. apply lookup_replicate_1 in Hp as [-> _]. done.
  - intros i limit Hi. lia.
  - intros i Hi. apply lookup_replicate_1 in Hi as [? _]. done.
  - intros i Hi. apply lookup_replicate_1 in Hi as [? _]. done.
Qed.

(** The bookkeeping after one worker moved from [q] to [q']. *)
Lemma Get_acct_move (s s' : GetState) (j : nat) (q q' : pc) :
  Acct s →
  workers s !! j = Some q →
  workers s' = <[j := q']> (workers s) →
  q' ≠ Idle →
  (∃ limit, limits !! j = Some (Some limit)) →
  unusedLimits s'
  = unusedLimits s + (if claimed q then 1 else 0) - (if claimed q' then 1 else 0) →
  (next s' = next s ∨ (next s' = S (next s) ∧ j = next s)) →
  successfulPieces s ≤ successfulPieces s' →
  reachable_pieces s' ≤ reachable_pieces s →
  (ctxDone s = true → ctxDone s' = true) →
  (q' = Abstained →
   RequiredCount es ≤ successfulPieces s' ∨ reachable_pieces s' < RequiredCount es) →
  (q' = Refused → ctxDone s' = true) →
  Acct s'.
Proof.
  intros [] Hj Hw Hq' Hlim Hun Hnext Hsucc Hreach Hctx Habs Href.
  assert (Hjlt : (j < length (workers s))%nat) by (by apply lookup_lt_Some in Hj).
  assert (Hlook : ∀ i p, workers s' !! i = Some p →
                         (i = j ∧ p = q') ∨ (i ≠ j ∧ workers s !! i = Some p)).
  { intros i p. rewrite Hw. destruct (decide (j = i)) as [->|Hne].
    - rewrite list_lookup_insert_eq by done. intros [= <-]. by left.
    - rewrite list_lookup_insert_ne by done. intros ?. right. split; [congruence|done]. }
  split.
  - rewrite Hw, (count_claimed_insert _ _ _ _ Hj), Hun. lia.
  - intros i p Hp Hne. destruct (Hlook i p Hp) as [[-> ->]|[_ Hold]]; [done|].
    by eapply acct_slots0.
  - intros i limit Hi Hl Hidle.
    destruct (Hlook i Idle Hidle) as [[-> Heq]|[Hne Hold]]; [congruence|].
    apply (acct_dispatched0 i limit); [|done|done].
    destruct Hnext as [Hn|[Hn Hjn]]; rewrite Hn in Hi; [done | lia].
  - intros i Hi. destruct (Hlook i Abstained Hi) as [[-> Heq]|[_ Hold]].
    + by apply Habs.
    + destruct (acct_abstained0 i Hold); [left|right]; lia.
  - intros i Hi. destruct (Hlook i Refused Hi) as [[-> Heq]|[_ Hold]].
    + by apply Href.
    + apply Hctx. by eapply acct_refused0.
Qed.

Lemma Get_acct_step (a : action) (s s' : GetState) :
  Inv s → Acct s → step1 a s = Some s' → Acct s'.
Proof.
  intros HI HA Hstep.
  pose proof (step_monotone a s s' Hstep) as (Hsucc & Hreach & Hctx & _).
  destruct a as [| |i|i|i]; simpl in Hstep.
  - unfold range_step in Hstep.
    destruct (limits !! next s) as [[limit|]|] eqn:Hl; [| |done].
    + apply lookup_lt_Some in Hl as Hlt.
      pose proof (inv_idle _ _ _ _ _ _ _ HI (next s) ltac:(lia) Hlt) as Hidle.
      destruct (ctxDone s) eqn:Hdone.
      * simplify_eq.
        eapply (Get_acct_move s _ (next s) Idle Refused); try done; simpl; eauto; lia.
      * case_bool_decide; [|done]. simplify_eq.
        eapply (Get_acct_move s _ (next s) Idle AtLoop); try done; simpl; eauto; lia.
    + simplify_eq. destruct HA. split; simpl; try done.
      intros i limit Hi Hli.
      destruct (decide (i = next s)) as [->|Hne]; [congruence|].
      apply (acct_dispatched0 i limit); [lia | done].
  - simplify_eq. destruct HA. split; simpl; try done.
  - destruct (workers s !! i) as [[]|] eqn:Hi; simplify_eq.
    destruct (acct_slots _ _ _ HA i AtLoop Hi ltac:(done)) as [limit Hl].
    unfold loop_step in *.
    case_bool_decide as Henough.
    { eapply (Get_acct_move s _ i AtLoop Abstained); try done; simpl; eauto; try lia;
        try (intros _; left; lia). }
    case_bool_decide as Hunreach.
    { eapply (Get_acct_move s _ i AtLoop Abstained); try done; simpl; eauto; try lia;
        try (intros _; by right). }
    case_bool_decide as Hbusy.
    { eapply (Get_acct_move s _ i AtLoop Waiting); try done; simpl; eauto; lia. }
    eapply (Get_acct_move s _ i AtLoop Fetching); try done; simpl; eauto; lia.
  - destruct (workers s !! i) as [[]|] eqn:Hi; simplify_eq.
    destruct (acct_slots _ _ _ HA i Waiting Hi ltac:(done)) as [limit Hl].
    eapply (Get_acct_move s _ i Waiting AtLoop); try done; simpl; eauto; lia.
  - destruct (workers s !! i) as [[]|] eqn:Hi; try done.
    destruct (limits !! i) as [[limit|]|] eqn:Hl; simplify_eq.
    eapply (Get_acct_move s _ i Fetching Finished); try done; eauto.
    + unfold fetched_step. by destruct (fetch1 _) as [[r [e|]] evs].
    + unfold fetched_step. destruct (fetch1 _) as [[r [e|]] evs]; simpl; lia.
    + left. unfold fetched_step. by destruct (fetch1 _) as [[r [e|]] evs].
Qed.

Lemma Get_acct_exec (schedule : list action) (s s' : GetState) :
  Inv s → Acct s → run schedule s = Some s' → Acct s'.
Proof.
  revert s. induction schedule as [|a schedule IH]; intros s HI HA Hrun; simpl in Hrun.
  - by simplify_eq.
  - destruct (step1 a s) as [s1|] eqn:Hstep; [|done].
    apply (IH s1); [by eapply Get_inv_step | by eapply Get_acct_step | done].
Qed.

(** Workers that claimed a download are workers of non-nil slots. *)
Lemma count_claimed_le (s : GetState) :
  Inv s → Acct s → count_claimed (workers s) ≤ nonNilCount limits.
Proof.
  intros HI HA. rewrite nonNilCount_filter. unfold count_claimed.
  apply inj_le.
  apply (length_filter_pointwise (λ p, claimed p = true) is_Some).
  - apply (inv_length _ _ _ _ _ _ _ HI).
  - intros i p Hp Hc.
    destruct (acct_slots _ _ _ HA i p Hp) as [limit Hl]; [by intros ->|].
    exists (Some limit). split; [done | eauto].
Qed.

End GetBookkeeping.

(** ** When [Get] gives up *)

Section GetGivesUp.
Context `{Sg : Signing} `{Cd : Codec}.
Variable ec : ECRepairer.
Variable transport : AddressedOrderLimit → string → DownloadEnv.
Variable limits : list (option AddressedOrderLimit).
Variable cachedIPsAndPorts : gmap NodeID string.
Variable es : ErasureScheme.
Variable dataSize : Z.
Hypothesis k_nonneg : 0 ≤ RequiredCount es.

Local Abbreviation Inv := (Get_inv ec transport limits cachedIPsAndPorts es dataSize).
Local Abbreviation Acct := (Get_acct limits es).
Local Abbreviation run := (exec ec transport limits cachedIPsAndPorts es dataSize).

Lemma Get_reachable_invs (schedule : list action) (s : GetState) :
  run schedule (Get_init limits) = Some s → Inv s ∧ Acct s.
Proof.
  intros Hrun. split.
  - by eapply Get_inv_reachable.
  - eapply Get_acct_exec; [by apply Get_inv_init | apply Get_acct_init | done].
Qed.

(** X5.  Along every execution of [Get]: [unusedLimits] is never negative and
    is the number of non-nil limits no worker has claimed; the number of
    collected pieces never decreases; the number of pieces still within
    reach (collected, in flight and untried) never increases and starts at
    the number of non-nil limits.  So once it has dropped below [k], as
    the test of line 108 finds, fewer than [k] pieces are collected in every
    later state. *)
Theorem Get_out_of_reach_is_final (schedule1 schedule2 : list action)
    (s s' : GetState) :
  run schedule1 (Get_init limits) = Some s →
  run schedule2 s = Some s' →
  0 ≤ unusedLimits s' ∧
  unusedLimits s' = nonNilCount limits - count_claimed (workers s') ∧
  successfulPieces s ≤ successfulPieces s' ∧
  reachable_pieces s' ≤ reachable_pieces s ∧
  reachable_pieces s ≤ nonNilCount limits ∧
  (reachable_pieces s < RequiredCount es → successfulPieces s' < RequiredCount es).
Proof.
  intros Hrun1 Hrun2.
  destruct (Get_reachable_invs schedule1 s Hrun1) as [HI HA].
  assert (HI' : Inv s') by (by eapply Get_inv_exec).
  assert (HA' : Acct s').
  { by apply (Get_acct_exec ec transport limits cachedIPsAndPorts es dataSize
                schedule2 s s'). }
  destruct (exec_monotone ec transport limits cachedIPsAndPorts es dataSize
              schedule1 _ _ Hrun1) as (_ & Hr0 & _).
  destruct (exec_monotone ec transport limits cachedIPsAndPorts es dataSize
              schedule2 _ _ Hrun2) as (Hs & Hr & _).
  pose proof (count_claimed_le ec transport limits cachedIPsAndPorts es dataSize
                s' HI' HA') as Hle.
  pose proof (acct_unused _ _ _ HA') as Hun.
  pose proof (inv_bound _ _ _ _ _ _ _ HI') as [Hpos _].
  unfold reachable_pieces in *. simpl in Hr0.
  repeat split; try lia.
Qed.

Lemma running_zero_no_slot (s : GetState) (i : nat) (p : pc) :
  running s = 0 → workers s !! i = Some p → holds_slot p = false.
Proof.
  intros Hrun Hi. destruct (holds_slot p) eqn:Hp; [|done].
  assert (Hin : p ∈ filter (λ q, holds_slot q = true) (workers s)).
  { apply list_elem_of_filter. split; [done|]. by eapply list_elem_of_lookup_2. }
  unfold running in Hrun.
  destruct (filter (λ q, holds_slot q = true) (workers s));
    [by apply elem_of_nil in Hin | simpl in Hrun; lia].
Qed.

(** X6.  [Get] gives up only for want of limits.  When [limiter.Wait()]
    returns with fewer than [k] pieces collected and the context was not
    done, no download is in flight and the collected pieces together with
    the limits no worker has tried are fewer than [k]. *)
Theorem Get_gives_up_only_out_of_reach (schedule : list action) (s : GetState) :
  run schedule (Get_init limits) = Some s →
  drained limits s = true →
  ctxDone s = false →
  successfulPieces s < RequiredCount es →
  inProgress s = 0 ∧
  0 ≤ unusedLimits s ∧
  successfulPieces s + unusedLimits s < RequiredCount es.
Proof.
  intros Hrun Hdrained Hctx Hshort.
  destruct (Get_reachable_invs schedule s Hrun) as [HI HA].
  apply andb_true_iff in Hdrained as [Hnext Hrunning].
  apply bool_decide_eq_true in Hnext, Hrunning.
  pose proof (count_claimed_le ec transport limits cachedIPsAndPorts es dataSize
                s HI HA) as Hle.
  pose proof (acct_unused _ _ _ HA) as Hun.
  assert (Hin : inProgress s = 0).
  { rewrite (inv_inProgress _ _ _ _ _ _ _ HI). unfold count_pc.
    destruct (filter (λ q, q = Fetching) (workers s)) as [|p l] eqn:Hf; [done|].
    assert (Hp : p ∈ filter (λ q, q = Fetching) (workers s)) by (rewrite Hf; left).
    apply list_elem_of_filter in Hp as [-> Hp].
    apply list_elem_of_lookup in Hp as [i Hi].
    by pose proof (running_zero_no_slot s i Fetching Hrunning Hi). }
  split; [done|]. split; [lia|].
  destruct (decide (Abstained ∈ workers s)) as [Habs|Hnone].
  - apply list_elem_of_lookup in Habs as [i Hi].
    destruct (acct_abstained _ _ _ HA i Hi) as [?|Hreach]; [lia|].
    unfold reachable_pieces in Hreach. lia.
  - assert (Hall : (length (filter is_Some limits)
                    ≤ length (filter (λ p, claimed p = true) (workers s)))%nat).
    { apply (length_filter_pointwise is_Some (λ p, claimed p = true)).
      - symmetry. apply (inv_length _ _ _ _ _ _ _ HI).
      - intros i l Hl [limit ->].
        destruct (workers s !! i) as [p|] eqn:Hp.
        + exists p. split; [done|].
          pose proof (running_zero_no_slot s i p Hrunning Hp) as Hslot.
          destruct p; try done.
          * exfalso. apply (acct_dispatched _ _ _ HA i limit); [|done|done].
            apply lookup_lt_Some in Hl. lia.
          * pose proof (acct_refused _ _ _ HA i Hp). congruence.
          * exfalso. apply Hnone. by eapply list_elem_of_lookup_2.
        + apply lookup_ge_None in Hp. apply lookup_lt_Some in Hl.
          rewrite (inv_length _ _ _ _ _ _ _ HI) in Hp. lia. }
    rewrite nonNilCount_filter in Hun, Hle. unfold count_claimed in Hun, Hle. lia.
Qed.

End GetGivesUp.

(** ** When [Get] succeeds *)

(** Counting the elements of a list by their indices. *)
Lemma length_filter_indices {A} (f : A → bool) (pre l : list A) :
  length (filter (λ i, match (pre ++ l) !! i with Some x => f x | None => false end = true)
                 (seq (length pre) (length l)))
  = length (filter (λ x, f x = true) l).
Proof.
  revert pre. induction l as [|x l IH]; intros pre; [done|].
  simpl. rewrite !filter_cons, list_lookup_middle by done.
  specialize (IH (pre ++ [x])). rewrite <- app_assoc, length_app in IH. simpl in IH.
  replace (length pre + 1)%nat with (S (length pre)) in IH by lia.
  destruct (decide (f x = true)); simpl; by rewrite IH.
Qed.

(** Two counts against two counts over one list of indices. *)
Lemma length_filter_sum_le (P1 P2 Q1 Q2 : nat → Prop)
    `{!∀ i, Decision (P1 i)} `{!∀ i, Decision (P2 i)}
    `{!∀ i, Decision (Q1 i)} `{!∀ i, Decision (Q2 i)} (l : list nat) :
  (∀ i, i ∈ l → P1 i → Q2 i) →
  (∀ i, i ∈ l → P2 i → Q2 i) →
  (∀ i, i ∈ l → P1 i → P2 i → Q1 i) →
  (length (filter P1 l) + length (filter P2 l)
   ≤ length (filter Q1 l) + length (filter Q2 l))%nat.
Proof.
  intros Hp1 Hp2 Hp12. induction l as [|i l IH]; [done|].
  assert (Htl : (length (filter P1 l) + length (filter P2 l)
                 ≤ length (filter Q1 l) + length (filter Q2 l))%nat).
  { apply IH; intros j Hj; [apply Hp1 | apply Hp2 | apply Hp12]; by right. }
  assert (Hi : i ∈ i :: l) by left.
  specialize (Hp1 i Hi). specialize (Hp2 i Hi). specialize (Hp12 i Hi).
  rewrite !filter_cons.
  destruct (decide (P1 i)) as [p1|p1], (decide (P2 i)) as [p2|p2],
           (decide (Q1 i)) as [q1|q1], (decide (Q2 i)) as [q2|q2];
    simpl; first [lia | exfalso; auto].
Qed.

(** The readers, counted by index. *)
Lemma size_readers_indices (m : gmap nat (option ReadCloser)) (n : nat) :
  (∀ i, is_Some (m !! i) → (i < n)%nat) →
  size m = length (filter (λ i, is_Some (m !! i)) (seq 0 n)).
Proof.
  intros Hb. rewrite <- (size_dom (D := gset nat)).
  rewrite <- (size_list_to_set (C := gset nat)
                (filter (λ i, is_Some (m !! i)) (seq 0 n)))
    by apply NoDup_filter, NoDup_seq.
  f_equal. apply set_eq. intros i.
  rewrite elem_of_dom, elem_of_list_to_set, list_elem_of_filter, elem_of_seq.
  split.
  - intros Hi. split; [done|]. specialize (Hb i Hi). lia.
  - by intros [Hi _].
Qed.

Section GetSucceeds.
Context `{Sg : Signing} `{Cd : Codec}.
Variable ec : ECRepairer.
Variable transport : AddressedOrderLimit → string → DownloadEnv.
Variable limits : list (option AddressedOrderLimit).
Variable cachedIPsAndPorts : gmap NodeID string.
Variable es : ErasureScheme.
Variable dataSize : Z.

Local Abbreviation Inv := (Get_inv ec transport limits cachedIPsAndPorts es dataSize).
Local Abbreviation Acct := (Get_acct limits es).
Local Abbreviation run := (exec ec transport limits cachedIPsAndPorts es dataSize).
Local Abbreviation step1 := (step ec transport limits cachedIPsAndPorts es dataSize).
Local Abbreviation fetch1 := (fetch ec transport cachedIPsAndPorts es dataSize).
Local Abbreviation supplies :=
  (supplies_piece ec transport limits cachedIPsAndPorts es dataSize).

(** Only the cancellation of the context changes [ctxDone]. *)
Lemma step_keeps_ctxDone (a : action) (s s' : GetState) :
  step1 a s = Some s' → a ≠ CtxCancel → ctxDone s' = ctxDone s.
Proof.
  intros Hstep Ha. destruct a as [| |i|i|i]; simpl in Hstep.
  - unfold range_step in Hstep. repeat case_match; by simplify_eq.
  - done.
  - repeat case_match; simplify_eq. unfold loop_step.
    by repeat case_bool_decide.
  - repeat case_match; by simplify_eq.
  - repeat case_match; simplify_eq. unfold fetched_step.
    by destruct (fetch1 _) as [[r [e|]] evs].
Qed.

Lemma exec_keeps_ctxDone (schedule : list action) (s s' : GetState) :
  run schedule s = Some s' → CtxCancel ∉ schedule → ctxDone s' = ctxDone s.
Proof.
  revert s. induction schedule as [|a schedule IH]; intros s Hrun Hno; simpl in Hrun.
  - by simplify_eq.
  - destruct (step1 a s) as [s1|] eqn:Hstep; [|done].
    apply not_elem_of_cons in Hno as [Ha Hno].
    rewrite (IH s1 Hrun Hno). by eapply step_keeps_ctxDone.
Qed.

(** With no download in flight, the slots that can supply a piece and the
    workers that claimed a download are covered by the readers and the
    non-nil limits. *)
Lemma suppliers_accounted (s : GetState) :
  Inv s → Acct s → inProgress s = 0 →
  Z.of_nat (suppliers ec transport limits cachedIPsAndPorts es dataSize)
  + count_claimed (workers s)
  ≤ successfulPieces s + nonNilCount limits.
Proof.
  intros HI HA Hin.
  pose proof (non_nil_indices [] limits) as Hnn.
  pose proof (length_filter_indices claimed [] (workers s)) as Hcl.
  cbn [app length] in Hnn, Hcl.
  rewrite (inv_length _ _ _ _ _ _ _ HI) in Hcl.
  assert (Hrd : size (pieceReaders s)
                = length (filter (λ i, is_Some (pieceReaders s !! i))
                                 (seq 0 (length limits)))).
  { apply size_readers_indices. intros i Hi.
    apply (inv_readers _ _ _ _ _ _ _ HI) in Hi as (limit & Hl & _).
    by apply lookup_lt_Some in Hl. }
  rewrite (inv_successful _ _ _ _ _ _ _ HI), nonNilCount_filter.
  unfold suppliers, count_claimed. rewrite Hrd, <- Hnn, <- Hcl.
  assert (Hnofetch : ∀ i, workers s !! i ≠ Some Fetching).
  { intros i Hi.
    pose proof (inv_inProgress _ _ _ _ _ _ _ HI) as Hcount.
    rewrite Hin in Hcount. unfold count_pc in Hcount.
    assert (Hp : Fetching ∈ filter (λ q, q = Fetching) (workers s)).
    { apply list_elem_of_filter. split; [done|]. by eapply list_elem_of_lookup_2. }
    destruct (filter (λ q, q = Fetching) (workers s));
      [by apply elem_of_nil in Hp | simpl in Hcount; lia]. }
  assert (Ha : ∀ i, i ∈ seq 0 (length limits) → supplies i = true →
                    is_Some (default None (limits !! i))).
  { intros i _. unfold supplies_piece.
    destruct (limits !! i) as [[limit|]|]; simpl; eauto; done. }
  assert (Hb : ∀ i, i ∈ seq 0 (length limits) →
                    match workers s !! i with
                    | Some x => claimed x | None => false end = true →
                    is_Some (default None (limits !! i))).
  { intros i _ Hc.
    destruct (workers s !! i) as [p|] eqn:Hp; [|done].
    destruct (acct_slots _ _ _ HA i p Hp) as [limit Hl]; [by intros ->|].
    rewrite Hl. simpl. eauto. }
  assert (Hc : ∀ i, i ∈ seq 0 (length limits) → supplies i = true →
                    match workers s !! i with
                    | Some x => claimed x | None => false end = true →
                    is_Some (pieceReaders s !! i)).
  { intros i _ Hsup Hc. unfold supplies_piece in Hsup.
    destruct (limits !! i) as [[limit|]|] eqn:Hl; try done.
    destruct (workers s !! i) as [p|] eqn:Hp; [|done].
    apply (inv_readers _ _ _ _ _ _ _ HI).
    exists limit. split; [done|].
    destruct (fetch_err ec transport cachedIPsAndPorts es dataSize limit) eqn:Hf;
      [done|].
    split; [|done].
    destruct p; try done. by destruct (Hnofetch i). }
  pose proof (length_filter_sum_le _ _ _ _ _ Ha Hb Hc) as Hsum. lia.
Qed.

(** A complete execution under a context that is not done ends short of
    [k] pieces only with the limits exhausted. *)
Lemma drained_short_exhausted (s : GetState) :
  Inv s → Acct s →
  drained limits s = true → ctxDone s = false →
  successfulPieces s < RequiredCount es →
  inProgress s = 0 ∧ successfulPieces s + unusedLimits s < RequiredCount es.
Proof.
  intros HI HA Hdrained Hctx Hshort.
  apply andb_true_iff in Hdrained as [Hnext Hrunning].
  apply bool_decide_eq_true in Hnext, Hrunning.
  pose proof (count_claimed_le ec transport limits cachedIPsAndPorts es dataSize
                s HI HA) as Hle.
  pose proof (acct_unused _ _ _ HA) as Hun.
  assert (Hslot : ∀ i p, workers s !! i = Some p → holds_slot p = false).
  { intros i p Hi. destruct (holds_slot p) eqn:Hp; [|done].
    assert (Hmem : p ∈ filter (λ q, holds_slot q = true) (workers s)).
    { apply list_elem_of_filter. split; [done|]. by eapply list_elem_of_lookup_2. }
    unfold running in Hrunning.
    destruct (filter (λ q, holds_slot q = true) (workers s));
      [by apply elem_of_nil in Hmem | simpl in Hrunning; lia]. }
  assert (Hin : inProgress s = 0).
  { rewrite (inv_inProgress _ _ _ _ _ _ _ HI). unfold count_pc.
    destruct (filter (λ q, q = Fetching) (workers s)) as [|p l] eqn:Hf; [done|].
    assert (Hp : p ∈ filter (λ q, q = Fetching) (workers s)) by (rewrite Hf; left).
    apply list_elem_of_filter in Hp as [-> Hp].
    apply list_elem_of_lookup in Hp as [i Hi].
    by pose proof (Hslot i Fetching Hi). }
  split; [done|].
  destruct (decide (Abstained ∈ workers s)) as [Habs|Hnone].
  - apply list_elem_of_lookup in Habs as [i Hi].
    destruct (acct_abstained _ _ _ HA i Hi) as [?|Hreach]; [lia|].
    unfold reachable_pieces in Hreach. lia.
  - assert (Hall : (length (filter is_Some limits)
                    ≤ length (filter (λ p, claimed p = true) (workers s)))%nat).
    { apply (length_filter_pointwise is_Some (λ p, claimed p = true)).
      - symmetry. apply (inv_length _ _ _ _ _ _ _ HI).
      - intros i l Hl [limit ->].
        destruct (workers s !! i) as [p|] eqn:Hp.
        + exists p. split; [done|].
          pose proof (Hslot i p Hp) as Hfree.
          destruct p; try done.
          * exfalso. apply (acct_dispatched _ _ _ HA i limit); [|done|done].
            apply lookup_lt_Some in Hl. lia.
          * pose proof (acct_refused _ _ _ HA i Hp). congruence.
          * exfalso. apply Hnone. by eapply list_elem_of_lookup_2.
        + apply lookup_ge_None in Hp. apply lookup_lt_Some in Hl.
          rewrite (inv_length _ _ _ _ _ _ _ HI) in Hp. lia. }
    rewrite nonNilCount_filter in Hun, Hle. unfold count_claimed in Hun, Hle. lia.
Qed.

(** X13.  [Get] succeeds whenever enough nodes can supply their piece.  When
    the limits pass the configuration checks and at least [k] slots can
    supply a piece that passes every check, every execution of [Get] that
    returns without the context having been cancelled collects [k] pieces,
    whatever the interleaving of the workers and whatever the other nodes
    answer: it does not return an [irreparableError], its error is what
    [infectious.NewFEC] answers, and with a nil error the stream has exactly
    [k] readers. *)
Theorem Get_succeeds_with_enough_suppliers (schedule : list action) (r : GetResult) :
  Z.of_nat (length limits) = TotalCount es →
  0 ≤ RequiredCount es ≤ nonNilCount limits →
  RequiredCount es
  ≤ Z.of_nat (suppliers ec transport limits cachedIPsAndPorts es dataSize) →
  CtxCancel ∉ schedule →
  Get ec transport limits cachedIPsAndPorts es dataSize schedule = Some r →
  get_err r
  = Class_Wrap RepairerError (infectious_NewFEC (RequiredCount es) (TotalCount es)) ∧
  (get_err r = None →
   ∃ stream, get_stream r = Some stream ∧
             Z.of_nat (size (ds_readers stream)) = RequiredCount es ∧
             ds_required stream = RequiredCount es ∧
             ds_total stream = TotalCount es).
Proof.
  intros Hlen [Hk Hnn] Henough Hno HGet.
  apply (Get_returns ec transport limits cachedIPsAndPorts es dataSize schedule _ Hlen Hnn)
    in HGet as (s & Hrun & Hdrained & ->).
  pose proof (Get_inv_reachable ec transport limits cachedIPsAndPorts es dataSize
                Hk schedule s Hrun) as HI.
  assert (HA : Acct s).
  { apply (Get_acct_exec ec transport limits cachedIPsAndPorts es dataSize
             schedule (Get_init limits) s); [by apply Get_inv_init | | done].
    apply Get_acct_init. }
  assert (Hctx : ctxDone s = false) by apply (exec_keeps_ctxDone schedule _ _ Hrun Hno).
  assert (Hfull : RequiredCount es ≤ successfulPieces s).
  { destruct (decide (RequiredCount es ≤ successfulPieces s)) as [|Hshort]; [done|].
    destruct (drained_short_exhausted s HI HA Hdrained Hctx ltac:(lia)) as [Hin Hout].
    pose proof (suppliers_accounted s HI HA Hin) as Hsup.
    pose proof (acct_unused _ _ _ HA) as Hun. lia. }
  pose proof (inv_bound _ _ _ _ _ _ _ HI) as [Hpos Hbound].
  pose proof (inv_successful _ _ _ _ _ _ _ HI) as Hsize.
  unfold Get_finish. rewrite bool_decide_eq_false_2 by lia.
  destruct (infectious_NewFEC (RequiredCount es) (TotalCount es)) as [e|]; simpl.
  - split; [done|]. intros Hnone. exfalso.
    destruct e; try done. by case_decide.
  - split; [done|]. intros _. eexists. split; [done|]. simpl.
    repeat split. lia.
Qed.

End GetSucceeds.

(** In the interleaved example the nodes 5 and 6 supply their piece, which
    is enough for the 2-of-4 scheme. *)
Lemma Get_succeeds_with_enough_suppliers_witness :
  ∃ r stream,
    @Get example_Signing example_Codec ex_ec ex_transport ex_get_limits ∅ ex_es
         ex_dataSize ex_schedule = Some r ∧
    get_err r = None ∧ get_stream r = Some stream ∧
    Z.of_nat (size (ds_readers stream)) = 2.
Proof.
  destruct (@Get example_Signing example_Codec ex_ec ex_transport ex_get_limits ∅ ex_es
              ex_dataSize ex_schedule) as [r|] eqn:HGet;
    [|by vm_compute in HGet].
  destruct (@Get_succeeds_with_enough_suppliers example_Signing example_Codec ex_ec
              ex_transport ex_get_limits ∅ ex_es ex_dataSize ex_schedule r)
    as [Herr Hstream].
  - reflexivity.
  - vm_compute. split; discriminate.
  - vm_compute. discriminate.
  - unfold ex_schedule. rewrite !not_elem_of_cons.
    repeat split; try discriminate. apply not_elem_of_nil.
  - exact HGet.
  - destruct (Hstream Herr) as (stream & Hs & Hsize & _).
    by exists r, stream.
Defined.

(** In the short example the third download fails and leaves one piece and
    no untried limit for a scheme that requires two. *)
Lemma Get_out_of_reach_is_final_witness :
  ∃ s s',
    @exec example_Signing example_Codec ex_ec ex_transport ex_short_limits ∅ ex_es
          ex_dataSize
          [Range; Loop 0; Fetched 0; Range; Loop 1; Fetched 1; Range; Loop 2; Fetched 2]%nat
          (Get_init ex_short_limits) = Some s ∧
    @exec example_Signing example_Codec ex_ec ex_transport ex_short_limits ∅ ex_es
          ex_dataSize [Range] s = Some s' ∧
    reachable_pieces s < 2 ∧ successfulPieces s' < 2.
Proof.
  destruct (@exec example_Signing example_Codec ex_ec ex_transport ex_short_limits ∅ ex_es
              ex_dataSize
              [Range; Loop 0; Fetched 0; Range; Loop 1; Fetched 1; Range; Loop 2;
               Fetched 2]%nat (Get_init ex_short_limits)) as [s|] eqn:Hrun1;
    [|by vm_compute in Hrun1].
  assert (Hreach : reachable_pieces s < 2).
  { vm_compute in Hrun1. injection Hrun1 as <-. by vm_compute. }
  destruct (@exec example_Signing example_Codec ex_ec ex_transport ex_short_limits ∅ ex_es
              ex_dataSize [Range] s) as [s'|] eqn:Hrun2.
  - exists s, s'. split; [done|]. split; [done|]. split; [done|].
    by apply (@Get_out_of_reach_is_final example_Signing example_Codec ex_ec ex_transport
                ex_short_limits ∅ ex_es ex_dataSize ltac:(by vm_compute) _ _ s s'
                Hrun1 Hrun2).
  - vm_compute in Hrun1. injection Hrun1 as <-. by vm_compute in Hrun2.
Defined.

(** The short example ends with one piece, nothing in flight and no limit left. *)
Lemma Get_gives_up_only_out_of_reach_witness :
  ∃ s,
    @exec example_Signing example_Codec ex_ec ex_transport ex_short_limits ∅ ex_es
          ex_dataSize ex_short_schedule (Get_init ex_short_limits) = Some s ∧
    inProgress s = 0 ∧ successfulPieces s + unusedLimits s < 2.
Proof.
  destruct (@exec example_Signing example_Codec ex_ec ex_transport ex_short_limits ∅ ex_es
              ex_dataSize ex_short_schedule (Get_init ex_short_limits)) as [s|] eqn:Hrun;
    [|by vm_compute in Hrun].
  assert (Hfacts : drained ex_short_limits s = true ∧ ctxDone s = false ∧
                   successfulPieces s < 2).
  { vm_compute in Hrun. injection Hrun as <-. by vm_compute. }
  destruct Hfacts as (Hd & Hc & Hs).
  destruct (@Get_gives_up_only_out_of_reach example_Signing example_Codec ex_ec
              ex_transport ex_short_limits ∅ ex_es ex_dataSize ltac:(by vm_compute)
              ex_short_schedule s Hrun Hd Hc Hs) as (Hin & _ & Hlt).
  exists s. done.
Defined.

(** ** More on the upload coordinator *)

Lemma receive_cancelCalled (limits : list (option AddressedOrderLimit))
    (successfulNeeded : Z) (env : RepairEnv) (st : RepairState) (i : nat) :
  cancelCalled (receive limits successfulNeeded env st i)
  = if decide (outcome_of limits env i = SlotSucceeded)
    then (if bool_decide (int32 (successfulCount st + 1) >= int32 successfulNeeded)
          then true else cancelCalled st)
    else cancelCalled st.
Proof.
  unfold receive, outcome_of.
  destruct (limits !! i) as [[limit|]|]; [|done..].
  destruct (task_result limits env i) as [hash [e|]]; simpl; [|done].
  by destruct (errs2_IsCanceled e).
Qed.

Lemma Repair_fold_cancelCalled (limits : list (option AddressedOrderLimit))
    (successfulNeeded : Z) (env : RepairEnv) (arr : list nat) :
  Z.of_nat (length arr) < 2 ^ 31 →
  - 2 ^ 31 ≤ successfulNeeded < 2 ^ 31 →
  cancelCalled (fold_left (receive limits successfulNeeded env) arr (Repair_init limits))
  = true
  ↔ 1 ≤ tally limits env SlotSucceeded arr ∧
    successfulNeeded ≤ tally limits env SlotSucceeded arr.
Proof.
  intros Hlen Hneeded.
  induction arr as [|i arr IH] using rev_ind.
  - simpl. rewrite tally_nil. split; [done | lia].
  - rewrite length_app in Hlen. simpl in Hlen.
    specialize (IH ltac:(lia)).
    rewrite fold_left_app. cbn [fold_left].
    destruct (Repair_fold_counts limits successfulNeeded env arr) as (Hs & _).
    cbv zeta in Hs.
    rewrite receive_cancelCalled, Hs, tally_snoc, int32_succ.
    pose proof (tally_nonneg limits env SlotSucceeded arr).
    pose proof (tally_le_length limits env SlotSucceeded arr).
    destruct (decide (outcome_of limits env i = SlotSucceeded)).
    + rewrite !int32_small by lia.
      case_bool_decide; [split; [lia | done]|].
      rewrite IH. lia.
    + rewrite IH. lia.
Qed.

(** X7.  The receiving loop of [Repair] calls [cancel()] exactly when the
    number of successful uploads reaches [successfulNeeded], and not before
    the first success: with counts that fit an [int32], [cancel()] has been
    called when the loop ends iff at least one upload and at least
    [successfulNeeded] uploads succeeded. *)
Theorem Repair_cancels_at_threshold (limits : list (option AddressedOrderLimit))
    (successfulNeeded : Z) (env : RepairEnv) :
  arrival env ≡ₚ seq 0 (length limits) →
  Z.of_nat (length limits) < 2 ^ 31 →
  - 2 ^ 31 ≤ successfulNeeded < 2 ^ 31 →
  cancelCalled (Repair_loop limits successfulNeeded env) = true
  ↔ 1 ≤ tally limits env SlotSucceeded (seq 0 (length limits)) ∧
    successfulNeeded ≤ tally limits env SlotSucceeded (seq 0 (length limits)).
Proof.
  intros Hperm Hlen Hneeded. unfold Repair_loop.
  rewrite Repair_fold_cancelCalled; [|by rewrite Hperm, length_seq | done].
  by rewrite (tally_Permutation limits env SlotSucceeded _ _ Hperm).
Qed.

(** One success among the uploads of the mixed example: a threshold of one
    is reached, a threshold of two is not. *)
Lemma Repair_cancels_at_threshold_witness :
  cancelCalled (Repair_loop ex_mixed_limits 1 ex_mixed_env) = true ∧
  cancelCalled (Repair_loop ex_mixed_limits 2 ex_mixed_env) ≠ true.
Proof.
  assert (Hperm : arrival ex_mixed_env ≡ₚ seq 0 (length ex_mixed_limits)) by compute_done.
  split.
  - apply (Repair_cancels_at_threshold ex_mixed_limits 1 ex_mixed_env Hperm);
      by vm_compute.
  - intros Hc.
    apply (Repair_cancels_at_threshold ex_mixed_limits 2 ex_mixed_env Hperm) in Hc
      as [_ Hc]; [by vm_compute in Hc | by vm_compute | by vm_compute].
Defined.

(** X8.  For a call of [Repair] that passes the two configuration checks and
    whose encoder starts, with a piece count that fits an [int32]: when
    the caller's context is done as [Repair] returns, the error is "repair
    cancelled" whatever the uploads did; the slices are nil when no upload
    succeeded and are returned together with the error otherwise.  (An
    encoder failure returns the encoder's error: the deferred check is not
    yet in place.) *)
Theorem Repair_context_done (limits : list (option AddressedOrderLimit))
    (rs : ErasureScheme) (successfulNeeded : Z) (env : RepairEnv) :
  Z.of_nat (length limits) = TotalCount rs →
  unique limits = true →
  TotalCount rs < 2 ^ 31 →
  arrival env ≡ₚ seq 0 (length limits) →
  ctx_Done env = true →
  let r := Repair limits rs successfulNeeded env in
  let successes := tally limits env SlotSucceeded (seq 0 (length limits)) in
  match EncodeReader2_err env with
  | Some e => rep_err r = Some e
  | None =>
      rep_err r = Some (Class_New RepairerError "repair cancelled" []) ∧
      (successes = 0 → rep_successfulNodes r = None ∧ rep_successfulHashes r = None) ∧
      (successes ≠ 0 →
         rep_successfulNodes r
         = Some (successfulNodes (Repair_loop limits successfulNeeded env)) ∧
         rep_successfulHashes r
         = Some (successfulHashes (Repair_loop limits successfulNeeded env)))
  end.
Proof.
  intros Hlen Huniq Hn Hperm Hctx r successes.
  unfold r, Repair, Repair_deferred.
  rewrite bool_decide_eq_false_2 by (intros ?; done).
  rewrite Huniq, Hctx. simpl.
  destruct (EncodeReader2_err env) as [e|]; [done|].
  destruct (Repair_fold_counts limits successfulNeeded env (arrival env)) as (Hs & _).
  rewrite (tally_Permutation limits env SlotSucceeded _ _ Hperm) in Hs.
  fold successes in Hs.
  assert (Hrange : 0 ≤ successes < 2 ^ 31).
  { split; [apply tally_nonneg|].
    pose proof (tally_le_length limits env SlotSucceeded (seq 0 (length limits))) as Hle.
    rewrite length_seq in Hle. unfold successes. lia. }
  assert (Hzero : successfulCount (Repair_loop limits successfulNeeded env) = 0
                  ↔ successes = 0).
  { unfold Repair_loop. rewrite Hs. by apply int32_zero_iff. }
  case_bool_decide as Hcount; simpl.
  - apply Hzero in Hcount. split; [done|]. split; [done|]. by intros [].
  - split; [done|]. split; [|done]. intros Hz. by apply Hzero in Hz.
Qed.

(** The mixed uploads with the context done: one success, the slices and
    the error "repair cancelled". *)
Lemma Repair_context_done_witness :
  let r := Repair ex_mixed_limits ex_es 3 ex_done_env in
  rep_err r = Some (Class_New RepairerError "repair cancelled" []) ∧
  rep_successfulNodes r ≠ None.
Proof.
  assert (Hperm : arrival ex_done_env ≡ₚ seq 0 (length ex_mixed_limits)) by compute_done.
  pose proof (Repair_context_done ex_mixed_limits ex_es 3 ex_done_env
                eq_refl eq_refl eq_refl Hperm eq_refl) as (Herr & _ & Hsome).
  split; [exact Herr|].
  destruct Hsome as [Hn _]; [by vm_compute|].
  intros Hr. rewrite Hn in Hr. done.
Defined.

Lemma putPiece_events (limit : option AddressedOrderLimit) (env : UploadEnv) :
  (putPiece limit env).2 = option_list (slot_dial limit).
Proof.
  unfold putPiece. destruct limit as [al|]; [|done].
  destruct (up_dial_err env); [done|]. by destruct (UploadReader env).
Qed.

Lemma concat_imap_putPiece (limits : list (option AddressedOrderLimit))
    (envs : nat → UploadEnv) :
  concat (imap (λ i addressedLimit, (putPiece addressedLimit (envs i)).2) limits)
  = omap slot_dial limits.
Proof.
  revert envs. induction limits as [|l limits IH]; intros envs; [done|].
  rewrite imap_cons. cbn [concat]. rewrite putPiece_events.
  destruct l as [al|]; cbn [slot_dial option_list omap list_omap app];
    by rewrite <- (IH (envs ∘ S)).
Qed.

Lemma length_omap_slot_dial (limits : list (option AddressedOrderLimit)) :
  length (omap slot_dial limits) = length (filter is_Some limits).
Proof.
  induction limits as [|l limits IH]; [done|].
  rewrite filter_cons. destruct l as [al|].
  - rewrite decide_True by eauto. simpl. f_equal. exact IH.
  - rewrite decide_False by (by intros [? ?]). exact IH.
Qed.

(** X9.  Once a call of [Repair] has passed the two configuration checks and
    the encoder has started, its tasks dial the node of every non-nil slot
    exactly once, at the address of the slot's limit, and dial nothing for
    a nil slot, whatever the uploads answer: the number of dials is the
    number of non-nil limits. *)
Theorem Repair_dials_each_slot_once (limits : list (option AddressedOrderLimit))
    (rs : ErasureScheme) (successfulNeeded : Z) (env : RepairEnv) :
  Z.of_nat (length limits) = TotalCount rs →
  unique limits = true →
  EncodeReader2_err env = None →
  rep_events (Repair limits rs successfulNeeded env)
  = EvEncode :: omap slot_dial limits ∧
  Z.of_nat (length (omap slot_dial limits)) = nonNilCount limits.
Proof.
  intros Hlen Huniq Henc. split.
  - unfold Repair.
    rewrite bool_decide_eq_false_2 by (intros ?; done).
    rewrite Huniq, Henc. simpl.
    rewrite concat_imap_putPiece. by case_bool_decide.
  - rewrite nonNilCount_filter. f_equal. apply length_omap_slot_dial.
Qed.

(** Three non-nil slots of four: the encoder and three dials. *)
Lemma Repair_dials_each_slot_once_witness :
  rep_events (Repair ex_mixed_limits ex_es 3 ex_mixed_env)
  = [EvEncode; EvDial 5 "10.0.0.1:7777"; EvDial 6 "10.0.0.1:7777";
     EvDial 8 "10.0.0.1:7777"].
Proof.
  exact (proj1 (Repair_dials_each_slot_once ex_mixed_limits ex_es 3 ex_mixed_env
                  eq_refl eq_refl eq_refl)).
Defined.

(** X10.  [putPiece] for a non-nil limit returns no error exactly when the
    dial, the transfer and both deferred closes succeed, and it then
    returns the hash the transfer returned; so [Repair] records a slot as
    successful only then.  A transfer that succeeded is not recorded when
    the client or the piece reader fails to close. *)
Theorem putPiece_succeeds_iff (limits : list (option AddressedOrderLimit))
    (env : RepairEnv) (i : nat) (limit : AddressedOrderLimit)
    (hash : option PieceHash) :
  limits !! i = Some (Some limit) →
  ((putPiece (Some limit) (uploads env i)).1 = (hash, None) ↔
   up_dial_err (uploads env i) = None ∧
   UploadReader (uploads env i) = (hash, None) ∧
   up_ps_Close (uploads env i) = None ∧
   up_data_Close (uploads env i) = None) ∧
  (outcome_of limits env i = SlotSucceeded ↔
   up_dial_err (uploads env i) = None ∧
   (UploadReader (uploads env i)).2 = None ∧
   up_ps_Close (uploads env i) = None ∧
   up_data_Close (uploads env i) = None).
Proof.
  intros Hi.
  assert (Hput : ∀ h, (putPiece (Some limit) (uploads env i)).1 = (h, None) ↔
            up_dial_err (uploads env i) = None ∧
            UploadReader (uploads env i) = (h, None) ∧
            up_ps_Close (uploads env i) = None ∧
            up_data_Close (uploads env i) = None).
  { intros h. unfold putPiece.
    destruct (up_dial_err (uploads env i)) as [e|].
    { simpl. split; [|by intros [? _]].
      by destruct (up_data_Close (uploads env i)). }
    destruct (UploadReader (uploads env i)) as [h' [e|]]; simpl.
    - split; [|by intros (_ & ? & _)].
      destruct (errors_Is_Canceled _), (up_ps_Close _), (up_data_Close _); by simpl.
    - destruct (up_ps_Close _), (up_data_Close _); simpl; split;
        try (by intros [= ->]); try (by intros (_ & [= ->] & _));
        try (by intros (_ & _ & ? & _)); by intros (_ & _ & _ & ?). }
  split; [apply Hput|].
  unfold outcome_of, task_result. rewrite Hi.
  change (default None (Some (Some limit))) with (Some limit).
  split.
  - intros Ho.
    destruct ((putPiece (Some limit) (uploads env i)).1) as [h err] eqn:Hp.
    simpl in Ho. destruct err as [e|]; [by destruct (errs2_IsCanceled e)|].
    destruct (proj1 (Hput h) eq_refl) as (? & Hu & ? & ?). by rewrite Hu.
  - intros (Hd & Hu & Hc & Hdc).
    destruct (UploadReader (uploads env i)) as [h' e'] eqn:Hur.
    simpl in Hu. subst e'.
    by rewrite (proj2 (Hput h') ltac:(done)).
Qed.

(** The node of slot 0 stores the piece and the client fails to close: the
    slot is not a success. *)
Lemma putPiece_succeeds_iff_witness :
  (UploadReader (uploads ex_close_fails_env 0)).2 = None ∧
  outcome_of ex_mixed_limits ex_close_fails_env 0 ≠ SlotSucceeded.
Proof.
  split; [reflexivity|]. intros Ho.
  apply (proj2 (putPiece_succeeds_iff ex_mixed_limits ex_close_fails_env 0
                  (ex_addressed 5 10) None eq_refl)) in Ho as (_ & _ & Hc & _).
  discriminate Hc.
Defined.

(** ** More on the duplicate check *)

Lemma occurrences_le_length (x : NodeID) (l : list NodeID) :
  (occurrences x l ≤ length l)%nat.
Proof. unfold occurrences. apply length_filter. Qed.

(** [unique] fails exactly when a non-zero ID occurs twice among the IDs of
    the slots. *)
Lemma unique_false_occurrences (limits : list (option AddressedOrderLimit)) :
  unique limits = false ↔
  ∃ x, x ≠ zeroNodeID ∧ (2 ≤ occurrences x (limit_ids limits))%nat.
Proof.
  unfold unique. case_bool_decide as Hlen.
  - split; [done|]. intros (x & _ & Hocc).
    pose proof (occurrences_le_length x (limit_ids limits)) as Hle.
    unfold limit_ids in Hle, Hocc. rewrite length_fmap in Hle. lia.
  - rewrite identical_neighbours_sorted by (apply StronglySorted_merge_sort; apply _).
    split; intros (x & Hx & Hocc); exists x; (split; [done|]).
    + by rewrite <- (occurrences_Permutation x (sort_Sort (limit_ids limits)) _
                       (merge_sort_Permutation N.le _)).
    + by rewrite (occurrences_Permutation x (sort_Sort (limit_ids limits)) _
                    (merge_sort_Permutation N.le _)).
Qed.

Lemma unique_eq (l1 l2 : list (option AddressedOrderLimit)) :
  (∀ x, x ≠ zeroNodeID →
        (2 ≤ occurrences x (limit_ids l1))%nat → (2 ≤ occurrences x (limit_ids l2))%nat) →
  unique l1 = false → unique l2 = false.
Proof.
  intros H. rewrite !unique_false_occurrences.
  intros (x & Hx & Hocc). exists x. split; [done | by apply H].
Qed.

(** X11.  The answer of [unique] does not depend on the order of the slots,
    is not changed by adding or removing nil slots, and stays true when
    slots are removed. *)
Theorem unique_order_and_nil_slots (l1 l2 : list (option AddressedOrderLimit))
    (slot : option AddressedOrderLimit) :
  (l1 ≡ₚ l2 → unique l1 = unique l2) ∧
  unique (l1 ++ None :: l2) = unique (l1 ++ l2) ∧
  (unique (l1 ++ slot :: l2) = true → unique (l1 ++ l2) = true).
Proof.
  assert (Hbool : ∀ a b : list (option AddressedOrderLimit),
            (unique a = false → unique b = false) →
            (unique b = false → unique a = false) → unique a = unique b).
  { intros a b Hab Hba. destruct (unique a), (unique b); try done.
    - by apply Hba.
    - symmetry. by apply Hab. }
  assert (Hmid : ∀ x s, x ≠ zeroNodeID →
            (occurrences x (limit_ids (l1 ++ l2))
             ≤ occurrences x (limit_ids (l1 ++ s :: l2)))%nat ∧
            occurrences x (limit_ids (l1 ++ None :: l2))
            = occurrences x (limit_ids (l1 ++ l2))).
  { intros x s Hx. unfold limit_ids, occurrences.
    rewrite !fmap_app, !fmap_cons, !filter_app, !filter_cons, !length_app.
    split.
    - destruct (decide (_ = x)); simpl; lia.
    - rewrite decide_False; [done|]. intros Hz. by apply Hx. }
  split; [|split].
  - intros Hp. apply Hbool; apply unique_eq; intros x _ Hocc.
    + by rewrite <- (occurrences_Permutation x (limit_ids l1) (limit_ids l2))
        by (unfold limit_ids; by rewrite Hp).
    + by rewrite (occurrences_Permutation x (limit_ids l1) (limit_ids l2))
        by (unfold limit_ids; by rewrite Hp).
  - apply Hbool; apply unique_eq; intros x Hx Hocc.
    + by rewrite <- (proj2 (Hmid x None Hx)).
    + by rewrite (proj2 (Hmid x None Hx)).
  - intros Hu. destruct (unique (l1 ++ l2)) eqn:Hu'; [done|].
    rewrite <- Hu. symmetry.
    apply (unique_eq (l1 ++ l2)); [|done].
    intros x Hx Hocc. pose proof (proj1 (Hmid x slot Hx)). lia.
Qed.

(** Swapping a slot of node 5 with a nil slot leaves the duplicate;
    removing the slot of node 6 from a list without duplicates leaves none. *)
Lemma unique_order_and_nil_slots_witness :
  unique [None; Some (ex_addressed 5 11); Some (ex_addressed 5 12)] = false ∧
  unique [Some (ex_addressed 5 11); None; None] = true.
Proof.
  split.
  - rewrite <- (proj1 (unique_order_and_nil_slots
                        [Some (ex_addressed 5 11); None; Some (ex_addressed 5 12)]
                        [None; Some (ex_addressed 5 11); Some (ex_addressed 5 12)]
                        None) (perm_swap _ _ _)).
    reflexivity.
  - apply (proj2 (proj2 (unique_order_and_nil_slots
                           [Some (ex_addressed 5 11)] [None; None]
                           (Some (ex_addressed 6 12))))).
    reflexivity.
Defined.

(** ** Examples for the download coordinator *)

(** Of the three limits of [ex_short_limits] one node serves a verifiable
    piece, so the sequential execution ends irreparable. *)
Lemma Get_too_few_suppliers_witness :
  ∃ r, @Get example_Signing example_Codec ex_ec ex_transport ex_short_limits ∅ ex_es ex_dataSize ex_short_schedule
       = Some r ∧
       get_stream r = None ∧
       ∃ available errors,
         get_err r = Some (irreparableError available (int32 (RequiredCount ex_es)) errors).
Proof.
  eexists. split; [reflexivity|].
  apply (@Get_too_few_suppliers example_Signing example_Codec ex_ec ex_transport ex_short_limits ∅ ex_es ex_dataSize
           ex_short_schedule).
  - reflexivity.
  - vm_compute. split; discriminate.
  - vm_compute. reflexivity.
  - reflexivity.
Defined.

(** ** Whom [Get] reports *)

Section GetFailedPieces.
Context `{Sg : Signing} `{Cd : Codec}.
Variable ec : ECRepairer.
Variable transport : AddressedOrderLimit → string → DownloadEnv.
Variable limits : list (option AddressedOrderLimit).
Variable cachedIPsAndPorts : gmap NodeID string.
Variable es : ErasureScheme.
Variable dataSize : Z.

Local Abbreviation run := (exec ec transport limits cachedIPsAndPorts es dataSize).
Local Abbreviation fetch1 := (fetch ec transport cachedIPsAndPorts es dataSize).
Local Abbreviation served :=
  (served_address ec transport cachedIPsAndPorts es dataSize).
Local Abbreviation pieceSize := (Get_pieceSize es dataSize).
Local Abbreviation download := (downloadAndVerifyPiece ec transport).

(** Every record of [failedPieces] stands for a worker whose download ended
    with an error of the class [ErrPieceHashVerifyFailed]. *)
Lemma Get_failedPieces_class (schedule : list action) (s : GetState) (rp : RemotePiece) :
  run schedule (Get_init limits) = Some s →
  rp ∈ failedPieces s →
  ∃ i limit, limits !! i = Some (Some limit) ∧ rp = failed_record i limit ∧
             Class_Has ErrPieceHashVerifyFailed (fetch1 limit).1.2 = true.
Proof.
  intros Hrun. revert rp.
  apply (exec_preserves ec transport limits cachedIPsAndPorts es dataSize
           (λ s, ∀ rp, rp ∈ failedPieces s →
                       ∃ i limit, limits !! i = Some (Some limit) ∧
                                  rp = failed_record i limit ∧
                                  Class_Has ErrPieceHashVerifyFailed (fetch1 limit).1.2 = true)
           schedule (Get_init limits) s); [| | |done].
  - intros a s1 s2 HP Hstep Ha.
    destruct (step_quiet ec transport limits cachedIPsAndPorts es dataSize
                a s1 s2 Hstep Ha) as (_ & _ & -> & _). done.
  - intros j limit s1 HP Hw Hl rp. unfold fetched_step.
    destruct (fetch1 limit) as [[r' [e|]] evs] eqn:Hfetch; cbn [failedPieces];
      [|by apply HP].
    destruct (Class_Has ErrPieceHashVerifyFailed (Some e)) eqn:Hclass; [|by apply HP].
    rewrite elem_of_app, list_elem_of_singleton. intros [Hin | ->]; [by apply HP|].
    exists j, limit. by rewrite Hfetch.
  - intros rp. simpl. by rewrite elem_of_nil.
Qed.

(** X14.  With errors of the transport that do not carry the repairer's class
    [ErrPieceHashVerifyFailed], [Get] reports only nodes whose piece failed
    the hash verification: every record of the returned [failedPieces]
    names the index and the node of a non-nil limit whose download (the one
    the worker kept) delivered a piece of the right size under a limit the
    satellite signed and was rejected by [verifyPieceHash]; the returned
    stream has no reader at that index. *)
Theorem Get_failedPieces_sound (schedule : list action) (res : GetResult)
    (rp : RemotePiece) :
  (∀ limit address, transport_errors_foreign (transport limit address)) →
  Get ec transport limits cachedIPsAndPorts es dataSize schedule = Some res →
  rp ∈ get_failedPieces res →
  ∃ i limit,
    limits !! i = Some (Some limit) ∧
    rp = {| PieceNum := int32 (Z.of_nat i); NodeId := StorageNodeId (Limit limit) |} ∧
    piece_hash_rejected ec transport es dataSize limit (served limit) ∧
    ∀ stream, get_stream res = Some stream → ds_readers stream !! i = None.
Proof.
  intros Hforeign HGet Hin. unfold Get in HGet.
  case_bool_decide; [simplify_eq; by apply elem_of_nil in Hin|].
  case_bool_decide; [simplify_eq; by apply elem_of_nil in Hin|].
  destruct (run schedule (Get_init limits)) as [s|] eqn:Hrun; [|done].
  destruct (drained limits s); [|done]. injection HGet as <-.
  rewrite Get_finish_failedPieces in Hin.
  destruct (Get_failedPieces_class schedule s rp Hrun Hin) as (i & limit & Hl & -> & Hclass).
  exists i, limit. split; [done|]. split; [done|]. split.
  - apply download_class_hash_failed; [done|]. by rewrite <- fetch_served.
  - intros stream Hstream. unfold Get_finish in Hstream.
    case_bool_decide; [done|].
    destruct (infectious_NewFEC _ _); [done|].
    injection Hstream as <-. simpl.
    destruct (pieceReaders s !! i) as [r|] eqn:Hr; [|done].
    destruct (Get_readers_fetched ec transport limits cachedIPsAndPorts es dataSize
                schedule s i r Hrun Hr) as (limit' & Hl' & Hfetch).
    rewrite Hl in Hl'. injection Hl' as <-.
    by rewrite Hfetch in Hclass.
Qed.

End GetFailedPieces.

(** The errors of the examples' network are piece-store errors. *)
Lemma ex_transport_foreign (limit : AddressedOrderLimit) (address : string) :
  transport_errors_foreign (ex_transport limit address).
Proof. unfold ex_transport. by repeat case_bool_decide. Qed.

(** The one node the interleaved example reports is node 66, whose hash was
    signed over other content. *)
Lemma Get_failedPieces_sound_witness :
  ∃ i limit,
    ex_get_limits !! i = Some (Some limit) ∧
    {| PieceNum := 2; NodeId := 66%N |}
    = {| PieceNum := int32 (Z.of_nat i); NodeId := StorageNodeId (Limit limit) |} ∧
    @piece_hash_rejected example_Signing example_Codec ex_ec ex_transport ex_es
      ex_dataSize limit
      (@served_address example_Signing example_Codec ex_ec ex_transport ∅ ex_es
         ex_dataSize limit).
Proof.
  destruct (@Get example_Signing example_Codec ex_ec ex_transport ex_get_limits ∅ ex_es
              ex_dataSize ex_schedule) as [r|] eqn:HGet;
    [|by vm_compute in HGet].
  assert (Hfailed : get_failedPieces <$> @Get example_Signing example_Codec ex_ec
                      ex_transport ex_get_limits ∅ ex_es ex_dataSize ex_schedule
                    = Some [{| PieceNum := 2; NodeId := 66%N |}]) by (by vm_compute).
  rewrite HGet in Hfailed. injection Hfailed as Hfailed.
  destruct (@Get_failedPieces_sound example_Signing example_Codec ex_ec ex_transport
              ex_get_limits ∅ ex_es ex_dataSize ex_schedule r
              {| PieceNum := 2; NodeId := 66%N |} ex_transport_foreign HGet)
    as (i & limit & Hl & Hrp & Hrej & _).
  - rewrite Hfailed. apply list_elem_of_here.
  - by exists i, limit.
Defined.
